(** * The service container of go-start (framework/container.go)

    A shallow embedding of [StartContainer] and of its methods [Bind],
    [IsBind], [Make], [MustMake] and [MakeNew], followed by the properties
    of the container that its specification states.

    The container is a Go object mutated in place and handed to the hooks of
    the providers bound into it, so the methods are written in a state monad
    over the container, the world outside it and a log of the hook
    invocations. A hook is a program that may call back into the container
    through the five methods of the [Container] interface; a call can
    therefore nest calls to any depth, and the receiver [this n] allows [n]
    levels of them.

    One goroutine is modelled. The lock is kept, since it decides what a
    hook may call: [Bind] from inside [make], which holds the read lock,
    blocks for ever. Left out is the line [Bind] prints when the factory
    fails. [PrintProviders] and [NameList], which only read the providers,
    come after the methods of the interface. The repository holds a second
    copy of the file whose [make] and [newInstance] are the same; its [Bind]
    keeps the write lock until it returns, and its [MustMake] panics with
    the error instead of a message: they are the module [Older].

    A hook of the model returns, reads or writes the world, or calls the
    container, and ends as that call ends: it panics when a [MustMake] it
    calls panics, and blocks when a call blocks. A hook that panics of its
    own accord or does not return is not modelled. [Name()] and [IsDefer()]
    are taken to return; the one call of [Bind] in which [Name()] panics,
    [Bind(nil)], is [Bind_nil].

    The properties of the specification come first; further properties of
    the code follow them. *)

From stdpp Require Import base option list strings gmap.

Set Default Proof Using "Type".

(** ** Errors *)

(** A Go [error] is observed through its [Error()] message. [errors_New] is
    the value built by [errors.New]; any other implementation of the
    interface is a [foreign_error] with a tag telling it apart. *)
Inductive error : Type :=
| errors_New (msg : string)
| foreign_error (tag : nat) (msg : string).

Definition Error (e : error) : string :=
  match e with
  | errors_New msg => msg
  | foreign_error _ msg => msg
  end.

#[global] Instance error_eq_dec : EqDecision error.
Proof. solve_decision. Defined.

(** ** The sync.RWMutex of the container, as one goroutine sees it *)

Record RWMutex : Type := mkRWMutex { readers : nat; writer : bool }.

Definition unlocked : RWMutex := {| readers := 0; writer := false |}.

#[global] Instance RWMutex_eq_dec : EqDecision RWMutex.
Proof. solve_decision. Defined.

(** ** The monad of the methods *)

Section monad.

(** [St] is the state a call runs on. *)
Context {St : Type}.

(** A call returns, panics, blocks for ever on the lock, or needs more
    nested calls than the fuel allows. *)
Inductive Outcome (A : Type) : Type :=
| Returned (a : A) (s : St)
| Panicked (msg : string) (s : St)
| Deadlock
| OutOfFuel.

Arguments Returned {A} a s.
Arguments Panicked {A} msg s.
Arguments Deadlock {A}.
Arguments OutOfFuel {A}.

Definition M (A : Type) : Type := St -> Outcome A.

Definition ret {A} (a : A) : M A := fun s => Returned a s.

Definition bind {A B} (m : M A) (f : A -> M B) : M B :=
  fun s =>
    match m s with
    | Returned a s' => f a s'
    | Panicked msg s' => Panicked msg s'
    | Deadlock => Deadlock
    | OutOfFuel => OutOfFuel
    end.

Definition panic {A} (msg : string) : M A := fun s => Panicked msg s.

Definition gets {A} (f : St -> A) : M A := fun s => Returned (f s) s.

Definition modify (f : St -> St) : M unit := fun s => Returned tt (f s).

(** [defer cleanup; body]: the cleanup runs when the body returns and when
    it panics. *)
Definition defer {A} (cleanup : M unit) (body : M A) : M A :=
  fun s =>
    match body s with
    | Returned a s' =>
        match cleanup s' with
        | Returned _ s'' => Returned a s''
        | Panicked msg s'' => Panicked msg s''
        | Deadlock => Deadlock
        | OutOfFuel => OutOfFuel
        end
    | Panicked msg s' =>
        match cleanup s' with
        | Returned _ s'' => Panicked msg s''
        | Panicked msg' s'' => Panicked msg' s''
        | Deadlock => Deadlock
        | OutOfFuel => OutOfFuel
        end
    | Deadlock => Deadlock
    | OutOfFuel => OutOfFuel
    end.

(** What holds of a call once it is over: [Q] of the value and state it
    returns, [E] of the message and state it panics with. A call that
    blocks or runs out of fuel is never over. *)
Definition after {A} (m : M A) (s : St) (Q : A -> St -> Prop) (E : string -> St -> Prop)
  : Prop :=
  match m s with
  | Returned a s' => Q a s'
  | Panicked msg s' => E msg s'
  | Deadlock => True
  | OutOfFuel => True
  end.

End monad.

Arguments Outcome : clear implicits.
Arguments M : clear implicits.
Arguments Returned {St A} a s.
Arguments Panicked {St A} msg s.
Arguments Deadlock {St A}.
Arguments OutOfFuel {St A}.

Notation "'let*' x ':=' m 'in' k" := (bind m (fun x => k))
  (at level 10, x name, m at level 100, k at level 200, only parsing).
Notation "'let*' ' pat ':=' m 'in' k" :=
  (bind m (fun x => match x with pat => k end))
  (at level 10, pat pattern, m at level 100, k at level 200, only parsing).
Notation "m ;; k" := (bind m (fun _ => k))
  (at level 100, k at level 200, right associativity, only parsing).

Section container.

(** [V] are the non-nil values an [interface{}] holds, [W] is the state of
    the world outside the container (whatever the hooks read and write) and
    [P] are the provider objects, which can be told apart. *)
Context {V W P : Type} `{EqDecision P}.

(** [interface{}]: [None] is the nil interface. *)
Definition iface : Type := option V.

(** [[]interface{}]: [None] is the nil slice, [Some []] an empty one. *)
Definition slice : Type := option (list V).

(** The pair [(interface{}, error)] that [Make], [MakeNew] and a factory
    return; a nil error is [None]. *)
Definition result : Type := (iface * option error)%type.

(** ** The container *)

Record StartContainer : Type := mkStartContainer {
  providers : gmap string P;
  instances : gmap string iface;
  lock : RWMutex
}.

Definition NewStartContainer : StartContainer :=
  {| providers := ∅; instances := ∅; lock := unlocked |}.

(** Instrumentation: every invocation of a hook by the container is logged,
    the factory with the arguments it receives. *)
Inductive Event : Type :=
| Booted (sp : P)
| AskedParams (sp : P)
| Registered (sp : P)
| Invoked (sp : P) (args : slice).

Record State : Type := mkState {
  container : StartContainer;
  world : W;
  trace : list Event
}.

Definition set_providers (f : gmap string P -> gmap string P) (s : State) : State :=
  {| container := {| providers := f (providers (container s));
                     instances := instances (container s);
                     lock := lock (container s) |};
     world := world s; trace := trace s |}.

Definition set_instances (f : gmap string iface -> gmap string iface) (s : State) : State :=
  {| container := {| providers := providers (container s);
                     instances := f (instances (container s));
                     lock := lock (container s) |};
     world := world s; trace := trace s |}.

Definition set_lock (f : RWMutex -> RWMutex) (s : State) : State :=
  {| container := {| providers := providers (container s);
                     instances := instances (container s);
                     lock := f (lock (container s)) |};
     world := world s; trace := trace s |}.

Definition set_world (w : W) (s : State) : State :=
  {| container := container s; world := w; trace := trace s |}.

Definition log (ev : Event) (s : State) : State :=
  {| container := container s; world := world s; trace := trace s ++ [ev] |}.

(** ** Hooks *)

(** A hook is a program over the world and the [Container] interface it is
    handed: it returns, reads or writes the world, or calls one of the five
    methods and goes on with the reply. *)
Inductive Prog (R : Type) : Type :=
| Ret (r : R)
| GetWorld (k : W -> Prog R)
| PutWorld (w : W) (k : Prog R)
| DoBind (provider : P) (k : option error -> Prog R)
| DoIsBind (key : string) (k : bool -> Prog R)
| DoMake (key : string) (k : result -> Prog R)
| DoMustMake (key : string) (k : iface -> Prog R)
| DoMakeNew (key : string) (params : slice) (k : result -> Prog R).

Arguments Ret {R} r.
Arguments GetWorld {R} k.
Arguments PutWorld {R} w k.
Arguments DoBind {R} provider k.
Arguments DoIsBind {R} key k.
Arguments DoMake {R} key k.
Arguments DoMustMake {R} key k.
Arguments DoMakeNew {R} key params k.

(** The [Container] interface, as the value a hook holds. *)
Record Container : Type := mkContainer {
  call_Bind : P -> M State (option error);
  call_IsBind : string -> M State bool;
  call_Make : string -> M State result;
  call_MustMake : string -> M State iface;
  call_MakeNew : string -> slice -> M State result
}.

(** Running a hook against the container [c]. *)
Fixpoint run {R} (c : Container) (m : Prog R) : M State R :=
  match m with
  | Ret r => ret r
  | GetWorld k => fun s => run c (k (world s)) s
  | PutWorld w k => fun s => run c k (set_world w s)
  | DoBind provider k => let* r := call_Bind c provider in run c (k r)
  | DoIsBind key k => let* r := call_IsBind c key in run c (k r)
  | DoMake key k => let* r := call_Make c key in run c (k r)
  | DoMustMake key k => let* r := call_MustMake c key in run c (k r)
  | DoMakeNew key params k => let* r := call_MakeNew c key params in run c (k r)
  end.

(** Modelled from the spec: the [ServiceProvider] interface, whose
    declaration (framework/provider.go) is not among the sources. The
    specification gives it five methods: [Name], the key; [IsDefer];
    [Boot], a side-effecting setup step run against the container;
    [Params], the default argument list of the factory, with container
    access; and [Register], which returns the factory, a variadic function
    from an argument list to an instance and an error. *)
Class ServiceProvider : Type := {
  Name : P -> string;
  IsDefer : P -> bool;
  Boot : P -> Prog (option error);
  Params : P -> Prog slice;
  Register : P -> Prog (slice -> Prog result)
}.

Context `{ServiceProvider}.

(** ** The lock *)

Definition lock_Lock : M State unit :=
  fun s =>
    match lock (container s) with
    | {| readers := 0; writer := false |} =>
        Returned tt (set_lock (fun l => {| readers := 0; writer := true |}) s)
    | _ => Deadlock
    end.

Definition lock_Unlock : M State unit :=
  modify (set_lock (fun l => {| readers := readers l; writer := false |})).

Definition lock_RLock : M State unit :=
  fun s =>
    if writer (lock (container s)) then Deadlock
    else Returned tt (set_lock (fun l => {| readers := S (readers l); writer := writer l |}) s).

Definition lock_RUnlock : M State unit :=
  modify (set_lock (fun l => {| readers := pred (readers l); writer := writer l |})).

(** ** The methods of [*StartContainer] *)

(** Every method takes [self], the receiver as the [Container] it hands to
    the hooks. *)

Definition Bind (self : Container) (provider : P) : M State (option error) :=
  lock_Lock ;;
  let key := Name provider in
  modify (set_providers (fun m => <[key := provider]> m)) ;;
  lock_Unlock ;;
  if negb (IsDefer provider) then
    modify (log (Booted provider)) ;;
    let* err := run self (Boot provider) in
    match err with
    | Some e => ret (Some e)
    | None =>
        modify (log (AskedParams provider)) ;;
        let* params := run self (Params provider) in
        modify (log (Registered provider)) ;;
        let* method := run self (Register provider) in
        modify (log (Invoked provider params)) ;;
        let* '(instance, err) := run self (method params) in
        match err with
        | Some e => ret (Some (errors_New (Error e)))
        | None =>
            modify (set_instances (fun m => <[key := instance]> m)) ;;
            ret None
        end
    end
  else ret None.

Definition findServiceProvider (key : string) : M State (option P) :=
  lock_RLock ;;
  defer lock_RUnlock
    (gets (fun s => providers (container s) !! key)).

Definition IsBind (key : string) : M State bool :=
  let* sp := findServiceProvider key in
  ret (match sp with Some _ => true | None => false end).

Definition newInstance (self : Container) (sp : P) (params : slice) : M State result :=
  modify (log (Booted sp)) ;;
  let* err := run self (Boot sp) in
  match err with
  | Some e => ret (None, Some e)
  | None =>
      let* params :=
        match params with
        | None => modify (log (AskedParams sp)) ;; run self (Params sp)
        | Some _ => ret params
        end in
      modify (log (Registered sp)) ;;
      let* method := run self (Register sp) in
      modify (log (Invoked sp params)) ;;
      let* '(ins, err) := run self (method params) in
      match err with
      | Some e => ret (None, Some (errors_New (Error e)))
      | None => ret (ins, None)
      end
  end.

Definition make (self : Container) (key : string) (params : slice) (forceNew : bool)
  : M State result :=
  lock_RLock ;;
  defer lock_RUnlock
    (let* sp := findServiceProvider key in
     match sp with
     | None => ret (None, Some (errors_New ("contract " +:+ key +:+ " have not register")))
     | Some sp =>
         if forceNew then newInstance self sp params
         else
           let* cached := gets (fun s => instances (container s) !! key) in
           match cached with
           | Some ins => ret (ins, None)
           | None =>
               let* '(inst, err) := newInstance self sp None in
               match err with
               | Some e => ret (None, Some e)
               | None =>
                   modify (set_instances (fun m => <[key := inst]> m)) ;;
                   ret (inst, None)
               end
           end
     end).

Definition Make (self : Container) (key : string) : M State result :=
  make self key None false.

Definition MustMake (self : Container) (key : string) : M State iface :=
  let* '(serv, err) := make self key None false in
  match err with
  | Some _ => panic ("container not contain key " +:+ key)
  | None => ret serv
  end.

Definition MakeNew (self : Container) (key : string) (params : slice) : M State result :=
  make self key params true.

(** The receiver of the methods, good for [n] levels of calls from hooks
    back into the container. *)
Fixpoint this (n : nat) : Container :=
  match n with
  | 0 =>
      {| call_Bind := fun _ _ => OutOfFuel;
         call_IsBind := IsBind;
         call_Make := fun _ _ => OutOfFuel;
         call_MustMake := fun _ _ => OutOfFuel;
         call_MakeNew := fun _ _ _ => OutOfFuel |}
  | S n =>
      {| call_Bind := Bind (this n);
         call_IsBind := IsBind;
         call_Make := Make (this n);
         call_MustMake := MustMake (this n);
         call_MakeNew := MakeNew (this n) |}
  end.

(** ** Notions the properties are stated with *)

(** *** The lock, as the methods use it *)

Definition rlocked (s : State) : State :=
  set_lock (fun l => {| readers := S (readers l); writer := writer l |}) s.

Definition runlocked (s : State) : State :=
  set_lock (fun l => {| readers := pred (readers l); writer := writer l |}) s.

(** Every key with a cached instance has a provider. *)
Definition wf (s : State) : Prop :=
  forall k, is_Some (instances (container s) !! k) -> is_Some (providers (container s) !! k).

(** What every call leaves as it found it, or only adds to. *)
Record grows (s s' : State) : Prop := mkGrows {
  grows_lock : lock (container s') = lock (container s);
  grows_providers :
    forall k, is_Some (providers (container s) !! k) -> is_Some (providers (container s') !! k);
  grows_instances :
    forall k, is_Some (instances (container s) !! k) -> is_Some (instances (container s') !! k);
  grows_trace : trace s `prefix_of` trace s';
  grows_wf : wf s -> wf s'
}.

Definition growing {A} (m : M State A) : Prop :=
  forall s, after m s (fun _ s' => grows s s') (fun _ s' => grows s s').

Record sound (c : Container) : Prop := mkSound {
  sound_Bind : forall provider, growing (call_Bind c provider);
  sound_IsBind : forall key, growing (call_IsBind c key);
  sound_Make : forall key, growing (call_Make c key);
  sound_MustMake : forall key, growing (call_MustMake c key);
  sound_MakeNew : forall key params, growing (call_MakeNew c key params)
}.

(** [make] runs under a read lock that its deferred [RUnlock] releases. *)
Definition released {A} (o : Outcome State A) : Outcome State A :=
  match o with
  | Returned a s => Returned a (runlocked s)
  | Panicked msg s => Panicked msg (runlocked s)
  | Deadlock => Deadlock
  | OutOfFuel => OutOfFuel
  end.

(** What [make] does once it holds the lock, has found the provider and has
    found no cached instance. *)
Definition make_fresh (self : Container) (key : string) (sp : P) : M State result :=
  let* '(inst, err) := newInstance self sp None in
  match err with
  | Some e => ret (None, Some e)
  | None =>
      modify (set_instances (fun m => <[key := inst]> m)) ;;
      ret (inst, None)
  end.

(** What [Bind] does for a provider that is not deferred, once the provider
    is installed and the lock released. *)
Definition Bind_eager (self : Container) (provider : P) : M State (option error) :=
  modify (log (Booted provider)) ;;
  let* err := run self (Boot provider) in
  match err with
  | Some e => ret (Some e)
  | None =>
      modify (log (AskedParams provider)) ;;
      let* params := run self (Params provider) in
      modify (log (Registered provider)) ;;
      let* method := run self (Register provider) in
      modify (log (Invoked provider params)) ;;
      let* '(instance, err) := run self (method params) in
      match err with
      | Some e => ret (Some (errors_New (Error e)))
      | None =>
          modify (set_instances (fun m => <[Name provider := instance]> m)) ;;
          ret None
      end
  end.

Definition installed (provider : P) (s : State) : State :=
  set_providers (fun m => <[Name provider := provider]> m) s.

(** *** States written out *)

(** The state after hooks changed the world to [w] and the container logged
    [evs]; the container itself is as it was. *)
Definition advance (w : W) (evs : list Event) (s : State) : State :=
  {| container := container s; world := w; trace := trace s ++ evs |}.

(** The state in which [ins] is the cached instance of [key]. *)
Definition cache (key : string) (ins : iface) (s : State) : State :=
  set_instances (fun m => <[key := ins]> m) s.

(** *** Counting hook invocations *)

Definition is_Booted (sp : P) (ev : Event) : bool :=
  match ev with
  | Booted sp' => bool_decide (sp' = sp)
  | _ => false
  end.

Definition is_Invoked (sp : P) (ev : Event) : bool :=
  match ev with
  | Invoked sp' _ => bool_decide (sp' = sp)
  | _ => false
  end.

Fixpoint count (f : Event -> bool) (t : list Event) : nat :=
  match t with
  | [] => 0
  | ev :: t => (if f ev then 1 else 0) + count f t
  end.

(** How often the container ran [Boot] of [sp], and the factory of [sp]. *)
Definition boots (sp : P) (t : list Event) : nat := count (is_Booted sp) t.
Definition factory_runs (sp : P) (t : list Event) : nat := count (is_Invoked sp) t.

(** *** Hooks that leave a key alone *)

Definition provider_of (ev : Event) : P :=
  match ev with
  | Booted sp => sp
  | AskedParams sp => sp
  | Registered sp => sp
  | Invoked sp _ => sp
  end.

(** The invocations, among [t], of the hooks of providers named [key]. *)
Fixpoint own (key : string) (t : list Event) : list Event :=
  match t with
  | [] => []
  | ev :: t =>
      if bool_decide (Name (provider_of ev) = key) then ev :: own key t else own key t
  end.

(** Every provider is filed under its name, as [Bind] files it. *)
Definition named (s : State) : Prop :=
  map_Forall (fun k p => Name p = k) (providers (container s)).

(** A call the guard turns down is not followed any further. *)
Definition refuse {A} : M State A := fun _ => OutOfFuel.

(** The receiver that turns down every call by which a hook would resolve or
    bind [key] itself: a call made with it returns only if no hook, at any
    depth, made such a call. *)
Fixpoint guarded (key : string) (n : nat) : Container :=
  match n with
  | 0 => this 0
  | S n =>
      {| call_Bind := fun provider =>
           if decide (Name provider = key) then refuse else Bind (guarded key n) provider;
         call_IsBind := IsBind;
         call_Make := fun k =>
           if decide (k = key) then refuse else Make (guarded key n) k;
         call_MustMake := fun k =>
           if decide (k = key) then refuse else MustMake (guarded key n) k;
         call_MakeNew := fun k params =>
           if decide (k = key) then refuse else MakeNew (guarded key n) k params |}
  end.

(** What a call leaves of [key]: its provider, its cached instance and the
    lock are as before, and of the hooks of providers named [key] exactly
    [evs] were invoked. *)
Record moved (key : string) (evs : list Event) (s s' : State) : Prop := mkMoved {
  moved_lock : lock (container s') = lock (container s);
  moved_providers : providers (container s') !! key = providers (container s) !! key;
  moved_instances : instances (container s') !! key = instances (container s) !! key;
  moved_trace : exists t, trace s' = trace s ++ t /\ own key t = evs;
  moved_named : named s -> named s'
}.

(** [mg] returning implies that [m] returns the same and leaves [key]
    alone. *)
Definition sim (key : string) {A} (mg m : M State A) : Prop :=
  forall s a s', mg s = Returned a s' -> named s ->
    m s = Returned a s' /\ moved key [] s s'.

Record tame (key : string) (cg c : Container) : Prop := mkTame {
  tame_Bind : forall provider, sim key (call_Bind cg provider) (call_Bind c provider);
  tame_IsBind : forall k, sim key (call_IsBind cg k) (call_IsBind c k);
  tame_Make : forall k, sim key (call_Make cg k) (call_Make c k);
  tame_MustMake : forall k, sim key (call_MustMake cg k) (call_MustMake c k);
  tame_MakeNew : forall k params, sim key (call_MakeNew cg k params) (call_MakeNew c k params)
}.

(** What [newInstance] returns for the pair a factory returned. *)
Definition outcome (ins : iface) (err : option error) : result :=
  match err with
  | Some e => (None, Some (errors_New (Error e)))
  | None => (ins, None)
  end.

(** An instantiation attempt by the hooks it runs, each from the state the
    one before left, with the invocations it logs and what it returns:
    [Boot] alone when it fails; [Boot], [Register] and the factory on the
    parameters of the caller; [Boot], [Params], [Register] and the factory
    on the output of [Params] when the caller gave none. *)
Inductive attempt_of (c : Container) (sp : P) (s : State)
  : slice -> result -> list Event -> State -> Prop :=
| attempt_Boot_fails (params : slice) (e : error) (s1 : State) :
    run c (Boot sp) (log (Booted sp) s) = Returned (Some e) s1 ->
    attempt_of c sp s params (None, Some e) [Booted sp] s1
| attempt_given (l : list V) (s1 s2 s3 : State) (method : slice -> Prog result)
    (ins : iface) (err : option error) :
    run c (Boot sp) (log (Booted sp) s) = Returned None s1 ->
    run c (Register sp) (log (Registered sp) s1) = Returned method s2 ->
    run c (method (Some l)) (log (Invoked sp (Some l)) s2) = Returned (ins, err) s3 ->
    attempt_of c sp s (Some l) (outcome ins err)
      [Booted sp; Registered sp; Invoked sp (Some l)] s3
| attempt_default (ps : slice) (s1 s2 s3 s4 : State) (method : slice -> Prog result)
    (ins : iface) (err : option error) :
    run c (Boot sp) (log (Booted sp) s) = Returned None s1 ->
    run c (Params sp) (log (AskedParams sp) s1) = Returned ps s2 ->
    run c (Register sp) (log (Registered sp) s2) = Returned method s3 ->
    run c (method ps) (log (Invoked sp ps) s3) = Returned (ins, err) s4 ->
    attempt_of c sp s None (outcome ins err)
      [Booted sp; AskedParams sp; Registered sp; Invoked sp ps] s4.

(** [e] is the error [Boot] of [sp] returned, or [errors.New] of the message
    of the error its factory returned. *)
Definition raised (c : Container) (sp : P) (e : error) : Prop :=
  (exists s0 s1, run c (Boot sp) s0 = Returned (Some e) s1) \/
  (exists (method : slice -> Prog result) (ps : slice) (ins : iface) (e' : error)
          (s0 s1 s2 s3 : State),
     run c (Register sp) s0 = Returned method s1 /\
     run c (method ps) s2 = Returned (ins, Some e') s3 /\
     e = errors_New (Error e')).

(** With nothing cached for [key], a [Make(key)] during which no hook
    resolves or binds [key] itself is one more attempt without caller
    parameters, from [Boot]: of the hooks of [sp] the log shows those of the
    attempt, [Boot] once more; the instance the attempt returns is cached,
    and an error caches nothing. *)
Definition Make_retries (m : nat) (key : string) (sp : P) (s : State) : Prop :=
  instances (container s) !! key = None /\
  forall (r : result) (s' : State),
    Make (guarded key m) key s = Returned r s' ->
    Make (this m) key s = Returned r s' /\
    (exists (evs t : list Event) (s1 : State),
       attempt_of (this m) sp (rlocked s) None r evs s1 /\
       trace s' = trace s ++ t /\ own key t = evs) /\
    boots sp (trace s') = boots sp (trace s) + 1 /\
    instances (container s') !! key =
      match snd r with
      | Some _ => None
      | None => Some (fst r)
      end.

(** *** The states a client can bring the container to *)

(** No call on the container is in progress. *)
Definition idle (s : State) : Prop := lock (container s) = unlocked.

Definition fresh_state (w : W) : State :=
  {| container := NewStartContainer; world := w; trace := [] |}.

Inductive Call : Type :=
| CallBind (provider : P)
| CallIsBind (key : string)
| CallMake (key : string)
| CallMustMake (key : string)
| CallMakeNew (key : string) (params : slice).

(** The state a call leaves when it is over, whether it returned or
    panicked. *)
Definition state_after {A} (o : Outcome State A) : option State :=
  match o with
  | Returned _ s => Some s
  | Panicked _ s => Some s
  | Deadlock => None
  | OutOfFuel => None
  end.

Definition perform (n : nat) (c : Call) (s : State) : option State :=
  match c with
  | CallBind provider => state_after (Bind (this n) provider s)
  | CallIsBind key => state_after (IsBind key s)
  | CallMake key => state_after (Make (this n) key s)
  | CallMustMake key => state_after (MustMake (this n) key s)
  | CallMakeNew key params => state_after (MakeNew (this n) key params s)
  end.

Inductive reachable : State -> Prop :=
| reachable_new (w : W) : reachable (fresh_state w)
| reachable_call (n : nat) (c : Call) (s s' : State) :
    reachable s -> perform n c s = Some s' -> reachable s'.

(** ** The listings *)

(** [for _, provider := range s.providers]: the body runs once for every
    entry of the map, in an order the runtime chooses. *)
Definition ranges (m : gmap string P) (entries : list (string * P)) : Prop :=
  entries ≡ₚ map_to_list m.

(** [fmt.Sprint] of one string is that string. *)
Definition Sprint (a : string) : string := a.

(** The loops of [PrintProviders] and of [NameList] over the entries in the
    order they are visited; [ret] starts as [[]string{}] and is appended
    to. *)
Definition PrintProviders_loop (entries : list (string * P)) : list string :=
  foldl (fun ret entry =>
           let name := Name (snd entry) in
           let line := Sprint name in
           ret ++ [line]) [] entries.

Definition NameList_loop (entries : list (string * P)) : list string :=
  foldl (fun ret entry =>
           let name := Name (snd entry) in
           ret ++ [name]) [] entries.

(** The two methods read [providers] without taking the lock and change
    nothing: [ret] is a list they may return on [s]. *)
Definition PrintProviders (s : State) (ret : list string) : Prop :=
  exists entries, ranges (providers (container s)) entries /\ ret = PrintProviders_loop entries.

Definition NameList (s : State) (ret : list string) : Prop :=
  exists entries, ranges (providers (container s)) entries /\ ret = NameList_loop entries.

(** ** Further notions *)

(** What every call keeps, whatever the hooks do: the lock, the filing of
    the providers under their names and, while a read lock is held, the
    providers themselves and every instance that is cached. *)
Record kept (s s' : State) : Prop := mkKept {
  kept_lock : lock (container s') = lock (container s);
  kept_named : named s -> named s';
  kept_providers :
    0 < readers (lock (container s)) -> providers (container s') = providers (container s);
  kept_instances :
    0 < readers (lock (container s)) ->
    forall k i, instances (container s) !! k = Some i -> instances (container s') !! k = Some i
}.

Definition keeping {A} (m : M State A) : Prop :=
  forall s, after m s (fun _ s' => kept s s') (fun _ s' => kept s s').

Record careful (c : Container) : Prop := mkCareful {
  careful_Bind : forall provider, keeping (call_Bind c provider);
  careful_IsBind : forall key, keeping (call_IsBind c key);
  careful_Make : forall key, keeping (call_Make c key);
  careful_MustMake : forall key, keeping (call_MustMake c key);
  careful_MakeNew : forall key params, keeping (call_MakeNew c key params)
}.

(** A call that is not a [Bind]. *)
Definition resolves (c : Call) : bool :=
  match c with
  | CallBind _ => false
  | _ => true
  end.

(** The receiver that turns down every call: a call made with it returns
    only if no hook called the container at all. *)
Definition aloof : Container :=
  {| call_Bind := fun _ => refuse;
     call_IsBind := fun _ => refuse;
     call_Make := fun _ => refuse;
     call_MustMake := fun _ => refuse;
     call_MakeNew := fun _ _ => refuse |}.

(** The log shows no [Params] and no [Register] of a provider before a
    [Boot] of it, and no call of its factory before a [Register] of it;
    [booted] and [registered] are the providers booted and registered
    before [t]. *)
Fixpoint in_order (booted registered : list P) (t : list Event) : Prop :=
  match t with
  | [] => True
  | Booted sp :: t => in_order (sp :: booted) registered t
  | AskedParams sp :: t => sp ∈ booted /\ in_order booted registered t
  | Registered sp :: t => sp ∈ booted /\ in_order booted (sp :: registered) t
  | Invoked sp _ :: t => sp ∈ registered /\ in_order booted registered t
  end.

(** From [s] to [s'] the log grew by invocations in order. *)
Definition follows (booted registered : list P) (s s' : State) : Prop :=
  exists t, trace s' = trace s ++ t /\ in_order booted registered t.

Definition orderly {A} (m : M State A) : Prop :=
  forall s, after m s (fun _ s' => follows [] [] s s') (fun _ s' => follows [] [] s s').

Record disciplined (c : Container) : Prop := mkDisciplined {
  disciplined_Bind : forall provider, orderly (call_Bind c provider);
  disciplined_IsBind : forall key, orderly (call_IsBind c key);
  disciplined_Make : forall key, orderly (call_Make c key);
  disciplined_MustMake : forall key, orderly (call_MustMake c key);
  disciplined_MakeNew : forall key params, orderly (call_MakeNew c key params)
}.

(** Two outcomes are alike when they are the same but for the message of a
    panic. *)
Definition alike {A} (o o' : Outcome State A) : Prop :=
  match o, o' with
  | Returned a s, Returned a' s' => a = a' /\ s = s'
  | Panicked _ s, Panicked _ s' => s = s'
  | Deadlock, Deadlock => True
  | OutOfFuel, OutOfFuel => True
  | _, _ => False
  end.

(** A read lock is held. *)
Definition held (s : State) : Prop := 0 < readers (lock (container s)).

(** The receivers [co] and [c] do alike while a read lock is held. *)
Record twins (co c : Container) : Prop := mkTwins {
  twins_Bind : forall provider s, held s ->
    alike (call_Bind co provider s) (call_Bind c provider s);
  twins_IsBind : forall key s, held s ->
    alike (call_IsBind co key s) (call_IsBind c key s);
  twins_Make : forall key s, held s ->
    alike (call_Make co key s) (call_Make c key s);
  twins_MustMake : forall key s, held s ->
    alike (call_MustMake co key s) (call_MustMake c key s);
  twins_MakeNew : forall key params s, held s ->
    alike (call_MakeNew co key params s) (call_MakeNew c key params s)
}.

(** The receiver that turns down every [Bind] of a hook: a call made with
    it is the call made with [this n] up to the first [Bind] that a hook
    tries. *)
Fixpoint reading (n : nat) : Container :=
  match n with
  | 0 =>
      {| call_Bind := fun _ => refuse;
         call_IsBind := IsBind;
         call_Make := fun _ => refuse;
         call_MustMake := fun _ => refuse;
         call_MakeNew := fun _ _ => refuse |}
  | S n =>
      {| call_Bind := fun _ => refuse;
         call_IsBind := IsBind;
         call_Make := Make (reading n);
         call_MustMake := MustMake (reading n);
         call_MakeNew := MakeNew (reading n) |}
  end.

(** [o] is [o'], or the call was turned down before it got there. *)
Definition cut {A} (o o' : Outcome State A) : Prop := o = o' \/ o = OutOfFuel.

Record shortened (co c : Container) : Prop := mkShortened {
  shortened_Bind : forall provider s, cut (call_Bind co provider s) (call_Bind c provider s);
  shortened_IsBind : forall key s, cut (call_IsBind co key s) (call_IsBind c key s);
  shortened_Make : forall key s, cut (call_Make co key s) (call_Make c key s);
  shortened_MustMake : forall key s, cut (call_MustMake co key s) (call_MustMake c key s);
  shortened_MakeNew : forall key params s,
    cut (call_MakeNew co key params s) (call_MakeNew c key params s)
}.

(** [m] does not block on a lock that is not held for writing. *)
Definition unblocked {A} (m : M State A) : Prop :=
  forall s, writer (lock (container s)) = false -> m s <> Deadlock.

Record fluent (c : Container) : Prop := mkFluent {
  fluent_Bind : forall provider, unblocked (call_Bind c provider);
  fluent_IsBind : forall key, unblocked (call_IsBind c key);
  fluent_Make : forall key, unblocked (call_Make c key);
  fluent_MustMake : forall key, unblocked (call_MustMake c key);
  fluent_MakeNew : forall key params, unblocked (call_MakeNew c key params)
}.

(** The panic of a method call on the nil interface. *)
Definition nil_dereference : string :=
  "runtime error: invalid memory address or nil pointer dereference".

(** [Bind(nil)]: [provider.Name()] panics on the nil interface, after
    [Lock] and before [Unlock], which is not deferred. *)
Definition Bind_nil : M State (option error) :=
  lock_Lock ;;
  panic nil_dereference.

(** The state while [Bind] holds the write lock. *)
Definition wlocked (s : State) : State :=
  set_lock (fun _ => {| readers := 0; writer := true |}) s.

(** [mo], run under the write lock, does what [m] does without it as long
    as [m] returns, and blocks for ever where [m] is turned down. *)
Definition stalls {A} (mo m : M State A) : Prop :=
  forall s,
    mo (wlocked s) =
      match m s with
      | Returned a s' => Returned a (wlocked s')
      | _ => Deadlock
      end.

End container.

(** ** The older copy of the container *)

(** The repository holds an older copy of the file. Its [make],
    [newInstance], [findServiceProvider] and [IsBind] are those above; its
    [Bind] defers the [Unlock], so that the eager pipeline runs under the
    write lock, and its [MustMake] panics with the error of [make], of
    which [Panicked] keeps the message. *)
Module Older.

Section older.

Context {V W P : Type} `{EqDecision P} `{!@ServiceProvider V W P}.

Definition Bind (self : @Container V W P) (provider : P) : M (@State V W P) (option error) :=
  lock_Lock ;;
  defer lock_Unlock
    (let key := Name provider in
     modify (set_providers (fun m => <[key := provider]> m)) ;;
     if negb (IsDefer provider) then
       modify (log (Booted provider)) ;;
       let* err := run self (Boot provider) in
       match err with
       | Some e => ret (Some e)
       | None =>
           modify (log (AskedParams provider)) ;;
           let* params := run self (Params provider) in
           modify (log (Registered provider)) ;;
           let* method := run self (Register provider) in
           modify (log (Invoked provider params)) ;;
           let* '(instance, err) := run self (method params) in
           match err with
           | Some e => ret (Some (errors_New (Error e)))
           | None =>
               modify (set_instances (fun m => <[key := instance]> m)) ;;
               ret None
           end
       end
     else ret None).

(** [Bind(nil)] in the older copy: the [Unlock] is deferred. *)
Definition Bind_nil : M (@State V W P) (option error) :=
  lock_Lock ;;
  defer lock_Unlock (panic nil_dereference).

Definition MustMake (self : @Container V W P) (key : string) : M (@State V W P) (@iface V) :=
  let* '(serv, err) := make self key None false in
  match err with
  | Some e => panic (Error e)
  | None => ret serv
  end.

Fixpoint this (n : nat) : @Container V W P :=
  match n with
  | 0 =>
      {| call_Bind := fun _ _ => OutOfFuel;
         call_IsBind := IsBind;
         call_Make := fun _ _ => OutOfFuel;
         call_MustMake := fun _ _ => OutOfFuel;
         call_MakeNew := fun _ _ _ => OutOfFuel |}
  | S n =>
      {| call_Bind := Bind (this n);
         call_IsBind := IsBind;
         call_Make := Make (this n);
         call_MustMake := MustMake (this n);
         call_MakeNew := MakeNew (this n) |}
  end.

End older.

End Older.

Arguments Ret {V W P R} r.
Arguments GetWorld {V W P R} k.
Arguments PutWorld {V W P R} w k.
Arguments DoBind {V W P R} provider k.
Arguments DoIsBind {V W P R} key k.
Arguments DoMake {V W P R} key k.
Arguments DoMustMake {V W P R} key k.
Arguments DoMakeNew {V W P R} key params k.

(** ** Example providers *)

Module Demo.

(** Instances are object numbers; the world counts the objects made so
    far. *)
Inductive provider : Type := conn | conn' | logger | mailer | broken | faulty | app.

#[global] Instance provider_eq_dec : EqDecision provider.
Proof. solve_decision. Defined.

Definition hook (R : Type) : Type := @Prog nat nat provider R.

(** A factory that returns a new object at every call. *)
Definition fresh (base : nat) (args : @slice nat) : hook (@result nat) :=
  GetWorld (fun n => PutWorld (S n) (Ret (Some (base + n), None))).

(** [conn] and [conn'] share the key "conn"; [logger] and [mailer] are not
    deferred; [Boot] of [broken] fails and so do the factories of [faulty]
    and [mailer]; [app] resolves "conn" through the container and hands it
    to its factory. *)
#[global] Instance demo : @ServiceProvider nat nat provider := {|
  Name p :=
    match p with
    | conn | conn' => "conn"
    | logger => "logger"
    | mailer => "mailer"
    | broken => "broken"
    | faulty => "faulty"
    | app => "app"
    end;
  IsDefer p := match p with logger | mailer => false | _ => true end;
  Boot p :=
    match p with
    | broken => Ret (Some (foreign_error 1 "boot failed"))
    | _ => Ret None
    end;
  Params p :=
    match p with
    | app =>
        DoMake "conn"
          (fun r => Ret (Some (match fst r with Some v => [v] | None => [] end)))
    | _ => Ret (Some [7])
    end;
  Register p :=
    match p with
    | faulty => Ret (fun _ => Ret (None, Some (foreign_error 2 "boom")))
    | mailer => Ret (fun _ => Ret (None, Some (foreign_error 3 "smtp down")))
    | conn' => Ret (fresh 100)
    | _ => Ret (fresh 0)
    end
|}.

Definition start : @State nat nat provider := fresh_state 0.

(** The container after [Bind(p)] of a deferred provider [p]. *)
Definition bound (p : provider) : @State nat nat provider := installed p start.

(** The container after [Bind(conn)] and [Bind(app)]. *)
Definition paired : @State nat nat provider := installed app (installed conn start).

(** The container after [MakeNew("app", nil)] on [paired]: the [Params] hook
    of [app] resolved "conn" through the container, which is cached now. *)
Definition probed : @State nat nat provider :=
  cache "conn" (Some 0)
    (advance 2
       [Booted app; AskedParams app; Booted conn; AskedParams conn; Registered conn;
        Invoked conn (Some [7]); Registered app; Invoked app (Some [0])]
       paired).

(** The container after [Make("app")] on [paired]. *)
Definition wired : @State nat nat provider := cache "app" (Some 1) probed.

(** The container after [Bind(mailer)], whose eager instantiation fails. *)
Definition mailing : @State nat nat provider :=
  advance 0 [Booted mailer; AskedParams mailer; Registered mailer; Invoked mailer (Some [7])]
    (installed mailer start).

(** The container after [Bind(conn)] and a first [Make("conn")]. *)
Definition connected : @State nat nat provider :=
  cache "conn" (Some 0)
    (advance 1 [Booted conn; AskedParams conn; Registered conn; Invoked conn (Some [7])]
       (bound conn)).

End Demo.

(** ** Providers that use the container in [Boot] *)

Module Plugins.

Inductive provider : Type := store | loader | installer | probe.

#[global] Instance provider_eq_dec : EqDecision provider.
Proof. solve_decision. Defined.

Definition hook (R : Type) : Type := @Prog nat nat provider R.

(** [Boot] of [loader] and of [installer] binds [store]; [Boot] of [probe]
    asks whether "probe" is bound. [installer] and [probe] are not
    deferred. The factories return a new object at every call. *)
#[export] Instance plugins : @ServiceProvider nat nat provider := {|
  Name p :=
    match p with
    | store => "store"
    | loader => "loader"
    | installer => "installer"
    | probe => "probe"
    end;
  IsDefer p := match p with installer | probe => false | _ => true end;
  Boot p :=
    match p with
    | loader | installer => DoBind store (fun err => Ret err)
    | probe =>
        DoIsBind "probe"
          (fun b => Ret (if b then None else Some (foreign_error 4 "probe is not bound")))
    | store => Ret None
    end;
  Params p := Ret None;
  Register p := Ret (fun _ => GetWorld (fun n => PutWorld (S n) (Ret (Some n, None))))
|}.

Definition start : @State nat nat provider := fresh_state 0.

(** The container after [Bind(installer)]: [store] is bound as well. *)
Definition stocked : @State nat nat provider :=
  cache "installer" (Some 0)
    (advance 1 [AskedParams installer; Registered installer; Invoked installer None]
       (installed store (advance 0 [Booted installer] (installed installer start)))).

(** The container after [Bind(probe)]. *)
Definition probing : @State nat nat provider :=
  cache "probe" (Some 0)
    (advance 1 [Booted probe; AskedParams probe; Registered probe; Invoked probe None]
       (installed probe start)).

End Plugins.

(** ** Providers at the corners of the cache *)

Module Corner.

Inductive provider : Type := pool | selfish | greedy | cell | cell'.

#[global] Instance provider_eq_dec : EqDecision provider.
Proof. solve_decision. Defined.

Definition hook (R : Type) : Type := @Prog nat nat provider R.

(** The factory of [pool] hands out one shared object, 9. [Boot] of
    [selfish] resolves "selfish" itself, the first time it runs. The
    factory of [greedy] resolves "greedy" itself the first time it runs, and
    then fails; the second time it returns 42. [cell] and [cell'] share the
    key "cell"; [cell'] is not deferred, and its factory fails. The other
    factories return a new object at every call. *)
#[export] Instance corner : @ServiceProvider nat nat provider := {|
  Name p :=
    match p with
    | pool => "pool"
    | selfish => "selfish"
    | greedy => "greedy"
    | cell | cell' => "cell"
    end;
  IsDefer p := match p with cell' => false | _ => true end;
  Boot p :=
    match p with
    | selfish =>
        GetWorld (fun w =>
          match w with
          | 0 => PutWorld 1 (DoMake "selfish" (fun _ => Ret None))
          | _ => Ret None
          end)
    | _ => Ret None
    end;
  Params p := Ret None;
  Register p :=
    match p with
    | pool => Ret (fun _ => Ret (Some 9, None))
    | greedy =>
        Ret (fun _ =>
          GetWorld (fun w =>
            match w with
            | 0 =>
                PutWorld 1
                  (DoMake "greedy" (fun _ => Ret (None, Some (foreign_error 5 "gave up"))))
            | _ => Ret (Some 42, None)
            end))
    | cell' => Ret (fun _ => Ret (None, Some (foreign_error 6 "no cell")))
    | _ => Ret (fun _ => GetWorld (fun n => PutWorld (S n) (Ret (Some n, None))))
    end
|}.

Definition start : @State nat nat provider := fresh_state 0.

(** The container after [Bind(p)] of a deferred provider [p]. *)
Definition bound (p : provider) : @State nat nat provider := installed p start.

End Corner.

Section properties.

Context {V W P : Type} `{!@ServiceProvider V W P} `{!EqDecision P}.

#[local] Abbreviation State := (@State V W P).
#[local] Abbreviation Container := (@Container V W P).
#[local] Abbreviation Event := (@Event V P).
#[local] Abbreviation Prog := (@Prog V W P).
#[local] Abbreviation iface := (@iface V).
#[local] Abbreviation slice := (@slice V).
#[local] Abbreviation result := (@result V).
#[local] Abbreviation fresh_state := (@fresh_state V W P).

(** ** Reasoning about calls *)

Lemma after_ret {A} (a : A) (s : State) Q E : Q a s -> after (ret a) s Q E.
Proof. done. Qed.

Lemma after_bind {A B} (m : M State A) (f : A -> M State B) (s : State) Q E :
  after m s (fun a s' => after (f a) s' Q E) E -> after (bind m f) s Q E.
Proof. unfold after, bind. by destruct (m s). Qed.

Lemma after_modify (f : State -> State) (s : State) Q E :
  Q tt (f s) -> after (modify f) s Q E.
Proof. done. Qed.

Lemma after_panic {A} msg (s : State) (Q : A -> State -> Prop) E :
  E msg s -> after (panic msg) s Q E.
Proof. done. Qed.

Lemma after_mono {A} (m : M State A) (s : State) (Q Q' : A -> State -> Prop)
    (E E' : string -> State -> Prop) :
  after m s Q E ->
  (forall a s', Q a s' -> Q' a s') ->
  (forall msg s', E msg s' -> E' msg s') ->
  after m s Q' E'.
Proof. unfold after. destruct (m s); auto. Qed.

Lemma runlocked_rlocked (s : State) : runlocked (rlocked s) = s.
Proof. by destruct s as [[ps ins [r w]] wd t]. Qed.

#[local] Instance grows_refl : Reflexive (@grows V W P).
Proof. intros s. split; auto. Qed.

#[local] Instance grows_trans : Transitive (@grows V W P).
Proof.
  intros s1 s2 s3 [Hl Hp Hi Ht Hw] [Hl' Hp' Hi' Ht' Hw']. split; auto.
  - congruence.
  - by etrans.
Qed.

Lemma grows_set_world (w : W) (s : State) : grows s (set_world w s).
Proof. split; auto. Qed.

Lemma grows_log (ev : Event) (s : State) : grows s (log ev s).
Proof. split; auto. simpl. by apply prefix_app_r. Qed.

Lemma grows_rlocked_l (s s' : State) : grows (rlocked s) s' -> grows s (runlocked s').
Proof.
  intros [Hl Hp Hi Ht Hw]. split; auto.
  simpl in *. rewrite Hl. by destruct (lock (container s)).
Qed.

Lemma grows_cache (key : string) (ins : iface) (s : State) :
  is_Some (providers (container s) !! key) ->
  grows s (set_instances (fun m => <[key := ins]> m) s).
Proof.
  intros Hk. split; auto; simpl.
  - intros k Hi. destruct (decide (key = k)) as [->|Hne].
    + rewrite lookup_insert_eq. eauto.
    + by rewrite lookup_insert_ne.
  - intros Hw k. simpl. destruct (decide (key = k)) as [->|Hne].
    + done.
    + rewrite lookup_insert_ne by done. apply Hw.
Qed.

Lemma findServiceProvider_eq (key : string) (s : State) :
  writer (lock (container s)) = false ->
  findServiceProvider key s = Returned (providers (container s) !! key) s.
Proof.
  intros Hw. unfold findServiceProvider, bind, lock_RLock, defer, gets, lock_RUnlock, modify.
  rewrite Hw. f_equal. apply runlocked_rlocked.
Qed.

Lemma findServiceProvider_locked (key : string) (s : State) :
  writer (lock (container s)) = true -> findServiceProvider key s = Deadlock.
Proof.
  intros Hw. unfold findServiceProvider, bind, lock_RLock. by rewrite Hw.
Qed.

Lemma IsBind_eq (key : string) (s : State) :
  writer (lock (container s)) = false ->
  IsBind key s = Returned (bool_decide (is_Some (providers (container s) !! key))) s.
Proof.
  intros Hw. unfold IsBind, bind. rewrite findServiceProvider_eq by done.
  unfold ret. f_equal. destruct (providers (container s) !! key) eqn:E.
  - symmetry. apply bool_decide_eq_true. eauto.
  - symmetry. apply bool_decide_eq_false. by intros [? ?].
Qed.

Lemma run_growing (c : Container) {R} (m : Prog R) : sound c -> growing (run c m).
Proof.
  intros Hc. induction m as [r|k IH|w k IH|p k IH|key k IH|key k IH|key k IH|key ps k IH];
    intros s; simpl.
  - by apply after_ret.
  - exact (IH (world s) s).
  - eapply after_mono; [exact (IH (set_world w s))| |]; simpl; intros;
      (etrans; [apply grows_set_world|done]).
  - apply after_bind. eapply after_mono; [apply (sound_Bind _ Hc)| |]; [|done].
    intros r s' Hg. simpl in Hg.
    eapply after_mono; [apply IH| |]; intros; by etrans.
  - apply after_bind. eapply after_mono; [apply (sound_IsBind _ Hc)| |]; [|done].
    intros r s' Hg. simpl in Hg.
    eapply after_mono; [apply IH| |]; intros; by etrans.
  - apply after_bind. eapply after_mono; [apply (sound_Make _ Hc)| |]; [|done].
    intros r s' Hg. simpl in Hg.
    eapply after_mono; [apply IH| |]; intros; by etrans.
  - apply after_bind. eapply after_mono; [apply (sound_MustMake _ Hc)| |]; [|done].
    intros r s' Hg. simpl in Hg.
    eapply after_mono; [apply IH| |]; intros; by etrans.
  - apply after_bind. eapply after_mono; [apply (sound_MakeNew _ Hc)| |]; [|done].
    intros r s' Hg. simpl in Hg.
    eapply after_mono; [apply IH| |]; intros; by etrans.
Qed.

Lemma make_eq (self : Container) (key : string) (params : slice) (forceNew : bool) (s : State) :
  writer (lock (container s)) = false ->
  make self key params forceNew s =
    match providers (container s) !! key with
    | None => Returned (None, Some (errors_New ("contract " +:+ key +:+ " have not register"))) s
    | Some sp =>
        if forceNew then released (newInstance self sp params (rlocked s))
        else
          match instances (container s) !! key with
          | Some ins => Returned (ins, None) s
          | None => released (make_fresh self key sp (rlocked s))
          end
    end.
Proof.
  intros Hw. unfold make.
  unfold bind at 1. unfold lock_RLock. rewrite Hw. fold (rlocked s).
  unfold defer, bind at 1. rewrite findServiceProvider_eq by done.
  change (providers (container (rlocked s)) !! key) with (providers (container s) !! key).
  destruct (providers (container s) !! key) as [sp|].
  - destruct forceNew.
    + by destruct (newInstance self sp params (rlocked s)).
    + unfold bind at 1, gets.
      change (instances (container (rlocked s)) !! key) with (instances (container s) !! key).
      destruct (instances (container s) !! key) as [ins|].
      * unfold ret, lock_RUnlock, modify. fold (runlocked (rlocked s)).
        by rewrite runlocked_rlocked.
      * fold (make_fresh self key sp).
        by destruct (make_fresh self key sp (rlocked s)).
  - unfold ret, lock_RUnlock, modify. fold (runlocked (rlocked s)).
    by rewrite runlocked_rlocked.
Qed.

Lemma make_locked (self : Container) (key : string) (params : slice) (forceNew : bool) (s : State) :
  writer (lock (container s)) = true -> make self key params forceNew s = Deadlock.
Proof. intros Hw. unfold make, bind, lock_RLock. by rewrite Hw. Qed.

Lemma Bind_eq (self : Container) (provider : P) (s : State) :
  lock (container s) = unlocked ->
  Bind self provider s =
    if IsDefer provider then Returned None (installed provider s)
    else Bind_eager self provider (installed provider s).
Proof.
  intros Hl. unfold Bind.
  unfold bind at 1. unfold lock_Lock. rewrite Hl. simpl.
  unfold bind at 1. unfold modify at 1.
  unfold bind at 1. unfold lock_Unlock, modify at 1.
  assert (set_lock (fun l => {| readers := readers l; writer := false |})
            (set_providers (fun m => <[Name provider := provider]> m)
               (set_lock (fun _ => {| readers := 0; writer := true |}) s))
          = installed provider s) as ->.
  { unfold installed, set_lock, set_providers. simpl. by rewrite Hl. }
  by destruct (IsDefer provider).
Qed.

Lemma Bind_locked (self : Container) (provider : P) (s : State) :
  lock (container s) <> unlocked -> Bind self provider s = Deadlock.
Proof.
  intros Hl. unfold Bind, bind, lock_Lock.
  destruct (lock (container s)) as [[|r] [|]]; try done.
Qed.

Lemma grows_installed (provider : P) (s : State) : grows s (installed provider s).
Proof.
  split; auto; simpl.
  - intros k Hk. destruct (decide (Name provider = k)) as [->|Hne].
    + rewrite lookup_insert_eq. eauto.
    + by rewrite lookup_insert_ne.
  - intros Hw k Hk. simpl in *. destruct (decide (Name provider = k)) as [->|Hne].
    + rewrite lookup_insert_eq. eauto.
    + rewrite lookup_insert_ne by done. by apply Hw.
Qed.

(** Chaining a hook or a call that only grows the state. *)
Lemma after_growing {A} (m : M State A) (s0 s : State) (Q : A -> State -> Prop) E :
  growing m -> grows s0 s ->
  (forall a s', grows s0 s' -> Q a s') ->
  (forall msg s', grows s0 s' -> E msg s') ->
  after m s Q E.
Proof.
  intros Hm Hg HQ HE. eapply after_mono; [apply Hm| |]; simpl; intros.
  - apply HQ. by etrans.
  - apply HE. by etrans.
Qed.

(** Whatever the hooks do, an attempt starts by logging [Booted] and from
    there on only adds to the state. *)
Lemma newInstance_Booted (self : Container) (sp : P) (params : slice) (s : State) :
  sound self ->
  after (newInstance self sp params) s
    (fun _ s' => grows (log (Booted sp) s) s') (fun _ s' => grows (log (Booted sp) s) s').
Proof.
  intros Hc. unfold newInstance. set (s0 := log (Booted sp) s).
  apply after_bind, after_modify. fold s0.
  apply after_bind.
  apply (after_growing _ s0); [by apply run_growing|done| |done].
  intros [e|] s1 H1; [by apply after_ret|].
  apply after_bind.
  assert (after
    match params with
    | Some _ => ret params
    | None => modify (log (AskedParams sp));; run self (Params sp)
    end s1 (fun _ s' => grows s0 s') (fun _ s' => grows s0 s')) as Hps.
  { destruct params.
    - by apply after_ret.
    - apply after_bind, after_modify.
      apply (after_growing _ s0); [by apply run_growing| |done|done].
      etrans; [done|apply grows_log]. }
  eapply after_mono; [apply Hps| |done]. simpl. intros ps s2 H2.
  apply after_bind, after_modify.
  apply after_bind.
  apply (after_growing _ s0); [by apply run_growing| | |done].
  { etrans; [done|apply grows_log]. }
  intros method s3 H3.
  apply after_bind, after_modify.
  apply after_bind.
  apply (after_growing _ s0); [by apply run_growing| | |done].
  { etrans; [done|apply grows_log]. }
  intros [ins [e|]] s4 H4; by apply after_ret.
Qed.

Lemma newInstance_growing (self : Container) (sp : P) (params : slice) :
  sound self -> growing (newInstance self sp params).
Proof.
  intros Hc s. eapply after_mono; [by apply newInstance_Booted| |]; simpl; intros;
    (etrans; [apply grows_log|done]).
Qed.

Lemma after_released {A} (m : M State A) (s : State) (Q : A -> State -> Prop) E :
  after m (rlocked s) (fun a s' => Q a (runlocked s')) (fun msg s' => E msg (runlocked s')) ->
  match released (m (rlocked s)) with
  | Returned a s' => Q a s'
  | Panicked msg s' => E msg s'
  | Deadlock => True
  | OutOfFuel => True
  end.
Proof. unfold after. by destruct (m (rlocked s)). Qed.

Lemma rlocked_growing {A} (m : M State A) (s : State) :
  growing m ->
  after m (rlocked s) (fun _ s' => grows s (runlocked s')) (fun _ s' => grows s (runlocked s')).
Proof.
  intros Hm. eapply after_mono; [apply Hm| |]; simpl; intros; by apply grows_rlocked_l.
Qed.

Lemma make_fresh_growing (self : Container) (key : string) (sp : P) (s0 : State) :
  sound self ->
  is_Some (providers (container s0) !! key) ->
  forall s, grows s0 s ->
    after (make_fresh self key sp) s (fun _ s' => grows s s') (fun _ s' => grows s s').
Proof.
  intros Hc Hk s Hg. unfold make_fresh.
  apply after_bind.
  eapply after_mono; [by apply newInstance_growing| |done]. simpl.
  intros [inst [e|]] s1 H1; [by apply after_ret|].
  apply after_bind, after_modify, after_ret.
  etrans; [done|]. apply grows_cache.
  apply (grows_providers s0); [by etrans|done].
Qed.

Lemma make_growing (self : Container) (key : string) (params : slice) (forceNew : bool) :
  sound self -> growing (make self key params forceNew).
Proof.
  intros Hc s. unfold after.
  destruct (writer (lock (container s))) eqn:Hw; [by rewrite make_locked|].
  rewrite make_eq by done.
  destruct (providers (container s) !! key) as [sp|] eqn:Hsp; [|done].
  destruct forceNew.
  - apply (after_released (newInstance self sp params) s
             (fun _ s' => grows s s') (fun _ s' => grows s s')).
    by apply rlocked_growing, newInstance_growing.
  - destruct (instances (container s) !! key) as [ins|]; [done|].
    apply (after_released (make_fresh self key sp) s
             (fun _ s' => grows s s') (fun _ s' => grows s s')).
    eapply after_mono;
      [apply (make_fresh_growing self key sp (rlocked s) Hc); [simpl; rewrite Hsp; eauto|done]| |];
      simpl; intros; by apply grows_rlocked_l.
Qed.

Lemma MustMake_growing (self : Container) (key : string) :
  sound self -> growing (MustMake self key).
Proof.
  intros Hc s. unfold MustMake. apply after_bind.
  eapply after_mono; [by apply make_growing| |done]. simpl.
  intros [serv [e|]] s1 H1; [by apply after_panic|by apply after_ret].
Qed.

Lemma IsBind_growing (key : string) : growing (@IsBind V W P key).
Proof.
  intros s. unfold after.
  destruct (writer (lock (container s))) eqn:Hw.
  - unfold IsBind, bind. by rewrite findServiceProvider_locked.
  - by rewrite IsBind_eq.
Qed.

Lemma Bind_eager_growing (self : Container) (provider : P) (s0 : State) :
  sound self ->
  is_Some (providers (container s0) !! Name provider) ->
  forall s, grows s0 s ->
    after (Bind_eager self provider) s (fun _ s' => grows s s') (fun _ s' => grows s s').
Proof.
  intros Hc Hk s Hg. unfold Bind_eager.
  apply after_bind, after_modify.
  apply after_bind.
  apply (after_growing _ s); [by apply run_growing|apply grows_log| |done].
  intros [e|] s1 H1; [by apply after_ret|].
  apply after_bind, after_modify.
  apply after_bind.
  apply (after_growing _ s); [by apply run_growing| | |done].
  { etrans; [done|apply grows_log]. }
  intros ps s2 H2.
  apply after_bind, after_modify.
  apply after_bind.
  apply (after_growing _ s); [by apply run_growing| | |done].
  { etrans; [done|apply grows_log]. }
  intros method s3 H3.
  apply after_bind, after_modify.
  apply after_bind.
  apply (after_growing _ s); [by apply run_growing| | |done].
  { etrans; [done|apply grows_log]. }
  intros [ins [e|]] s4 H4; [by apply after_ret|].
  apply after_bind, after_modify, after_ret.
  etrans; [done|]. apply grows_cache.
  apply (grows_providers s0); [by etrans|done].
Qed.

Lemma Bind_growing (self : Container) (provider : P) :
  sound self -> growing (Bind self provider).
Proof.
  intros Hc s. unfold after.
  destruct (decide (lock (container s) = unlocked)) as [Hl|Hl];
    [|by rewrite Bind_locked].
  rewrite Bind_eq by done.
  destruct (IsDefer provider); [apply grows_installed|].
  eapply after_mono;
    [apply (Bind_eager_growing self provider (installed provider s) Hc); [|done]| |];
    simpl; intros; try (etrans; [apply grows_installed|done]).
  rewrite lookup_insert_eq. eauto.
Qed.

Lemma this_sound (n : nat) : sound (this n).
Proof.
  induction n as [|n IH]; split; simpl; intros; try done.
  - apply IsBind_growing.
  - by apply Bind_growing.
  - apply IsBind_growing.
  - by apply make_growing.
  - by apply MustMake_growing.
  - by apply make_growing.
Qed.

(** The eager path of [Bind] is [newInstance] without caller parameters,
    followed by the caching of the instance. *)
Lemma Bind_eager_newInstance (self : Container) (provider : P) (s : State) :
  Bind_eager self provider s =
    (let* '(instance, err) := newInstance self provider None in
     match err with
     | Some e => ret (Some e)
     | None =>
         modify (set_instances (fun m => <[Name provider := instance]> m)) ;;
         ret None
     end) s.
Proof.
  unfold Bind_eager, newInstance, bind, modify, ret.
  repeat case_match; simplify_eq; done.
Qed.

Lemma Make_cached (self : Container) (key : string) (sp : P) (ins : iface) (s : State) :
  writer (lock (container s)) = false ->
  providers (container s) !! key = Some sp ->
  instances (container s) !! key = Some ins ->
  Make self key s = Returned (ins, None) s.
Proof. intros Hw Hsp Hi. unfold Make. by rewrite make_eq, Hsp, Hi. Qed.

Lemma Make_unbound (self : Container) (key : string) (s : State) :
  writer (lock (container s)) = false ->
  providers (container s) !! key = None ->
  Make self key s =
    Returned (None, Some (errors_New ("contract " +:+ key +:+ " have not register"))) s.
Proof. intros Hw Hsp. unfold Make. by rewrite make_eq, Hsp. Qed.

Lemma Bind_deferred (self : Container) (provider : P) (s : State) :
  lock (container s) = unlocked ->
  IsDefer provider = true ->
  Bind self provider s = Returned None (installed provider s).
Proof. intros Hl Hd. by rewrite Bind_eq, Hd. Qed.

Lemma idle_writer (s : State) : idle s -> writer (lock (container s)) = false.
Proof. unfold idle. by intros ->. Qed.

Lemma grows_idle (s s' : State) : grows s s' -> idle s -> idle s'.
Proof. unfold idle. intros Hg Hi. by rewrite (grows_lock _ _ Hg). Qed.

Lemma MustMake_make (self : Container) (key : string) (s : State) :
  MustMake self key s =
    match make self key None false s with
    | Returned (serv, Some _) s' => Panicked ("container not contain key " +:+ key) s'
    | Returned (serv, None) s' => Returned serv s'
    | Panicked msg s' => Panicked msg s'
    | Deadlock => Deadlock
    | OutOfFuel => OutOfFuel
    end.
Proof.
  unfold MustMake, bind.
  destruct (make self key None false s) as [[serv [e|]] s'|msg s'| |]; done.
Qed.

Lemma count_app (f : Event -> bool) (t t' : list Event) :
  count f (t ++ t') = count f t + count f t'.
Proof. induction t as [|ev t IH]; simpl; [done|]. rewrite IH. lia. Qed.

Lemma perform_grows (n : nat) (c : Call) (s s' : State) :
  perform n c s = Some s' -> grows s s'.
Proof.
  assert (forall A (m : M State A), growing m -> state_after (m s) = Some s' -> grows s s')
    as Hgen.
  { intros A m Hm Hs. specialize (Hm s). unfold after in Hm.
    destruct (m s); simpl in Hs; by simplify_eq. }
  destruct c; simpl; apply Hgen.
  - apply Bind_growing, this_sound.
  - apply IsBind_growing.
  - apply make_growing, this_sound.
  - apply MustMake_growing, this_sound.
  - apply make_growing, this_sound.
Qed.

Lemma reachable_wf_idle (s : State) : reachable s -> wf s /\ idle s.
Proof.
  induction 1 as [w|n c s s' Hr [Hw Hi] Hp].
  - split; [|done]. intros k [x Hx]. simpl in Hx. by rewrite lookup_empty in Hx.
  - pose proof (perform_grows n c s s' Hp) as Hg. split.
    + by apply (grows_wf _ _ Hg).
    + by apply (grows_idle s).
Qed.

Lemma Make_success (n : nat) (key : string) (s s1 : State) (ins : iface) :
  idle s ->
  Make (this n) key s = Returned (ins, None) s1 ->
  grows s s1 /\ instances (container s1) !! key = Some ins.
Proof.
  intros Hi Hm. split.
  { pose proof (make_growing (this n) key None false (this_sound n) s) as Hg.
    unfold after in Hg. unfold Make in Hm. by rewrite Hm in Hg. }
  unfold Make in Hm. rewrite make_eq in Hm by by apply idle_writer.
  destruct (providers (container s) !! key) as [sp|]; [|done].
  destruct (instances (container s) !! key) as [i|] eqn:Hc; [by simplify_eq|].
  unfold make_fresh, bind in Hm.
  destruct (newInstance (this n) sp None (rlocked s)) as [[inst [e|]] s2|msg s2| |];
    simpl in Hm; try done.
  injection Hm as <- <-. simpl. by rewrite lookup_insert_eq.
Qed.

(** ** Calls that leave a key alone *)

Lemma own_app (key : string) (t t' : list Event) :
  own key (t ++ t') = own key t ++ own key t'.
Proof.
  induction t as [|ev t IH]; simpl; [done|]. rewrite IH. by case_bool_decide.
Qed.

Lemma moved_refl (key : string) (s : State) : moved key [] s s.
Proof. split; auto. exists []. by rewrite app_nil_r. Qed.

Lemma moved_trans (key : string) (evs evs' : list Event) (s1 s2 s3 : State) :
  moved key evs s1 s2 -> moved key evs' s2 s3 -> moved key (evs ++ evs') s1 s3.
Proof.
  intros [Hl Hp Hi (t & Ht & Ho) Hn] [Hl' Hp' Hi' (t' & Ht' & Ho') Hn']. split; auto.
  - congruence.
  - congruence.
  - congruence.
  - exists (t ++ t'). split.
    + by rewrite Ht', Ht, app_assoc.
    + by rewrite own_app, Ho, Ho'.
Qed.

Lemma moved_quiet_l (key : string) (evs : list Event) (s1 s2 s3 : State) :
  moved key [] s1 s2 -> moved key evs s2 s3 -> moved key evs s1 s3.
Proof. intros H1 H2. apply (moved_trans key [] evs s1 s2 s3 H1 H2). Qed.

Lemma moved_quiet_r (key : string) (evs : list Event) (s1 s2 s3 : State) :
  moved key evs s1 s2 -> moved key [] s2 s3 -> moved key evs s1 s3.
Proof.
  intros H1 H2. rewrite <-(app_nil_r evs). apply (moved_trans key evs [] s1 s2 s3 H1 H2).
Qed.

Lemma moved_set_world (key : string) (w : W) (s : State) : moved key [] s (set_world w s).
Proof. split; auto. exists []. by rewrite app_nil_r. Qed.

Lemma moved_log (key : string) (ev : Event) (s : State) :
  moved key (own key [ev]) s (log ev s).
Proof. split; auto. by exists [ev]. Qed.

Lemma moved_log_off (key : string) (ev : Event) (s : State) :
  Name (provider_of ev) <> key -> moved key [] s (log ev s).
Proof.
  intros Hne. pose proof (moved_log key ev s) as Hm. simpl in Hm.
  by rewrite bool_decide_eq_false_2 in Hm.
Qed.

Lemma moved_log_on (key : string) (ev : Event) (s : State) :
  Name (provider_of ev) = key -> moved key [ev] s (log ev s).
Proof.
  intros He. pose proof (moved_log key ev s) as Hm. simpl in Hm.
  by rewrite bool_decide_eq_true_2 in Hm.
Qed.

Lemma moved_cache_off (key k : string) (ins : iface) (s : State) :
  k <> key -> moved key [] s (cache k ins s).
Proof.
  intros Hne. split; auto.
  - simpl. by rewrite lookup_insert_ne.
  - exists []. by rewrite app_nil_r.
Qed.

Lemma named_installed (provider : P) (s : State) : named s -> named (installed provider s).
Proof. intros Hn. unfold named. simpl. by apply map_Forall_insert_2. Qed.

Lemma moved_installed_off (key : string) (provider : P) (s : State) :
  Name provider <> key -> moved key [] s (installed provider s).
Proof.
  intros Hne. split; auto.
  - simpl. by rewrite lookup_insert_ne.
  - exists []. by rewrite app_nil_r.
  - apply named_installed.
Qed.

Lemma moved_rlocked_l (key : string) (evs : list Event) (s s' : State) :
  moved key evs (rlocked s) s' -> moved key evs s (runlocked s').
Proof.
  intros [Hl Hp Hi Ht Hn]. split; auto.
  simpl in *. rewrite Hl. by destruct (lock (container s)).
Qed.

Lemma bind_Returned {A B} (m : M State A) (f : A -> M State B) (s s' : State) (b : B) :
  bind m f s = Returned b s' ->
  exists a s1, m s = Returned a s1 /\ f a s1 = Returned b s'.
Proof. unfold bind. destruct (m s) as [a s1| | |]; [eauto|done..]. Qed.

Lemma sim_ret (key : string) {A} (a : A) : sim key (ret a) (ret (St:=State) a).
Proof. intros s a' s' [= <- <-] Hn. split; [done|apply moved_refl]. Qed.

Lemma sim_bind (key : string) {A B} (mg m : M State A) (fg f : A -> M State B) :
  sim key mg m -> (forall a, sim key (fg a) (f a)) -> sim key (bind mg fg) (bind m f).
Proof.
  intros Hm Hf s b s' (a & s1 & H1 & H2)%bind_Returned Hn.
  destruct (Hm _ _ _ H1 Hn) as [H1' M1].
  destruct (Hf a _ _ _ H2 (moved_named _ _ _ _ M1 Hn)) as [H2' M2].
  split.
  - unfold bind. by rewrite H1'.
  - by apply (moved_quiet_l key [] s s1 s').
Qed.

Lemma sim_modify (key : string) (f : State -> State) :
  (forall s, moved key [] s (f s)) -> sim key (modify f) (modify f).
Proof. intros Hf s a s' [= <- <-] Hn. split; [done|apply Hf]. Qed.

Lemma sim_run (key : string) (cg c : Container) {R} (m : Prog R) :
  tame key cg c -> sim key (run cg m) (run c m).
Proof.
  intros Hc. induction m as [r|k IH|w k IH|p k IH|k0 k IH|k0 k IH|k0 k IH|k0 ps k IH]; simpl.
  - apply sim_ret.
  - intros s a s' Hr Hn. by apply (IH (world s)).
  - intros s a s' Hr Hn.
    destruct (IH (set_world w s) a s' Hr Hn) as [Hr' Hm]. split; [done|].
    apply (moved_quiet_l key [] s (set_world w s) s'); [apply moved_set_world|done].
  - apply sim_bind; [apply (tame_Bind _ _ _ Hc)|done].
  - apply sim_bind; [apply (tame_IsBind _ _ _ Hc)|done].
  - apply sim_bind; [apply (tame_Make _ _ _ Hc)|done].
  - apply sim_bind; [apply (tame_MustMake _ _ _ Hc)|done].
  - apply sim_bind; [apply (tame_MakeNew _ _ _ Hc)|done].
Qed.

Lemma sim_newInstance (key : string) (cg c : Container) (sp : P) (params : slice) :
  tame key cg c -> Name sp <> key ->
  sim key (newInstance cg sp params) (newInstance c sp params).
Proof.
  intros Hc Hne. unfold newInstance.
  apply sim_bind; [apply sim_modify; intros; by apply moved_log_off|]. intros _.
  apply sim_bind; [by apply sim_run|]. intros [e|]; [apply sim_ret|].
  apply sim_bind.
  { destruct params; [apply sim_ret|].
    apply sim_bind; [apply sim_modify; intros; by apply moved_log_off|]. intros _.
    by apply sim_run. }
  intros ps.
  apply sim_bind; [apply sim_modify; intros; by apply moved_log_off|]. intros _.
  apply sim_bind; [by apply sim_run|]. intros method.
  apply sim_bind; [apply sim_modify; intros; by apply moved_log_off|]. intros _.
  apply sim_bind; [by apply sim_run|]. intros [ins [e|]]; apply sim_ret.
Qed.

Lemma released_Returned {A} (o : Outcome State A) (a : A) (s' : State) :
  released o = Returned a s' -> exists s1, o = Returned a s1 /\ s' = runlocked s1.
Proof. destruct o; simpl; intros; simplify_eq; eauto. Qed.

Lemma sim_make_fresh (key k : string) (cg c : Container) (sp : P) :
  tame key cg c -> Name sp <> key -> k <> key ->
  sim key (make_fresh cg k sp) (make_fresh c k sp).
Proof.
  intros Hc Hne Hk. unfold make_fresh.
  apply sim_bind; [by apply sim_newInstance|]. intros [inst [e|]]; [apply sim_ret|].
  apply sim_bind; [|intros; apply sim_ret].
  apply sim_modify. intros s. by apply moved_cache_off.
Qed.

Lemma named_lookup (s : State) (k : string) (sp : P) :
  named s -> providers (container s) !! k = Some sp -> Name sp = k.
Proof. intros Hn Hsp. by apply (map_Forall_lookup_1 _ _ _ _ Hn Hsp). Qed.

Lemma sim_make (key k : string) (cg c : Container) (params : slice) (forceNew : bool) :
  tame key cg c -> k <> key ->
  sim key (make cg k params forceNew) (make c k params forceNew).
Proof.
  intros Hc Hk s a s' Hg Hn.
  destruct (writer (lock (container s))) eqn:Hw; [by rewrite make_locked in Hg|].
  rewrite make_eq in Hg |- * by done.
  destruct (providers (container s) !! k) as [sp|] eqn:Hsp.
  - assert (Name sp <> key) as Hne by by rewrite (named_lookup s k sp).
    destruct forceNew.
    + apply released_Returned in Hg as (s1 & Hg & ->).
      destruct (sim_newInstance key cg c sp params Hc Hne _ _ _ Hg Hn) as [-> Hm].
      split; [done|by apply moved_rlocked_l].
    + destruct (instances (container s) !! k) as [ins|].
      * injection Hg as <- <-. split; [done|apply moved_refl].
      * apply released_Returned in Hg as (s1 & Hg & ->).
        destruct (sim_make_fresh key k cg c sp Hc Hne Hk _ _ _ Hg Hn) as [-> Hm].
        split; [done|by apply moved_rlocked_l].
  - injection Hg as <- <-. split; [done|apply moved_refl].
Qed.

Lemma sim_MustMake (key k : string) (cg c : Container) :
  tame key cg c -> k <> key -> sim key (MustMake cg k) (MustMake c k).
Proof.
  intros Hc Hk. unfold MustMake.
  apply sim_bind; [by apply sim_make|]. intros [serv [e|]]; [|apply sim_ret].
  by intros s a s' Hp.
Qed.

Lemma sim_IsBind (key k : string) : sim key (@IsBind V W P k) (IsBind k).
Proof.
  intros s a s' Hg Hn. split; [done|].
  destruct (writer (lock (container s))) eqn:Hw.
  - unfold IsBind, bind in Hg. by rewrite findServiceProvider_locked in Hg.
  - rewrite IsBind_eq in Hg by done. injection Hg as _ <-. apply moved_refl.
Qed.

Lemma sim_Bind (key : string) (cg c : Container) (provider : P) :
  tame key cg c -> Name provider <> key -> sim key (Bind cg provider) (Bind c provider).
Proof.
  intros Hc Hne s a s' Hg Hn.
  destruct (decide (lock (container s) = unlocked)) as [Hl|Hl];
    [|by rewrite Bind_locked in Hg].
  rewrite Bind_eq in Hg |- * by done.
  destruct (IsDefer provider).
  { injection Hg as <- <-. split; [done|by apply moved_installed_off]. }
  rewrite Bind_eager_newInstance in Hg |- *.
  set (k := fun x : result =>
         let '(instance, err) := x in
         match err with
         | Some e => ret (Some e)
         | None =>
             modify (set_instances (fun m => <[Name provider := instance]> m)) ;;
             ret (St:=State) (None : option error)
         end) in *.
  assert (sim key (bind (newInstance cg provider None) k)
                  (bind (newInstance c provider None) k)) as Hs.
  { apply sim_bind; [by apply sim_newInstance|]. intros [inst [e|]]; [apply sim_ret|].
    apply sim_bind; [|intros; apply sim_ret].
    apply sim_modify. intros s0. by apply (moved_cache_off key (Name provider)). }
  destruct (Hs _ _ _ Hg (named_installed provider s Hn)) as [Hr Hm].
  split; [done|].
  apply (moved_quiet_l key [] s (installed provider s) s'); [|done].
  by apply moved_installed_off.
Qed.

Lemma guarded_tame (key : string) (n : nat) : tame key (guarded key n) (this n).
Proof.
  induction n as [|n IH]; split; simpl; intros; try (by intros s a s' Hg);
    try apply sim_IsBind.
  - destruct (decide (Name provider = key)); [by intros s a s' Hg|by apply sim_Bind].
  - destruct (decide (k = key)); [by intros s a s' Hg|by apply sim_make].
  - destruct (decide (k = key)); [by intros s a s' Hg|by apply sim_MustMake].
  - destruct (decide (k = key)); [by intros s a s' Hg|by apply sim_make].
Qed.

(** ** Attempts *)

Lemma bind_modify_Returned {B} (f : State -> State) (k : unit -> M State B)
    (s s' : State) (b : B) :
  bind (modify f) k s = Returned b s' -> k tt (f s) = Returned b s'.
Proof. done. Qed.

(** What [newInstance] does, read off its definition. *)
Lemma newInstance_inv (c : Container) (sp : P) (params : slice) (s s' : State) (r : result) :
  newInstance c sp params s = Returned r s' ->
  exists evs, attempt_of c sp s params r evs s'.
Proof.
  unfold newInstance. intros Hn%bind_modify_Returned.
  apply bind_Returned in Hn as ([e|] & s1 & Hboot & Hn).
  { injection Hn as <- <-. eexists. by apply attempt_Boot_fails. }
  apply bind_Returned in Hn as (ps & s2 & Hps & Hn).
  apply bind_modify_Returned in Hn.
  apply bind_Returned in Hn as (method & s3 & Hreg & Hn).
  apply bind_modify_Returned in Hn.
  apply bind_Returned in Hn as ([ins err] & s4 & Hm & Hn).
  assert (r = outcome ins err /\ s' = s4) as [-> ->].
  { destruct err; by injection Hn as <- <-. }
  destruct params as [l|].
  - injection Hps as <- <-. eexists. by eapply attempt_given.
  - apply bind_modify_Returned in Hps.
    eexists. by eapply attempt_default.
Qed.

Lemma attempt_of_newInstance (c : Container) (sp : P) (params : slice) (s s' : State)
    (r : result) (evs : list Event) :
  attempt_of c sp s params r evs s' -> newInstance c sp params s = Returned r s'.
Proof.
  unfold newInstance. destruct 1 as [params e s1 Hb|l s1 s2 s3 method ins err Hb Hr Hm
                                    |ps s1 s2 s3 s4 method ins err Hb Hp Hr Hm];
    unfold bind at 1, modify at 1; unfold bind at 1; rewrite Hb; [done| |].
  - unfold bind at 1, ret at 1. unfold bind at 1, modify at 1. unfold bind at 1.
    rewrite Hr. unfold bind at 1, modify at 1. unfold bind at 1. rewrite Hm.
    by destruct err.
  - unfold bind at 1. unfold bind at 1, modify at 1. rewrite Hp.
    unfold bind at 1, modify at 1. unfold bind at 1.
    rewrite Hr. unfold bind at 1, modify at 1. unfold bind at 1. rewrite Hm.
    by destruct err.
Qed.

(** An attempt that ends in an error carries no instance. *)
Lemma attempt_of_error (c : Container) (sp : P) (params : slice) (s s' : State)
    (ins : iface) (e : error) (evs : list Event) :
  attempt_of c sp s params (ins, Some e) evs s' -> ins = None.
Proof.
  intros Ha. remember (ins, Some e) as r eqn:Hr.
  destruct Ha as [params e0 s1 Hb|l s1 s2 s3 method ins0 err Hb Hreg Hm
                 |ps s1 s2 s3 s4 method ins0 err Hb Hp Hreg Hm];
    [by simplify_eq|destruct err; simpl in Hr; by simplify_eq..].
Qed.

(** Under the guard the attempt for [key] is the same attempt with the real
    receiver, and the hooks of providers named [key] that ran are those the
    attempt itself invoked. *)
Lemma attempt_of_guarded (key : string) (cg c : Container) (sp : P) (params : slice)
    (s s' : State) (r : result) (evs : list Event) :
  tame key cg c -> Name sp = key -> named s ->
  attempt_of cg sp s params r evs s' ->
  attempt_of c sp s params r evs s' /\ moved key evs s s'.
Proof.
  intros Hc Hk Hn.
  assert (forall (ev : Event) (s0 : State), provider_of ev = sp ->
            moved key [ev] s0 (log ev s0)) as Hlog.
  { intros ev s0 Hev. apply moved_log_on. by rewrite Hev. }
  assert (forall R (m : Prog R) (ev : Event) (s0 s1 : State) (x : R),
            provider_of ev = sp -> named s0 ->
            run cg m (log ev s0) = Returned x s1 ->
            run c m (log ev s0) = Returned x s1 /\ moved key [ev] s0 s1) as Hstep.
  { intros R m ev s0 s1 x Hev Hn0 Hr.
    destruct (sim_run key cg c m Hc _ _ _ Hr Hn0) as [Hr' Hm]. split; [done|].
    apply (moved_quiet_r key [ev] s0 (log ev s0) s1); [by apply Hlog|done]. }
  destruct 1 as [params e s1 Hb|l s1 s2 s3 method ins err Hb Hr Hm
                |ps s1 s2 s3 s4 method ins err Hb Hp Hr Hm].
  - destruct (Hstep _ _ (Booted sp) s s1 _ eq_refl Hn Hb) as [Hb' M1].
    split; [by apply attempt_Boot_fails|done].
  - destruct (Hstep _ _ (Booted sp) s s1 _ eq_refl Hn Hb) as [Hb' M1].
    pose proof (moved_named _ _ _ _ M1 Hn) as Hn1.
    destruct (Hstep _ _ (Registered sp) s1 s2 _ eq_refl Hn1 Hr) as [Hr' M2].
    pose proof (moved_named _ _ _ _ M2 Hn1) as Hn2.
    destruct (Hstep _ _ (Invoked sp (Some l)) s2 s3 _ eq_refl Hn2 Hm) as [Hm' M3].
    split; [by eapply attempt_given|].
    apply (moved_trans key [Booted sp] [Registered sp; Invoked sp (Some l)] s s1 s3 M1).
    apply (moved_trans key [Registered sp] [Invoked sp (Some l)] s1 s2 s3 M2 M3).
  - destruct (Hstep _ _ (Booted sp) s s1 _ eq_refl Hn Hb) as [Hb' M1].
    pose proof (moved_named _ _ _ _ M1 Hn) as Hn1.
    destruct (Hstep _ _ (AskedParams sp) s1 s2 _ eq_refl Hn1 Hp) as [Hp' M2].
    pose proof (moved_named _ _ _ _ M2 Hn1) as Hn2.
    destruct (Hstep _ _ (Registered sp) s2 s3 _ eq_refl Hn2 Hr) as [Hr' M3].
    pose proof (moved_named _ _ _ _ M3 Hn2) as Hn3.
    destruct (Hstep _ _ (Invoked sp ps) s3 s4 _ eq_refl Hn3 Hm) as [Hm' M4].
    split; [by eapply attempt_default|].
    apply (moved_trans key [Booted sp] [AskedParams sp; Registered sp; Invoked sp ps]
             s s1 s4 M1).
    apply (moved_trans key [AskedParams sp] [Registered sp; Invoked sp ps] s1 s2 s4 M2).
    apply (moved_trans key [Registered sp] [Invoked sp ps] s2 s3 s4 M3 M4).
Qed.

Lemma count_own (key : string) (f : Event -> bool) (t : list Event) :
  (forall ev, f ev = true -> Name (provider_of ev) = key) ->
  count f (own key t) = count f t.
Proof.
  intros Hf. induction t as [|ev t IH]; simpl; [done|].
  case_bool_decide as Hk; simpl; rewrite IH; [done|].
  destruct (f ev) eqn:Hev; [|done]. by apply Hf in Hev.
Qed.

Lemma boots_own (sp : P) (t : list Event) : boots sp (own (Name sp) t) = boots sp t.
Proof.
  apply count_own. intros [sp'| | |]; simpl; try done.
  by intros ->%bool_decide_eq_true.
Qed.

Lemma factory_runs_own (sp : P) (t : list Event) :
  factory_runs sp (own (Name sp) t) = factory_runs sp t.
Proof.
  apply count_own. intros [| | |sp' args]; simpl; try done.
  by intros ->%bool_decide_eq_true.
Qed.

(** An attempt runs [Boot] once and the factory at most once: once when it
    returns an instance, and not at all when [Boot] fails. *)
Lemma attempt_of_counts (c : Container) (sp : P) (params : slice) (s s' : State)
    (r : result) (evs : list Event) :
  attempt_of c sp s params r evs s' ->
  boots sp evs = 1 /\ factory_runs sp evs <= 1 /\ (snd r = None -> factory_runs sp evs = 1).
Proof.
  destruct 1; unfold boots, factory_runs; simpl; rewrite ?bool_decide_eq_true_2 by done;
    repeat split; (done || lia).
Qed.

(** The count of the hooks of [sp] after a call that moved [evs] of them. *)
Lemma moved_counts (sp : P) (evs : list Event) (s s' : State) :
  moved (Name sp) evs s s' ->
  boots sp (trace s') = boots sp (trace s) + boots sp evs /\
  factory_runs sp (trace s') = factory_runs sp (trace s) + factory_runs sp evs.
Proof.
  intros [_ _ _ (t & -> & <-) _]. unfold boots, factory_runs. rewrite !count_app.
  fold (boots sp t) (boots sp (own (Name sp) t)).
  fold (factory_runs sp t) (factory_runs sp (own (Name sp) t)).
  by rewrite boots_own, factory_runs_own.
Qed.

(** ** The calls for a key, when no hook resolves or binds the key itself *)

Lemma MakeNew_guarded (n : nat) (key : string) (sp : P) (params : slice) (s s' : State)
    (r : result) :
  writer (lock (container s)) = false -> named s ->
  providers (container s) !! key = Some sp ->
  MakeNew (guarded key n) key params s = Returned r s' ->
  MakeNew (this n) key params s = Returned r s' /\
  exists evs s1,
    attempt_of (this n) sp (rlocked s) params r evs s1 /\
    s' = runlocked s1 /\ moved key evs s s'.
Proof.
  intros Hw Hn Hsp. unfold MakeNew. rewrite !make_eq, Hsp by done.
  intros (s1 & (evs & Ha)%newInstance_inv & ->)%released_Returned.
  destruct (attempt_of_guarded key _ (this n) sp params (rlocked s) s1 r evs
              (guarded_tame key n) (named_lookup s key sp Hn Hsp) Hn Ha) as [Ha' Hm].
  rewrite (attempt_of_newInstance _ _ _ _ _ _ _ Ha'). split; [done|].
  exists evs, s1. split; [done|]. split; [done|]. by apply moved_rlocked_l.
Qed.

Lemma Make_guarded (n : nat) (key : string) (sp : P) (s s' : State) (r : result) :
  writer (lock (container s)) = false -> named s ->
  providers (container s) !! key = Some sp ->
  instances (container s) !! key = None ->
  Make (guarded key n) key s = Returned r s' ->
  Make (this n) key s = Returned r s' /\
  exists evs s1,
    attempt_of (this n) sp (rlocked s) None r evs s1 /\
    moved key evs s (runlocked s1) /\
    s' = match snd r with
         | Some _ => runlocked s1
         | None => cache key (fst r) (runlocked s1)
         end.
Proof.
  intros Hw Hn Hsp Hc. unfold Make. rewrite !make_eq, Hsp, Hc by done.
  intros (s2 & Hf & ->)%released_Returned.
  unfold make_fresh in Hf |- *.
  apply bind_Returned in Hf as ([inst err] & s1 & (evs & Ha)%newInstance_inv & Hf).
  destruct (attempt_of_guarded key _ (this n) sp None (rlocked s) s1 (inst, err) evs
              (guarded_tame key n) (named_lookup s key sp Hn Hsp) Hn Ha) as [Ha' Hm].
  unfold bind at 1. rewrite (attempt_of_newInstance _ _ _ _ _ _ _ Ha').
  destruct err as [e|].
  - pose proof (attempt_of_error _ _ _ _ _ _ _ _ Ha') as ->. injection Hf as <- <-.
    split; [done|]. exists evs, s1. split; [done|]. split; [by apply moved_rlocked_l|done].
  - injection Hf as <- <-. split; [done|].
    exists evs, s1. split; [done|]. split; [by apply moved_rlocked_l|done].
Qed.

Lemma Bind_guarded (n : nat) (sp : P) (s s' : State) (r : option error) :
  idle s -> named s -> IsDefer sp = false ->
  Bind (guarded (Name sp) n) sp s = Returned r s' ->
  Bind (this n) sp s = Returned r s' /\
  exists ins evs s1,
    attempt_of (this n) sp (installed sp s) None (ins, r) evs s1 /\
    moved (Name sp) evs (installed sp s) s1 /\
    s' = match r with
         | Some _ => s1
         | None => cache (Name sp) ins s1
         end.
Proof.
  intros Hi Hn Hd. rewrite !Bind_eq, Hd, !Bind_eager_newInstance by done.
  intros ([inst err] & s1 & (evs & Ha)%newInstance_inv & Hf)%bind_Returned.
  destruct (attempt_of_guarded (Name sp) _ (this n) sp None (installed sp s) s1 (inst, err) evs
              (guarded_tame (Name sp) n) eq_refl (named_installed sp s Hn) Ha) as [Ha' Hm].
  unfold bind at 1. rewrite (attempt_of_newInstance _ _ _ _ _ _ _ Ha').
  destruct err as [e|]; injection Hf as <- <-; (split; [done|]); by exists inst, evs, s1.
Qed.

Lemma attempt_of_raised (c : Container) (sp : P) (params : slice) (s s' : State)
    (ins : iface) (e : error) (evs : list Event) :
  attempt_of c sp s params (ins, Some e) evs s' -> raised c sp e.
Proof.
  intros Ha. remember (ins, Some e) as r eqn:Hr.
  destruct Ha as [params e0 s1 Hb|l s1 s2 s3 method ins0 err Hb Hreg Hm
                 |ps s1 s2 s3 s4 method ins0 err Hb Hp Hreg Hm].
  - left. simplify_eq. eauto.
  - right. destruct err as [e'|]; simpl in Hr; simplify_eq.
    exists method, (Some l), ins0, e'. eauto 10.
  - right. destruct err as [e'|]; simpl in Hr; simplify_eq.
    exists method, ps, ins0, e'. eauto 10.
Qed.

Lemma moved_idle (key : string) (evs : list Event) (s s' : State) :
  moved key evs s s' -> idle s -> idle s'.
Proof. unfold idle. intros Hm Hi. by rewrite (moved_lock _ _ _ _ Hm). Qed.

Lemma Make_again (m : nat) (key : string) (sp : P) (s : State) :
  writer (lock (container s)) = false -> named s ->
  providers (container s) !! key = Some sp ->
  instances (container s) !! key = None ->
  Make_retries m key sp s.
Proof.
  intros Hw Hn Hsp Hc. split; [done|]. intros r s' Hg.
  destruct (Make_guarded m key sp s s' r Hw Hn Hsp Hc Hg) as (HM & evs & s1 & Ha & Hm & ->).
  pose proof (named_lookup s key sp Hn Hsp) as <-.
  destruct (moved_counts sp evs s _ Hm) as [Hb _].
  destruct (attempt_of_counts _ _ _ _ _ _ _ Ha) as (Hb1 & _).
  split; [done|split; [|split]].
  - destruct (moved_trace _ _ _ _ Hm) as (t & Ht & Ho).
    exists evs, t, s1. split; [done|]. split; [|done]. by destruct (snd r).
  - rewrite <-Hb1, <-Hb. by destruct (snd r).
  - destruct (snd r); simpl.
    + pose proof (moved_instances _ _ _ _ Hm) as Hci. simpl in Hci. congruence.
    + by rewrite lookup_insert_eq.
Qed.

(** An attempt is a function of the state it starts from. *)
Lemma attempt_of_det (c : Container) (sp : P) (params : slice) (s s1 s2 : State)
    (r1 r2 : result) (evs1 evs2 : list Event) :
  attempt_of c sp s params r1 evs1 s1 -> attempt_of c sp s params r2 evs2 s2 ->
  evs1 = evs2.
Proof.
  intros H1 H2.
  destruct H1 as [params e s3 Hb|l s3 s4 s5 method ins err Hb Hreg Hm
                 |ps s3 s4 s5 s6 method ins err Hb Hp Hreg Hm];
    inversion H2; subst; congruence.
Qed.

(** After a call that left [key] alone, a [Make(key)] returns the instance
    that was cached before, or is one more attempt. *)
Lemma Make_after (m : nat) (key : string) (sp : P) (evs : list Event) (s s' : State) :
  idle s -> named s ->
  moved key evs s s' ->
  providers (container s') !! key = Some sp ->
  (forall old : iface,
     instances (container s) !! key = Some old ->
     Make (this m) key s' = Returned (old, None) s') /\
  (instances (container s) !! key = None -> Make_retries m key sp s').
Proof.
  intros Hi Hn Hmv Hsp.
  pose proof (idle_writer _ (moved_idle _ _ _ _ Hmv Hi)) as Hw.
  pose proof (moved_instances _ _ _ _ Hmv) as Hci. split.
  - intros old Hc. apply (Make_cached _ key sp); [done..|]. by rewrite Hci.
  - intros Hc. apply Make_again; [done|by apply (moved_named _ _ _ _ Hmv)|done|].
    by rewrite Hci.
Qed.

(** ** Properties of the specification *)

(** C1, as amended. When the first of two consecutive [Make(key)] returns an
    instance, that instance is cached, and the second returns the same
    instance and changes nothing: it runs no hook. Across both calls the
    factory of the provider has then run at most once, provided no hook
    resolved or bound [key] itself during the first call. When the first
    call returns an error instead, and no hook resolved or bound [key]
    itself during it, nothing is cached for [key] and the second call is
    one more attempt, from [Boot]. *)
Theorem Make_twice (n m : nat) (key : string) (s s1 : State) (r : result) :
  idle s ->
  Make (this n) key s = Returned r s1 ->
  (forall ins : iface,
     r = (ins, None) ->
     instances (container s1) !! key = Some ins /\
     Make (this m) key s1 = Returned (ins, None) s1) /\
  (forall sp : P,
     named s ->
     providers (container s) !! key = Some sp ->
     Make (guarded key n) key s = Returned r s1 ->
     match snd r with
     | None => factory_runs sp (trace s1) <= factory_runs sp (trace s) + 1
     | Some _ => Make_retries m key sp s1
     end).
Proof.
  intros Hi Hm. split.
  - intros ins ->. destruct (Make_success n key s s1 ins Hi Hm) as [Hg Hc].
    split; [done|].
    assert (is_Some (providers (container s)!! key)) as Hk.
    { unfold Make in Hm. rewrite make_eq in Hm by by apply idle_writer.
      destruct (providers (container s) !! key); [eauto|done]. }
    destruct (grows_providers _ _ Hg key Hk) as [sp' Hsp'].
    apply (Make_cached _ key sp'); [|done..].
    by apply idle_writer, (grows_idle s).
  - intros sp Hn Hsp Hgd.
    destruct (instances (container s) !! key) as [i|] eqn:Hi0.
    + rewrite (Make_cached _ key sp i s) in Hm by (done || by apply idle_writer).
      injection Hm as <- <-. simpl. lia.
    + destruct (Make_guarded n key sp s s1 _ (idle_writer s Hi) Hn Hsp Hi0 Hgd)
        as (_ & evs & s2 & Ha & Hmv & ->).
      destruct (snd r) as [e|] eqn:Hr.
      * pose proof (moved_providers _ _ _ _ Hmv) as Hcp. rewrite Hsp in Hcp.
        by apply (Make_after m key sp evs s (runlocked s2)).
      * pose proof (named_lookup s key sp Hn Hsp) as <-.
        destruct (moved_counts sp evs s _ Hmv) as [_ Hf].
        destruct (attempt_of_counts _ _ _ _ _ _ _ Ha) as (_ & Hle & _).
        simpl. simpl in Hf. lia.
Qed.

(** C2, as amended. [MakeNew] returns what its attempt returns, in the
    state the attempt left: it writes nothing of its own. Provided no hook
    resolves or binds [key] itself during the call, the cached instance of
    [key] is so after [MakeNew] what it was before: a [Make] that follows
    returns the instance that was cached before, if there was one, without
    running a hook; otherwise it is an attempt of its own, without caller
    parameters and from [Boot], whose instance it caches and returns.
    Whether that instance is another one than [MakeNew] returned is up to
    the factory. *)
Theorem MakeNew_keeps_cache (n : nat) (key : string) (sp : P) (params : slice) (s : State) :
  idle s ->
  named s ->
  providers (container s) !! key = Some sp ->
  MakeNew (this n) key params s = released (newInstance (this n) sp params (rlocked s)) /\
  forall (r : result) (s' : State),
    MakeNew (guarded key n) key params s = Returned r s' ->
    MakeNew (this n) key params s = Returned r s' /\
    instances (container s') !! key = instances (container s) !! key /\
    (forall (m : nat) (old : iface),
       instances (container s) !! key = Some old ->
       Make (this m) key s' = Returned (old, None) s') /\
    (instances (container s) !! key = None -> forall m, Make_retries m key sp s').
Proof.
  intros Hi Hn Hsp. pose proof (idle_writer s Hi) as Hw. split.
  { unfold MakeNew. by rewrite make_eq, Hsp. }
  intros r s' Hg.
  destruct (MakeNew_guarded n key sp params s s' r Hw Hn Hsp Hg)
    as (HM & evs & s1 & Ha & -> & Hmv).
  pose proof (moved_providers _ _ _ _ Hmv) as Hcp. rewrite Hsp in Hcp.
  split; [done|]. split; [apply (moved_instances _ _ _ _ Hmv)|]. split.
  - intros m old. by apply (Make_after m key sp evs s (runlocked s1)).
  - intros Hc m. by apply (Make_after m key sp evs s (runlocked s1)).
Qed.

(** C3, as amended. [MakeNew] runs [Boot] first. When [Boot] returns an
    error, [MakeNew] returns that error and runs nothing else: not
    [Params], not [Register], not the factory. When [Boot] returns nil, the
    factory runs on the caller's parameters whenever they are not the nil
    slice, an empty list included, and [Params] does not run: [Register]
    follows [Boot] at once; only for the nil slice does [Params] run, and
    the factory runs on its output. [MakeNew] returns what the factory
    returned, an error re-wrapped. This holds whatever the hooks do; of the
    hooks of the provider the log shows exactly those named, for a call
    during which no hook resolves or binds [key] itself. *)
Theorem MakeNew_params (n : nat) (key : string) (sp : P) (params : slice) (s s' : State)
    (r : result) :
  idle s ->
  providers (container s) !! key = Some sp ->
  MakeNew (this n) key params s = Returned r s' ->
  exists (err : option error) (s1 : State),
    run (this n) (Boot sp) (log (Booted sp) (rlocked s)) = Returned err s1 /\
    match err with
    | Some e =>
        r = (None, Some e) /\ s' = runlocked s1 /\
        (named s ->
         MakeNew (guarded key n) key params s = Returned r s' ->
         exists t, trace s' = trace s ++ t /\ own key t = [Booted sp])
    | None =>
        exists (ps : slice) (s2 s3 s4 : State) (method : slice -> Prog result)
               (ins : iface) (err' : option error),
          match params with
          | Some l => ps = Some l /\ s2 = s1
          | None => run (this n) (Params sp) (log (AskedParams sp) s1) = Returned ps s2
          end /\
          run (this n) (Register sp) (log (Registered sp) s2) = Returned method s3 /\
          run (this n) (method ps) (log (Invoked sp ps) s3) = Returned (ins, err') s4 /\
          r = outcome ins err' /\ s' = runlocked s4 /\
          (named s ->
           MakeNew (guarded key n) key params s = Returned r s' ->
           exists t,
             trace s' = trace s ++ t /\
             own key t =
               match params with
               | Some l => [Booted sp; Registered sp; Invoked sp (Some l)]
               | None => [Booted sp; AskedParams sp; Registered sp; Invoked sp ps]
               end)
    end.
Proof.
  intros Hi Hsp HM. pose proof (idle_writer s Hi) as Hw.
  assert (forall evs s1,
            attempt_of (this n) sp (rlocked s) params r evs s1 ->
            named s ->
            MakeNew (guarded key n) key params s = Returned r s' ->
            exists t, trace s' = trace s ++ t /\ own key t = evs) as Hlog.
  { intros evs s1 Ha Hn Hg.
    destruct (MakeNew_guarded n key sp params s s' r Hw Hn Hsp Hg)
      as (_ & evs' & s1' & Ha' & _ & Hmv).
    rewrite (attempt_of_det _ _ _ _ _ _ _ _ _ _ Ha Ha'). apply (moved_trace _ _ _ _ Hmv). }
  unfold MakeNew in HM. rewrite make_eq, Hsp in HM by done.
  apply released_Returned in HM as (s0 & (evs & Ha)%newInstance_inv & ->).
  pose proof (Hlog evs s0 Ha) as Ht. clear Hlog.
  destruct Ha as [params e s1 Hb|l s1 s2 s3 method ins err Hb Hreg Hm
                 |ps s1 s2 s3 s4 method ins err Hb Hp Hreg Hm].
  - exists (Some e), s1. by split.
  - exists None, s1. split; [done|].
    exists (Some l), s1, s2, s3, method, ins, err. by repeat (split; [done|]).
  - exists None, s1. split; [done|].
    exists ps, s2, s3, s4, method, ins, err. by repeat (split; [done|]).
Qed.

(** C4. A key without a provider: [Make] returns the error
    "contract <key> have not register", whose message contains the key, and
    [MustMake] panics instead of returning. Neither touches the state. *)
Theorem unbound_key_is_an_error (self : Container) (key : string) (s : State) :
  idle s ->
  providers (container s) !! key = None ->
  (exists e : error,
     Make self key s = Returned (None, Some e) s /\
     Error e = "contract " +:+ key +:+ " have not register") /\
  MustMake self key s = Panicked ("container not contain key " +:+ key) s.
Proof.
  intros Hi%idle_writer Hk. split.
  - eexists. split; [by apply Make_unbound|done].
  - rewrite MustMake_make. change (make self key None false) with (Make self key).
    by rewrite Make_unbound.
Qed.

(** C5, as amended. Whatever the hooks do, when the attempt of [MakeNew],
    of [Make] or of the eager [Bind] ends with an error, the call returns
    that error in the state the attempt left: the call itself caches
    nothing. The error is the one [Boot] returned, as it is, or
    [errors.New] of the message of the one the factory returned. Provided
    no hook resolves or binds the key itself during the call, the cached
    instance of the key is after the call what it was before. If there was
    none there is none, as always when [Make] returns an error, and the
    next [Make] is a new attempt, from [Boot]. If there was one, as there
    can be for [MakeNew] and for [Bind] over a bound key, it stays, and the
    next [Make] returns it without running a hook. *)
Theorem failed_attempt_caches_nothing (n : nat) (key : string) (sp : P) (params : slice)
    (s : State) :
  idle s ->
  named s ->
  Name sp = key ->
  (forall (ins : iface) (e : error) (s1 : State),
     providers (container s) !! key = Some sp ->
     newInstance (this n) sp params (rlocked s) = Returned (ins, Some e) s1 ->
     MakeNew (this n) key params s = Returned (ins, Some e) (runlocked s1) /\
     raised (this n) sp e) /\
  (forall (ins : iface) (e : error) (s1 : State),
     providers (container s) !! key = Some sp ->
     instances (container s) !! key = None ->
     newInstance (this n) sp None (rlocked s) = Returned (ins, Some e) s1 ->
     Make (this n) key s = Returned (None, Some e) (runlocked s1) /\
     raised (this n) sp e) /\
  (forall (ins : iface) (e : error) (s1 : State),
     IsDefer sp = false ->
     newInstance (this n) sp None (installed sp s) = Returned (ins, Some e) s1 ->
     Bind (this n) sp s = Returned (Some e) s1 /\
     raised (this n) sp e) /\
  (forall (ins : iface) (e : error) (s' : State),
     providers (container s) !! key = Some sp ->
     MakeNew (guarded key n) key params s = Returned (ins, Some e) s' ->
     MakeNew (this n) key params s = Returned (ins, Some e) s' /\
     instances (container s') !! key = instances (container s) !! key /\
     (instances (container s) !! key = None -> forall m, Make_retries m key sp s') /\
     (forall (m : nat) (old : iface),
        instances (container s) !! key = Some old ->
        Make (this m) key s' = Returned (old, None) s')) /\
  (forall (ins : iface) (e : error) (s' : State),
     providers (container s) !! key = Some sp ->
     Make (guarded key n) key s = Returned (ins, Some e) s' ->
     Make (this n) key s = Returned (ins, Some e) s' /\
     instances (container s) !! key = None /\
     forall m, Make_retries m key sp s') /\
  (forall (e : error) (s' : State),
     IsDefer sp = false ->
     Bind (guarded key n) sp s = Returned (Some e) s' ->
     Bind (this n) sp s = Returned (Some e) s' /\
     instances (container s') !! key = instances (container s) !! key /\
     (instances (container s) !! key = None -> forall m, Make_retries m key sp s') /\
     (forall (m : nat) (old : iface),
        instances (container s) !! key = Some old ->
        Make (this m) key s' = Returned (old, None) s')).
Proof.
  intros Hi Hn <-. pose proof (idle_writer s Hi) as Hw.
  split; [|split; [|split; [|split; [|split]]]].
  - intros ins e s1 Hsp Hni. split.
    + unfold MakeNew. by rewrite make_eq, Hsp, Hni.
    + apply newInstance_inv in Hni as [evs Ha]. by eapply attempt_of_raised.
  - intros ins e s1 Hsp Hc Hni. split.
    + unfold Make. rewrite make_eq, Hsp, Hc by done.
      unfold make_fresh, bind at 1. by rewrite Hni.
    + apply newInstance_inv in Hni as [evs Ha]. by eapply attempt_of_raised.
  - intros ins e s1 Hd Hni. split.
    + rewrite Bind_eq, Hd, Bind_eager_newInstance by done.
      unfold bind at 1. by rewrite Hni.
    + apply newInstance_inv in Hni as [evs Ha]. by eapply attempt_of_raised.
  - intros ins e s' Hsp Hg.
    destruct (MakeNew_guarded n _ sp params s s' _ Hw Hn Hsp Hg)
      as (HM & evs & s1 & Ha & -> & Hmv).
    pose proof (moved_providers _ _ _ _ Hmv) as Hcp. rewrite Hsp in Hcp.
    split; [done|]. split; [apply (moved_instances _ _ _ _ Hmv)|]. split.
    + intros Hc m. by apply (Make_after m (Name sp) sp evs s (runlocked s1)).
    + intros m old. by apply (Make_after m (Name sp) sp evs s (runlocked s1)).
  - intros ins e s' Hsp Hg.
    destruct (instances (container s) !! Name sp) as [i|] eqn:Hc.
    { rewrite (Make_cached _ _ sp i s) in Hg by done. by simplify_eq. }
    destruct (Make_guarded n _ sp s s' _ Hw Hn Hsp Hc Hg)
      as (HM & evs & s1 & Ha & Hmv & ->). simpl.
    pose proof (moved_providers _ _ _ _ Hmv) as Hcp. rewrite Hsp in Hcp.
    split; [done|]. split; [done|]. intros m.
    by apply (Make_after m (Name sp) sp evs s (runlocked s1)).
  - intros e s' Hd Hg.
    destruct (Bind_guarded n sp s s' _ Hi Hn Hd Hg) as (HB & ins & evs & s1 & Ha & Hmv & ->).
    pose proof (moved_instances _ _ _ _ Hmv) as Hci.
    pose proof (moved_providers _ _ _ _ Hmv) as Hcp.
    simpl in Hci, Hcp. rewrite lookup_insert_eq in Hcp.
    pose proof (idle_writer _ (moved_idle _ _ _ _ Hmv Hi)) as Hw'.
    split; [done|]. split; [done|]. split.
    + intros Hc m. apply Make_again; [done| |done|by rewrite Hci].
      by apply (moved_named _ _ _ _ Hmv), named_installed.
    + intros m old Hc. apply (Make_cached _ _ sp); [done..|]. by rewrite Hci.
Qed.

(** C6. [IsBind] tells whether the key has a provider, so it is false on a
    new container; once [Bind(P)] has returned, with a nil error or not and
    for a deferred provider or not, [IsBind(P.Name())] is true: [Bind]
    installs the provider first and only then, for a provider that is not
    deferred, runs the eager pipeline on the state with the provider in
    it. *)
Theorem IsBind_after_Bind (n : nat) (provider : P) (s s' : State) (r : option error) :
  idle s ->
  Bind (this n) provider s = Returned r s' ->
  (forall (w : W) (key : string),
     IsBind key (fresh_state w) = Returned false (fresh_state w)) /\
  (forall key : string,
     IsBind key s = Returned (bool_decide (is_Some (providers (container s) !! key))) s) /\
  Bind (this n) provider s =
    (if IsDefer provider then Returned None (installed provider s)
     else Bind_eager (this n) provider (installed provider s)) /\
  providers (container (installed provider s)) !! Name provider = Some provider /\
  IsBind (Name provider) s' = Returned true s'.
Proof.
  intros Hi Hb. split; [|split; [|split; [|split]]].
  - intros w key. by rewrite IsBind_eq.
  - intros key. by rewrite IsBind_eq by by apply idle_writer.
  - by apply Bind_eq.
  - simpl. by rewrite lookup_insert_eq.
  - pose proof (Bind_growing (this n) provider (this_sound n) s) as Hg.
    unfold after in Hg. rewrite Hb in Hg.
    rewrite IsBind_eq by by apply idle_writer, (grows_idle s).
    f_equal. apply bool_decide_eq_true.
    assert (grows (installed provider s) s') as Hg'.
    { rewrite Bind_eq in Hb by done. destruct (IsDefer provider).
      - by injection Hb as _ <-.
      - pose proof (Bind_eager_growing (this n) provider (installed provider s)
                      (this_sound n)) as He.
        specialize (He ltac:(simpl; rewrite lookup_insert_eq; eauto)
                       (installed provider s) ltac:(done)).
        unfold after in He. by rewrite Hb in He. }
    apply (grows_providers _ _ Hg'). simpl. rewrite lookup_insert_eq. eauto.
Qed.

(** C7, as amended. [Bind] of a deferred provider returns nil and runs no
    hook: it installs the provider and leaves the log, the world and
    [instances] as they were. When no instance is cached under the key, the
    first [Make] then runs the pipeline exactly once: [Boot] has run once
    more than before, and so has the factory unless [Boot] returned an
    error, in which case the factory has not run and [Make] returns that
    error; [MustMake] does the same and panics where [Make] returns an
    error. The counts are those of a call during which no hook resolves or
    binds the key itself. *)
Theorem deferred_is_lazy (n m : nat) (sp : P) (s : State) :
  idle s ->
  named s ->
  IsDefer sp = true ->
  exists s',
    Bind (this n) sp s = Returned None s' /\
    trace s' = trace s /\ world s' = world s /\
    instances (container s') = instances (container s) /\
    forall (r : result) (s2 : State),
      instances (container s) !! Name sp = None ->
      Make (guarded (Name sp) m) (Name sp) s' = Returned r s2 ->
      Make (this m) (Name sp) s' = Returned r s2 /\
      MustMake (this m) (Name sp) s' =
        match snd r with
        | Some _ => Panicked ("container not contain key " +:+ Name sp) s2
        | None => Returned (fst r) s2
        end /\
      boots sp (trace s2) = boots sp (trace s) + 1 /\
      (factory_runs sp (trace s2) = factory_runs sp (trace s) + 1 \/
       factory_runs sp (trace s2) = factory_runs sp (trace s) /\
       exists (e : error) (s0 s1 : State),
         run (this m) (Boot sp) s0 = Returned (Some e) s1 /\ r = (None, Some e)).
Proof.
  intros Hi Hn Hd. exists (installed sp s). split; [by apply Bind_deferred|].
  split; [done|]. split; [done|]. split; [done|].
  intros r s2 Hc Hg.
  assert (providers (container (installed sp s)) !! Name sp = Some sp) as Hsp.
  { simpl. by rewrite lookup_insert_eq. }
  destruct (Make_guarded m (Name sp) sp (installed sp s) s2 r (idle_writer s Hi)
              (named_installed sp s Hn) Hsp Hc Hg) as (HM & evs & s1 & Ha & Hmv & Hs2).
  split; [done|]. split; [|split].
  - rewrite MustMake_make.
    change (make (this m) (Name sp) None false) with (Make (this m) (Name sp)).
    rewrite HM. by destruct r as [ins [e|]].
  - destruct (moved_counts sp evs _ _ Hmv) as [Hb _].
    destruct (attempt_of_counts _ _ _ _ _ _ _ Ha) as (Hb1 & _).
    rewrite Hs2. simpl in Hb. destruct (snd r); simpl; lia.
  - destruct (moved_counts sp evs _ _ Hmv) as [_ Hf]. simpl in Hf.
    assert (factory_runs sp (trace s2) = factory_runs sp (trace s) + factory_runs sp evs)
      as ->.
    { rewrite Hs2. by destruct (snd r). }
    clear Hs2 HM Hg Hmv.
    destruct Ha as [params e s3 Hb|l s3 s4 s5 method ins err Hb Hreg Hmt
                   |ps s3 s4 s5 s6 method ins err Hb Hp Hreg Hmt].
    + right. split; [unfold factory_runs; simpl; lia|]. eauto.
    + left. unfold factory_runs. simpl. by rewrite bool_decide_eq_true_2.
    + left. unfold factory_runs. simpl. by rewrite bool_decide_eq_true_2.
Qed.

(** C8. Whatever the hooks do, [newInstance] returns exactly as [attempt_of]
    has it: it runs [Boot] first and, when [Boot] returns an error, nothing
    else; otherwise [Params] (only without caller parameters), [Register]
    and the factory follow in this order, each from the state the one before
    left; and [Booted] is the first thing it logs. The eager path of [Bind]
    is such an attempt too, followed by the caching of the instance.
    [MakeNew], [Make] without a cached instance and [Bind] of a provider
    that is not deferred are each one attempt, and when no hook resolves or
    binds the key itself during the call, the hooks of the provider that the
    log shows are those of the attempt, [Boot] exactly once. *)
Theorem Boot_runs_first (n : nat) (key : string) (sp : P) (params : slice) (s : State) :
  idle s ->
  named s ->
  Name sp = key ->
  (forall (r : result) (s' : State),
     newInstance (this n) sp params s = Returned r s' <->
     exists evs, attempt_of (this n) sp s params r evs s') /\
  (forall (r : result) (s' : State),
     newInstance (this n) sp params s = Returned r s' ->
     exists t, trace s' = trace s ++ Booted sp :: t) /\
  (IsDefer sp = false ->
   Bind (this n) sp s =
     (let* '(instance, err) := newInstance (this n) sp None in
      match err with
      | Some e => ret (Some e)
      | None =>
          modify (set_instances (fun m => <[Name sp := instance]> m)) ;;
          ret None
      end) (installed sp s)) /\
  (forall (r : result) (s' : State),
     providers (container s) !! key = Some sp ->
     MakeNew (guarded key n) key params s = Returned r s' ->
     MakeNew (this n) key params s = Returned r s' /\
     exists (evs t : list Event) (s0 s1 : State),
       attempt_of (this n) sp s0 params r evs s1 /\
       trace s' = trace s ++ t /\ own key t = evs /\ boots sp t = 1) /\
  (forall (r : result) (s' : State),
     providers (container s) !! key = Some sp ->
     instances (container s) !! key = None ->
     Make (guarded key n) key s = Returned r s' ->
     Make (this n) key s = Returned r s' /\
     exists (evs t : list Event) (s0 s1 : State),
       attempt_of (this n) sp s0 None r evs s1 /\
       trace s' = trace s ++ t /\ own key t = evs /\ boots sp t = 1) /\
  (forall (r : option error) (s' : State),
     IsDefer sp = false ->
     Bind (guarded key n) sp s = Returned r s' ->
     Bind (this n) sp s = Returned r s' /\
     exists (ins : iface) (evs t : list Event) (s0 s1 : State),
       attempt_of (this n) sp s0 None (ins, r) evs s1 /\
       trace s' = trace s ++ t /\ own key t = evs /\ boots sp t = 1).
Proof.
  intros Hi Hn <-. pose proof (idle_writer s Hi) as Hw.
  assert (forall (evs t : list Event) (c : Container) (ps : slice) (r : result) (s0 s1 : State),
            attempt_of c sp s0 ps r evs s1 -> own (Name sp) t = evs -> boots sp t = 1)
    as Hone.
  { intros evs t c ps r s0 s1 Ha Ho.
    rewrite <-boots_own, Ho. by destruct (attempt_of_counts _ _ _ _ _ _ _ Ha). }
  split; [|split; [|split; [|split; [|split]]]].
  - intros r s'. split; [apply newInstance_inv|].
    intros [evs Ha]. by eapply attempt_of_newInstance.
  - intros r s' Hni.
    pose proof (newInstance_Booted (this n) sp params s (this_sound n)) as Hg.
    unfold after in Hg. rewrite Hni in Hg.
    destruct (grows_trace _ _ Hg) as [t Ht]. exists t.
    rewrite Ht. simpl. by rewrite <-app_assoc.
  - intros Hd. by rewrite Bind_eq, Hd, Bind_eager_newInstance.
  - intros r s' Hsp Hg.
    destruct (MakeNew_guarded n _ sp params s s' r Hw Hn Hsp Hg)
      as (HM & evs & s1 & Ha & -> & Hmv).
    split; [done|]. destruct (moved_trace _ _ _ _ Hmv) as (t & Ht & Ho).
    exists evs, t, (rlocked s), s1. repeat split; try done. by eapply Hone.
  - intros r s' Hsp Hc Hg.
    destruct (Make_guarded n _ sp s s' r Hw Hn Hsp Hc Hg)
      as (HM & evs & s1 & Ha & Hmv & ->).
    split; [done|]. destruct (moved_trace _ _ _ _ Hmv) as (t & Ht & Ho).
    exists evs, t, (rlocked s), s1. repeat split; try done; [|by eapply Hone].
    by destruct (snd r).
  - intros r s' Hd Hg.
    destruct (Bind_guarded n sp s s' r Hi Hn Hd Hg) as (HB & ins & evs & s1 & Ha & Hmv & ->).
    split; [done|]. destruct (moved_trace _ _ _ _ Hmv) as (t & Ht & Ho).
    exists ins, evs, t, (installed sp s), s1. repeat split; try done; [|by eapply Hone].
    by destruct r.
Qed.

(** C9. Binding a key that has a provider already. Whatever the hooks do,
    once [Bind] has returned the key has a provider, and a cached instance
    if it had one before: [Bind] clears nothing. [Bind] of a deferred
    provider returns nil, replaces the provider and changes nothing else:
    an instance cached for the key stays, and [Make] goes on returning it,
    without running a hook; [MakeNew], and [Make] when no instance is
    cached, make their attempt with the hooks of the new provider. [Bind] of
    a provider that is not deferred replaces the provider as well, whatever
    its attempt yields, and the key keeps a cached instance if it had one:
    the one of the new provider when the attempt succeeds, the old one when
    it fails. The attempts are those of calls during which no hook resolves
    or binds the key itself. *)
Theorem rebinding (n : nat) (key : string) (old new : P) (s : State) :
  idle s ->
  named s ->
  providers (container s) !! key = Some old ->
  Name new = key ->
  (forall (r : option error) (s' : State),
     Bind (this n) new s = Returned r s' ->
     is_Some (providers (container s') !! key) /\
     (is_Some (instances (container s) !! key) ->
      is_Some (instances (container s') !! key))) /\
  (IsDefer new = true ->
   exists s',
     Bind (this n) new s = Returned None s' /\
     providers (container s') = <[key := new]> (providers (container s)) /\
     instances (container s') = instances (container s) /\
     trace s' = trace s /\
     (forall (m : nat) (stale : iface),
        instances (container s) !! key = Some stale ->
        Make (this m) key s' = Returned (stale, None) s') /\
     (forall (m : nat) (params : slice) (r : result) (s2 : State),
        MakeNew (guarded key m) key params s' = Returned r s2 ->
        MakeNew (this m) key params s' = Returned r s2 /\
        exists (evs : list Event) (s0 s1 : State),
          attempt_of (this m) new s0 params r evs s1) /\
     (forall (m : nat) (r : result) (s2 : State),
        instances (container s) !! key = None ->
        Make (guarded key m) key s' = Returned r s2 ->
        Make (this m) key s' = Returned r s2 /\
        exists (evs : list Event) (s0 s1 : State),
          attempt_of (this m) new s0 None r evs s1)) /\
  (IsDefer new = false ->
   forall (r : option error) (s' : State),
     Bind (guarded key n) new s = Returned r s' ->
     Bind (this n) new s = Returned r s' /\
     providers (container s') !! key = Some new /\
     match r with
     | Some _ => instances (container s') !! key = instances (container s) !! key
     | None => is_Some (instances (container s') !! key)
     end).
Proof.
  intros Hi Hn Hold <-. pose proof (idle_writer s Hi) as Hw. split; [|split].
  - intros r s' Hb.
    pose proof (Bind_growing (this n) new (this_sound n) s) as Hg.
    unfold after in Hg. rewrite Hb in Hg. split.
    + apply (grows_providers _ _ Hg). eauto.
    + apply (grows_instances _ _ Hg).
  - intros Hd. exists (installed new s).
    assert (providers (container (installed new s)) !! Name new = Some new) as Hnew.
    { simpl. by rewrite lookup_insert_eq. }
    pose proof (named_installed new s Hn) as Hn'.
    split; [by apply Bind_deferred|]. split; [done|]. split; [done|]. split; [done|].
    split; [|split].
    + intros m stale Hc. by apply (Make_cached _ _ new).
    + intros m params r s2 Hg.
      destruct (MakeNew_guarded m (Name new) new params (installed new s) s2 r Hw Hn' Hnew Hg)
        as (HM & evs & s1 & Ha & _).
      split; [done|]. eauto.
    + intros m r s2 Hc Hg.
      destruct (Make_guarded m (Name new) new (installed new s) s2 r Hw Hn' Hnew Hc Hg)
        as (HM & evs & s1 & Ha & _).
      split; [done|]. eauto.
  - intros Hd r s' Hg.
    destruct (Bind_guarded n new s s' r Hi Hn Hd Hg) as (HB & ins & evs & s1 & Ha & Hmv & ->).
    pose proof (moved_instances _ _ _ _ Hmv) as Hci.
    pose proof (moved_providers _ _ _ _ Hmv) as Hcp.
    simpl in Hci, Hcp. rewrite lookup_insert_eq in Hcp.
    split; [done|]. destruct r as [e|]; (split; [done|]); [done|].
    simpl. rewrite lookup_insert_eq. eauto.
Qed.

(** C10. In every state that calls of [Bind], [IsBind], [Make], [MustMake]
    and [MakeNew] reach from a new container, whatever the hooks of the
    providers do with the container, every key of [instances] is a key of
    [providers]; and no call removes a provider. *)
Theorem instances_have_providers (s : State) :
  reachable s ->
  (forall key : string,
     is_Some (instances (container s) !! key) -> is_Some (providers (container s) !! key)) /\
  (forall (n : nat) (c : Call) (s' : State) (key : string),
     perform n c s = Some s' ->
     is_Some (providers (container s) !! key) -> is_Some (providers (container s') !! key)).
Proof.
  intros Hr. split.
  - by apply reachable_wf_idle.
  - intros n c s' key Hp. by apply grows_providers, (perform_grows n c).
Qed.

End properties.

(** ** The properties on the example providers *)

Section examples.

Import Demo.

(** C1, as amended, on two [Make("conn")]. *)
Lemma Make_twice_witness :
  idle (bound conn) /\
  Make (this 0) "conn" (bound conn) = Returned (Some 0, None) connected /\
  instances (container connected) !! "conn" = Some (Some 0) /\
  Make (this 0) "conn" connected = Returned (Some 0, None) connected /\
  factory_runs conn (trace connected) <= factory_runs conn (trace (bound conn)) + 1.
Proof.
  assert (idle (bound conn)) as Hi by reflexivity.
  assert (Make (this 0) "conn" (bound conn) = Returned (Some 0, None) connected) as Hm
    by reflexivity.
  assert (named (bound conn)) as Hn by (apply (bool_decide_unpack _); vm_compute; exact I).
  assert (providers (container (bound conn)) !! "conn" = Some conn) as Hsp by reflexivity.
  assert (Make (guarded "conn" 0) "conn" (bound conn) = Returned (Some 0, None) connected)
    as Hg by reflexivity.
  split; [exact Hi|]. split; [exact Hm|].
  destruct (Make_twice 0 0 "conn" (bound conn) connected _ Hi Hm) as [Hsame Hcount].
  destruct (Hsame (Some 0) eq_refl) as [Hc HM].
  split; [exact Hc|]. split; [exact HM|]. exact (Hcount conn Hn Hsp Hg).
Defined.

(** C1 as stated fails on [faulty]: neither of two consecutive
    [Make("faulty")] returns an instance, and the factory runs in both. *)
Lemma Make_twice_counterexample :
  providers (container (bound faulty)) !! "faulty" = Some faulty /\
  exists s1 s2,
    Make (this 0) "faulty" (bound faulty) = Returned (None, Some (errors_New "boom")) s1 /\
    Make (this 0) "faulty" s1 = Returned (None, Some (errors_New "boom")) s2 /\
    factory_runs faulty (trace (bound faulty)) = 0 /\
    factory_runs faulty (trace s2) = 2.
Proof.
  split; [reflexivity|]. eexists _, _.
  split; [vm_compute; reflexivity|]. split; [vm_compute; reflexivity|].
  split; reflexivity.
Qed.

(** C2, as amended, on [MakeNew("app", nil)], whose [Params] hook resolves
    "conn" through the container: "conn" gets cached, "app" does not, and
    the [Make("app")] that follows makes an attempt of its own and caches
    its instance. *)
Lemma MakeNew_keeps_cache_witness :
  idle paired /\
  named paired /\
  providers (container paired) !! "app" = Some app /\
  MakeNew (this 1) "app" None paired = Returned (Some 1, None) probed /\
  instances (container probed) !! "app" = instances (container paired) !! "app" /\
  exists s'',
    Make (this 1) "app" probed = Returned (Some 2, None) s'' /\
    instances (container s'') !! "app" = Some (Some 2).
Proof.
  assert (idle paired) as Hi by reflexivity.
  assert (named paired) as Hn by (apply (bool_decide_unpack _); vm_compute; exact I).
  assert (providers (container paired) !! "app" = Some app) as Hsp by reflexivity.
  assert (MakeNew (guarded "app" 1) "app" None paired = Returned (Some 1, None) probed)
    as Hg by (vm_compute; reflexivity).
  assert (Make (guarded "app" 1) "app" probed =
            Returned (Some 2, None)
              (cache "app" (Some 2)
                 (advance 3 [Booted app; AskedParams app; Registered app;
                             Invoked app (Some [0])] probed)))
    as Hg' by (vm_compute; reflexivity).
  split; [exact Hi|]. split; [exact Hn|]. split; [exact Hsp|].
  destruct (MakeNew_keeps_cache 1 "app" app None paired Hi Hn Hsp) as [_ Hk].
  destruct (Hk (Some 1, None) probed Hg) as (HM & Hc & _ & Hretry).
  destruct (Hretry eq_refl 1) as [_ Hnext].
  destruct (Hnext _ _ Hg') as (HM' & _ & _ & Hc').
  split; [exact HM|]. split; [exact Hc|]. eexists. split; [exact HM'|exact Hc'].
Defined.

(** C3, as amended, on [conn] and an empty list of parameters: [Boot]
    returns nil and the factory runs on the empty list. *)
Lemma MakeNew_params_witness :
  idle (bound conn) /\
  providers (container (bound conn)) !! "conn" = Some conn /\
  MakeNew (this 0) "conn" (Some []) (bound conn) =
    Returned (Some 0, None)
      (advance 1 [Booted conn; Registered conn; Invoked conn (Some [])] (bound conn)) /\
  exists (err : option error) (s1 : State),
    run (this 0) (Boot conn) (log (Booted conn) (rlocked (bound conn))) = Returned err s1 /\
    err = None.
Proof.
  assert (idle (bound conn)) as Hi by reflexivity.
  assert (providers (container (bound conn)) !! "conn" = Some conn) as Hsp by reflexivity.
  assert (MakeNew (this 0) "conn" (Some []) (bound conn) =
            Returned (Some 0, None)
              (advance 1 [Booted conn; Registered conn; Invoked conn (Some [])] (bound conn)))
    as HM by (vm_compute; reflexivity).
  split; [exact Hi|]. split; [exact Hsp|]. split; [exact HM|].
  destruct (MakeNew_params 0 "conn" conn (Some []) (bound conn) _ _ Hi Hsp HM)
    as (err & s1 & Hb & Hrest).
  exists err, s1. split; [exact Hb|].
  destruct err as [e|]; [|reflexivity].
  destruct Hrest as (Hr & _). discriminate Hr.
Defined.

(** C3 as stated fails on [conn]: with an empty, non-nil list of parameters
    the factory is called with the empty list, and [Params], whose output
    would have been [[7]], is not run. *)
Lemma MakeNew_empty_params_counterexample :
  providers (container (bound conn)) !! "conn" = Some conn /\
  run (this 0) (Params conn) (bound conn) = Returned (Some [7]) (bound conn) /\
  MakeNew (this 0) "conn" (Some []) (bound conn) =
    Returned (Some 0, None)
      (advance 1 [Booted conn; Registered conn; Invoked conn (Some [])] (bound conn)).
Proof. split; [reflexivity|]. split; reflexivity. Qed.

(** C4 on a new container and the key "missing". *)
Lemma unbound_key_is_an_error_witness :
  idle start /\
  providers (container start) !! "missing" = None /\
  MustMake (this 0) "missing" start = Panicked "container not contain key missing" start.
Proof.
  split; [reflexivity|]. split; [reflexivity|].
  apply (unbound_key_is_an_error (this 0) "missing" start); reflexivity.
Defined.

(** C5, as amended, on [faulty], whose factory returns an error: nothing
    is cached, and the next [Make] runs [Boot] again. *)
Lemma failed_attempt_caches_nothing_witness :
  idle (bound faulty) /\
  named (bound faulty) /\
  Name faulty = "faulty" /\
  exists s' s'',
    Make (this 0) "faulty" (bound faulty) = Returned (None, Some (errors_New "boom")) s' /\
    instances (container s') !! "faulty" = None /\
    Make (this 0) "faulty" s' = Returned (None, Some (errors_New "boom")) s'' /\
    boots faulty (trace s'') = boots faulty (trace s') + 1.
Proof.
  assert (idle (bound faulty)) as Hi by reflexivity.
  assert (named (bound faulty)) as Hn by (apply (bool_decide_unpack _); vm_compute; exact I).
  assert (Name faulty = "faulty") as Hk by reflexivity.
  assert (Make (guarded "faulty" 0) "faulty" (bound faulty) =
            Returned (None, Some (errors_New "boom"))
              (advance 0 [Booted faulty; AskedParams faulty; Registered faulty;
                          Invoked faulty (Some [7])] (bound faulty)))
    as Hg by (vm_compute; reflexivity).
  assert (Make (guarded "faulty" 0) "faulty"
            (advance 0 [Booted faulty; AskedParams faulty; Registered faulty;
                        Invoked faulty (Some [7])] (bound faulty)) =
            Returned (None, Some (errors_New "boom"))
              (advance 0 [Booted faulty; AskedParams faulty; Registered faulty;
                          Invoked faulty (Some [7])]
                 (advance 0 [Booted faulty; AskedParams faulty; Registered faulty;
                             Invoked faulty (Some [7])] (bound faulty))))
    as Hg' by (vm_compute; reflexivity).
  split; [exact Hi|]. split; [exact Hn|]. split; [exact Hk|].
  destruct (failed_attempt_caches_nothing 0 "faulty" faulty None (bound faulty) Hi Hn Hk)
    as (_ & _ & _ & _ & HMake & _).
  destruct (HMake None (errors_New "boom") _ eq_refl Hg) as (HM & _ & Hretry).
  destruct (Hretry 0) as [Hc Hnext].
  destruct (Hnext _ _ Hg') as (HM' & _ & Hb & _).
  eexists _, _. split; [exact HM|]. split; [exact Hc|]. split; [exact HM'|exact Hb].
Defined.

(** C6 on [mailer], which is not deferred and whose factory fails. *)
Lemma IsBind_after_Bind_witness :
  idle start /\
  Bind (this 0) mailer start = Returned (Some (errors_New "smtp down")) mailing /\
  IsBind "mailer" start = Returned false start /\
  IsBind "mailer" mailing = Returned true mailing.
Proof.
  assert (idle start) as Hi by reflexivity.
  assert (Bind (this 0) mailer start = Returned (Some (errors_New "smtp down")) mailing)
    as Hb by reflexivity.
  split; [exact Hi|]. split; [exact Hb|]. split; [reflexivity|].
  apply (IsBind_after_Bind 0 mailer start mailing _ Hi Hb).
Defined.

(** C7, as amended, on [conn]. *)
Lemma deferred_is_lazy_witness :
  idle start /\
  named start /\
  IsDefer conn = true /\
  exists s',
    Bind (this 0) conn start = Returned None s' /\
    trace s' = trace start.
Proof.
  assert (idle start) as Hi by reflexivity.
  assert (named start) as Hn by (apply (bool_decide_unpack _); vm_compute; exact I).
  assert (IsDefer conn = true) as Hd by reflexivity.
  split; [exact Hi|]. split; [exact Hn|]. split; [exact Hd|].
  destruct (deferred_is_lazy 0 0 conn start Hi Hn Hd) as (s' & Hb & Ht & _).
  exists s'. by split.
Defined.

(** C7 as stated fails on [broken], which is deferred: its [Boot] returns an
    error, so that after [Bind] and the first [Make] the factory has not run
    at all. *)
Lemma deferred_Boot_failure_counterexample :
  IsDefer broken = true /\
  Bind (this 0) broken start = Returned None (bound broken) /\
  exists s2,
    Make (this 0) "broken" (bound broken) =
      Returned (None, Some (foreign_error 1 "boot failed")) s2 /\
    factory_runs broken (trace s2) = 0.
Proof.
  split; [reflexivity|]. split; [reflexivity|]. eexists.
  split; [vm_compute; reflexivity|]. reflexivity.
Qed.

(** C8 on [Make("app")], whose [Params] hook resolves "conn" through the
    container: of the hooks of [app] the log shows [Boot], [Params],
    [Register] and the factory, once each and in this order. *)
Lemma Boot_runs_first_witness :
  idle paired /\
  named paired /\
  Name app = "app" /\
  exists t,
    Make (this 1) "app" paired = Returned (Some 1, None) wired /\
    trace wired = trace paired ++ t /\
    own "app" t = [Booted app; AskedParams app; Registered app; Invoked app (Some [0])] /\
    boots app t = 1.
Proof.
  assert (idle paired) as Hi by reflexivity.
  assert (named paired) as Hn by (apply (bool_decide_unpack _); vm_compute; exact I).
  assert (Name app = "app") as Hk by reflexivity.
  assert (Make (guarded "app" 1) "app" paired = Returned (Some 1, None) wired)
    as Hg by (vm_compute; reflexivity).
  split; [exact Hi|]. split; [exact Hn|]. split; [exact Hk|].
  destruct (Boot_runs_first 1 "app" app None paired Hi Hn Hk) as (_ & _ & _ & _ & HMake & _).
  destruct (HMake (Some 1, None) wired eq_refl eq_refl Hg)
    as (HM & evs & t & s0 & s1 & Ha & Ht & Ho & Hb).
  exists t. split; [exact HM|]. split; [exact Ht|]. split; [|exact Hb].
  apply app_inv_head in Ht. by subst t.
Defined.

(** C9 on [conn'] bound over [conn] once "conn" is cached. *)
Lemma rebinding_witness :
  idle connected /\
  named connected /\
  providers (container connected) !! "conn" = Some conn /\
  Name conn' = "conn" /\
  exists s',
    Bind (this 0) conn' connected = Returned None s' /\
    providers (container s') !! "conn" = Some conn' /\
    Make (this 0) "conn" s' = Returned (Some 0, None) s'.
Proof.
  assert (idle connected) as Hi by reflexivity.
  assert (named connected) as Hn by (apply (bool_decide_unpack _); vm_compute; exact I).
  assert (providers (container connected) !! "conn" = Some conn) as Hsp by reflexivity.
  assert (Name conn' = "conn") as Hk by reflexivity.
  split; [exact Hi|]. split; [exact Hn|]. split; [exact Hsp|]. split; [exact Hk|].
  destruct (rebinding 0 "conn" conn conn' connected Hi Hn Hsp Hk) as (_ & Hd & _).
  destruct Hd as (s' & Hb & Hp & _ & _ & Hstale & _); [reflexivity|].
  exists s'. split; [exact Hb|]. split.
  - rewrite Hp. reflexivity.
  - apply Hstale. reflexivity.
Defined.

Lemma wired_reachable : reachable wired.
Proof.
  apply (reachable_call 1 (CallMake "app") paired); [|vm_compute; reflexivity].
  apply (reachable_call 0 (CallBind app) (installed conn start)); [|reflexivity].
  apply (reachable_call 0 (CallBind conn) start); [|reflexivity].
  apply reachable_new.
Defined.

(** C10 on the container after [Bind(conn)], [Bind(app)] and [Make("app")]. *)
Lemma instances_have_providers_witness :
  reachable wired /\
  forall key : string,
    is_Some (instances (container wired) !! key) ->
    is_Some (providers (container wired) !! key).
Proof.
  split; [exact wired_reachable|].
  apply (instances_have_providers wired wired_reachable).
Defined.

End examples.

Section corner_examples.

Import Corner.

(** C2 as stated fails on [pool], whose factory hands out a shared object:
    the [Make] that follows [MakeNew] returns the instance [MakeNew]
    returned. It fails on [selfish] as well, whose [Boot] resolves
    "selfish" itself: after [MakeNew] an instance is cached that was not
    cached before. *)
Lemma MakeNew_keeps_cache_counterexample :
  (exists s1 s2,
     providers (container (bound pool)) !! "pool" = Some pool /\
     MakeNew (this 0) "pool" None (bound pool) = Returned (Some 9, None) s1 /\
     Make (this 0) "pool" s1 = Returned (Some 9, None) s2) /\
  (exists s1,
     providers (container (bound selfish)) !! "selfish" = Some selfish /\
     instances (container (bound selfish)) !! "selfish" = None /\
     MakeNew (this 1) "selfish" None (bound selfish) = Returned (Some 2, None) s1 /\
     instances (container s1) !! "selfish" = Some (Some 1)).
Proof.
  split.
  - eexists _, _. split; [reflexivity|].
    split; [vm_compute; reflexivity|vm_compute; reflexivity].
  - eexists. split; [reflexivity|]. split; [reflexivity|].
    split; [vm_compute; reflexivity|reflexivity].
Qed.

(** C5 as stated fails on [cell'] bound over [cell] once "cell" is cached:
    the eager attempt of [Bind] fails, the instance of [cell] stays cached,
    and the next [Make] returns it and runs no hook, so that the pipeline is
    not run again. It fails on [greedy] as well, whose factory resolves
    "greedy" itself before it returns an error: after the [Make] that
    returned the error an instance is cached. *)
Lemma failed_attempt_caches_nothing_counterexample :
  (exists s1 s2,
     Make (this 0) "cell" (bound cell) = Returned (Some 0, None) s1 /\
     IsDefer cell' = false /\
     Bind (this 0) cell' s1 = Returned (Some (errors_New "no cell")) s2 /\
     Make (this 0) "cell" s2 = Returned (Some 0, None) s2) /\
  (exists s1,
     instances (container (bound greedy)) !! "greedy" = None /\
     Make (this 1) "greedy" (bound greedy) =
       Returned (None, Some (errors_New "gave up")) s1 /\
     instances (container s1) !! "greedy" = Some (Some 42) /\
     Make (this 1) "greedy" s1 = Returned (Some 42, None) s1).
Proof.
  split.
  - eexists _, _. split; [vm_compute; reflexivity|]. split; [reflexivity|].
    split; [vm_compute; reflexivity|vm_compute; reflexivity].
  - eexists. split; [reflexivity|]. split; [vm_compute; reflexivity|].
    split; [reflexivity|vm_compute; reflexivity].
Qed.

End corner_examples.

(** * Further properties of the container *)

Section further.

Context {V W P : Type} `{!@ServiceProvider V W P} `{!EqDecision P}.

#[local] Abbreviation State := (@State V W P).
#[local] Abbreviation Container := (@Container V W P).
#[local] Abbreviation Event := (@Event V P).
#[local] Abbreviation Prog := (@Prog V W P).
#[local] Abbreviation iface := (@iface V).
#[local] Abbreviation slice := (@slice V).
#[local] Abbreviation result := (@result V).

(** ** What every call keeps *)

#[local] Instance kept_refl : Reflexive (@kept V W P _).
Proof. intros s. by split. Qed.

#[local] Instance kept_trans : Transitive (@kept V W P _).
Proof.
  intros s1 s2 s3 [Hl Hn Hp Hi] [Hl' Hn' Hp' Hi']. split.
  - congruence.
  - auto.
  - intros Hr. rewrite Hp' by by rewrite Hl. by apply Hp.
  - intros Hr k i Hk. apply Hi'; [by rewrite Hl|]. by apply Hi.
Qed.

Lemma kept_set_world (w : W) (s : State) : kept s (set_world w s).
Proof. by split. Qed.

Lemma kept_log (ev : Event) (s : State) : kept s (log ev s).
Proof. by split. Qed.

Lemma kept_rlocked (s s' : State) :
  kept (rlocked s) s' ->
  lock (container (runlocked s')) = lock (container s) /\
  (named s -> named (runlocked s')) /\
  providers (container (runlocked s')) = providers (container s) /\
  (forall k i, instances (container s) !! k = Some i ->
     instances (container (runlocked s')) !! k = Some i).
Proof.
  intros [Hl Hn Hp Hi]. simpl in Hl, Hp, Hi. split; [|split; [|split]].
  - simpl. rewrite Hl. by destruct (lock (container s)).
  - apply Hn.
  - apply Hp. lia.
  - apply Hi. lia.
Qed.

Lemma kept_rlocked_l (s s' : State) : kept (rlocked s) s' -> kept s (runlocked s').
Proof. intros (Hl & Hn & Hp & Hi)%kept_rlocked. by split. Qed.

Lemma kept_cache (key : string) (ins : iface) (s0 s : State) :
  kept s0 s -> instances (container s0) !! key = None -> kept s0 (cache key ins s).
Proof.
  intros [Hl Hn Hp Hi] Hk. split; [done|done|done|].
  intros Hr k i Hki. simpl. rewrite lookup_insert_ne by congruence. by apply Hi.
Qed.

Lemma kept_cache_idle (key : string) (ins : iface) (s0 s : State) :
  kept s0 s -> idle s0 -> kept s0 (cache key ins s).
Proof.
  unfold idle. intros [Hl Hn Hp Hi] Hu. split; [done|done|..]; rewrite Hu; simpl; lia.
Qed.

Lemma kept_installed (provider : P) (s : State) : idle s -> kept s (installed provider s).
Proof.
  unfold idle. intros Hu. split; [done|apply named_installed|..]; rewrite Hu; simpl; lia.
Qed.

Lemma after_keeping {A} (m : M State A) (s0 s : State) (Q : A -> State -> Prop) E :
  keeping m -> kept s0 s ->
  (forall a s', kept s0 s' -> Q a s') ->
  (forall msg s', kept s0 s' -> E msg s') ->
  after m s Q E.
Proof.
  intros Hm Hg HQ HE. eapply after_mono; [apply Hm| |]; simpl; intros.
  - apply HQ. by etrans.
  - apply HE. by etrans.
Qed.

Lemma run_keeping (c : Container) {R} (m : Prog R) : careful c -> keeping (run c m).
Proof.
  intros Hc. induction m as [r|k IH|w k IH|p k IH|key k IH|key k IH|key k IH|key ps k IH];
    intros s; simpl.
  - by apply after_ret.
  - exact (IH (world s) s).
  - eapply after_mono; [exact (IH (set_world w s))| |]; simpl; intros;
      (etrans; [apply kept_set_world|done]).
  - apply after_bind. apply (after_keeping _ s); [apply (careful_Bind _ Hc)|done| |done].
    intros r s' Hk. by apply (after_keeping _ s).
  - apply after_bind. apply (after_keeping _ s); [apply (careful_IsBind _ Hc)|done| |done].
    intros r s' Hk. by apply (after_keeping _ s).
  - apply after_bind. apply (after_keeping _ s); [apply (careful_Make _ Hc)|done| |done].
    intros r s' Hk. by apply (after_keeping _ s).
  - apply after_bind. apply (after_keeping _ s); [apply (careful_MustMake _ Hc)|done| |done].
    intros r s' Hk. by apply (after_keeping _ s).
  - apply after_bind. apply (after_keeping _ s); [apply (careful_MakeNew _ Hc)|done| |done].
    intros r s' Hk. by apply (after_keeping _ s).
Qed.

(** A hook the container runs after logging its invocation. *)
Lemma hook_keeping (c : Container) {R B} (ev : Event) (m : Prog R) (f : R -> M State B)
    (s0 s : State) (Q : B -> State -> Prop) E :
  careful c -> kept s0 s ->
  (forall r s', kept s0 s' -> after (f r) s' Q E) ->
  (forall msg s', kept s0 s' -> E msg s') ->
  after (modify (log ev) ;; let* r := run c m in f r) s Q E.
Proof.
  intros Hc Hk Hf HE. apply after_bind, after_modify, after_bind.
  apply (after_keeping _ s0); [by apply run_keeping| |done..].
  etrans; [done|apply kept_log].
Qed.

Lemma newInstance_keeping (self : Container) (sp : P) (params : slice) :
  careful self -> keeping (newInstance self sp params).
Proof.
  intros Hc s. unfold newInstance.
  apply (hook_keeping self _ _ _ s); [done..| |done].
  intros [e|] s1 H1; [by apply after_ret|].
  apply after_bind.
  assert (after
    match params with
    | Some _ => ret params
    | None => modify (log (AskedParams sp));; run self (Params sp)
    end s1 (fun _ s' => kept s s') (fun _ s' => kept s s')) as Hps.
  { destruct params.
    - by apply after_ret.
    - apply after_bind, after_modify.
      apply (after_keeping _ s); [by apply run_keeping| |done|done].
      etrans; [done|apply kept_log]. }
  eapply after_mono; [apply Hps| |done]. simpl. intros ps s2 H2.
  apply (hook_keeping self _ _ _ s); [done..| |done].
  intros method s3 H3.
  apply (hook_keeping self _ _ _ s); [done..| |done].
  intros [ins [e|]] s4 H4; by apply after_ret.
Qed.

Lemma make_fresh_keeping (self : Container) (key : string) (sp : P) (s : State) :
  careful self ->
  instances (container s) !! key = None ->
  after (make_fresh self key sp) s (fun _ s' => kept s s') (fun _ s' => kept s s').
Proof.
  intros Hc Hk. unfold make_fresh.
  apply after_bind.
  eapply after_mono; [by apply newInstance_keeping| |done]. simpl.
  intros [inst [e|]] s1 H1; [by apply after_ret|].
  apply after_bind, after_modify, after_ret. by apply kept_cache.
Qed.

(** [make] under its read lock. *)
Lemma make_kept (self : Container) (key : string) (params : slice) (forceNew : bool)
    (s : State) :
  careful self ->
  after (make self key params forceNew) s
    (fun _ s' => exists s1, kept (rlocked s) s1 /\ s' = runlocked s1)
    (fun _ s' => exists s1, kept (rlocked s) s1 /\ s' = runlocked s1).
Proof.
  intros Hc. unfold after.
  assert (exists s1, kept (rlocked s) s1 /\ s = runlocked s1) as Hs.
  { exists (rlocked s). split; [done|]. by rewrite runlocked_rlocked. }
  destruct (writer (lock (container s))) eqn:Hw; [by rewrite make_locked|].
  rewrite make_eq by done.
  destruct (providers (container s) !! key) as [sp|] eqn:Hsp; [|done].
  destruct forceNew.
  - apply (after_released (newInstance self sp params) s
             (fun _ s' => exists s1, kept (rlocked s) s1 /\ s' = runlocked s1)
             (fun _ s' => exists s1, kept (rlocked s) s1 /\ s' = runlocked s1)).
    eapply after_mono; [by apply newInstance_keeping| |]; simpl; eauto.
  - destruct (instances (container s) !! key) as [ins|] eqn:Hi; [done|].
    apply (after_released (make_fresh self key sp) s
             (fun _ s' => exists s1, kept (rlocked s) s1 /\ s' = runlocked s1)
             (fun _ s' => exists s1, kept (rlocked s) s1 /\ s' = runlocked s1)).
    eapply after_mono; [by apply make_fresh_keeping| |]; simpl; eauto.
Qed.

Lemma make_keeping (self : Container) (key : string) (params : slice) (forceNew : bool) :
  careful self -> keeping (make self key params forceNew).
Proof.
  intros Hc s. eapply after_mono; [by apply make_kept| |]; simpl;
    intros ? s' (s1 & Hk & ->); by apply kept_rlocked_l.
Qed.

Lemma MustMake_keeping (self : Container) (key : string) :
  careful self -> keeping (MustMake self key).
Proof.
  intros Hc s. unfold MustMake. apply after_bind.
  eapply after_mono; [by apply make_keeping| |done]. simpl.
  intros [serv [e|]] s1 H1; [by apply after_panic|by apply after_ret].
Qed.

Lemma IsBind_keeping (key : string) : keeping (@IsBind V W P key).
Proof.
  intros s. unfold after.
  destruct (writer (lock (container s))) eqn:Hw.
  - unfold IsBind, bind. by rewrite findServiceProvider_locked.
  - by rewrite IsBind_eq.
Qed.

Lemma Bind_eager_keeping (self : Container) (provider : P) (s : State) :
  careful self -> idle s ->
  after (Bind_eager self provider) s (fun _ s' => kept s s') (fun _ s' => kept s s').
Proof.
  intros Hc Hu. unfold Bind_eager.
  apply (hook_keeping self _ _ _ s); [done..| |done].
  intros [e|] s1 H1; [by apply after_ret|].
  apply (hook_keeping self _ _ _ s); [done..| |done].
  intros ps s2 H2.
  apply (hook_keeping self _ _ _ s); [done..| |done].
  intros method s3 H3.
  apply (hook_keeping self _ _ _ s); [done..| |done].
  intros [ins [e|]] s4 H4; [by apply after_ret|].
  apply after_bind, after_modify, after_ret. by apply kept_cache_idle.
Qed.

Lemma Bind_keeping (self : Container) (provider : P) :
  careful self -> keeping (Bind self provider).
Proof.
  intros Hc s. unfold after.
  destruct (decide (lock (container s) = unlocked)) as [Hl|Hl];
    [|by rewrite Bind_locked].
  rewrite Bind_eq by done.
  destruct (IsDefer provider); [by apply kept_installed|].
  eapply after_mono; [by apply (Bind_eager_keeping self provider (installed provider s))| |];
    simpl; intros; (etrans; [by apply kept_installed|done]).
Qed.

Lemma this_careful (n : nat) : careful (this n).
Proof.
  induction n as [|n IH]; split; simpl; intros; try done.
  - apply IsBind_keeping.
  - by apply Bind_keeping.
  - apply IsBind_keeping.
  - by apply make_keeping.
  - by apply MustMake_keeping.
  - by apply make_keeping.
Qed.

Lemma after_state_after {A} (m : M State A) (s s' : State) (R : State -> Prop) :
  after m s (fun _ s1 => R s1) (fun _ s1 => R s1) -> state_after (m s) = Some s' -> R s'.
Proof. unfold after. destruct (m s); simpl; intros; by simplify_eq. Qed.

Lemma perform_kept (n : nat) (c : Call) (s s' : State) :
  perform n c s = Some s' -> kept s s'.
Proof.
  destruct c; simpl; apply (after_state_after _ s s' (kept s)).
  - apply Bind_keeping, this_careful.
  - apply IsBind_keeping.
  - apply make_keeping, this_careful.
  - apply MustMake_keeping, this_careful.
  - apply make_keeping, this_careful.
Qed.

Lemma reachable_named (s : State) : reachable s -> named s.
Proof.
  induction 1 as [w|n c s s' Hr Hn Hp].
  - apply map_Forall_empty.
  - by apply (kept_named _ _ (perform_kept n c s s' Hp)).
Qed.

(** [make] changes no provider and no cached instance, whatever the hooks
    do under its read lock. *)
Lemma make_adds (self : Container) (key : string) (params : slice) (forceNew : bool)
    (s : State) :
  careful self ->
  after (make self key params forceNew) s
    (fun _ s' =>
       providers (container s') = providers (container s) /\
       forall k i, instances (container s) !! k = Some i ->
                   instances (container s') !! k = Some i)
    (fun _ s' =>
       providers (container s') = providers (container s) /\
       forall k i, instances (container s) !! k = Some i ->
                   instances (container s') !! k = Some i).
Proof.
  intros Hc. eapply after_mono; [by apply make_kept| |]; simpl;
    intros ? s' (s1 & Hk & ->); by apply kept_rlocked in Hk as (_ & _ & ? & ?).
Qed.

(** ** The lock *)

(** X1. For providers whose [Name()] returns, and whatever the hooks do, a
    call that returns or panics leaves the lock as it found it: [Unlock]
    follows [Lock] before any hook runs, and the deferred [RUnlock] of
    [make] and of [findServiceProvider] runs on a panic as well. No call
    gets that far while the write lock is held, and [Bind] only when the
    lock is not held at all. [Bind] calls [provider.Name()] between [Lock]
    and [Unlock], though, and the [Unlock] is not deferred: [Bind(nil)]
    panics there and leaves the write lock held, so that every call that
    follows blocks. The older copy defers the [Unlock] and releases the
    lock. *)
Theorem calls_release_the_lock (n : nat) (c : Call) (s : State) :
  (forall s' : State,
     perform n c s = Some s' ->
     lock (container s') = lock (container s) /\
     writer (lock (container s)) = false /\
     (resolves c = false -> idle s)) /\
  (idle s ->
   Bind_nil s = Panicked nil_dereference (wlocked s) /\
   perform n c (wlocked s) = None /\
   Bind_nil (wlocked s) = Deadlock /\
   Older.Bind_nil s = Panicked nil_dereference s).
Proof.
  assert (forall s0 : State,
            writer (lock (container s0)) = true -> perform n c s0 = None) as Hheld.
  { intros s0 Hw. destruct c; simpl.
    - rewrite Bind_locked; [done|]. intros Hu. by rewrite Hu in Hw.
    - unfold IsBind, bind. by rewrite findServiceProvider_locked.
    - unfold Make. by rewrite make_locked.
    - by rewrite MustMake_make, make_locked.
    - unfold MakeNew. by rewrite make_locked. }
  split.
  - intros s' Hp. split; [by apply grows_lock, (perform_grows n c)|]. split.
    + destruct (writer (lock (container s))) eqn:Hw; [|done].
      by rewrite Hheld in Hp.
    + destruct c; try done. intros _. simpl in Hp.
      destruct (decide (lock (container s) = unlocked)); [done|].
      by rewrite Bind_locked in Hp.
  - unfold idle. intros Hu. split; [|split; [by apply Hheld|split]].
    + unfold Bind_nil, bind, lock_Lock. by rewrite Hu.
    + done.
    + unfold Older.Bind_nil, bind, lock_Lock, defer, panic, lock_Unlock, modify.
      rewrite Hu. simpl. f_equal.
      destruct s as [[ps ins lk] w t]. simpl in Hu. by subst lk.
Qed.

(** ** What resolving a service leaves alone *)

(** X2. No call removes a cached instance. [IsBind], [Make], [MustMake] and
    [MakeNew] moreover leave [providers] exactly as it was and every cached
    instance in its place, whatever the hooks of the providers do: under
    the read lock of [make] a hook can resolve other services, which adds
    instances, but every [Bind] it tries blocks. *)
Theorem resolution_only_adds (n : nat) (c : Call) (s s' : State) :
  perform n c s = Some s' ->
  (forall k, is_Some (instances (container s) !! k) ->
             is_Some (instances (container s') !! k)) /\
  (resolves c = true ->
   providers (container s') = providers (container s) /\
   forall k i, instances (container s) !! k = Some i ->
               instances (container s') !! k = Some i).
Proof.
  intros Hp. split; [by apply grows_instances, (perform_grows n c)|].
  intros Hc. revert Hp.
  destruct c as [p|key|key|key|key params]; [done|..]; simpl;
    apply (after_state_after _ s s'
             (fun s' => providers (container s') = providers (container s) /\
                        forall k i, instances (container s) !! k = Some i ->
                                    instances (container s') !! k = Some i)).
  - unfold after. destruct (writer (lock (container s))) eqn:Hw.
    + unfold IsBind, bind. by rewrite findServiceProvider_locked.
    + by rewrite IsBind_eq.
  - apply make_adds, this_careful.
  - unfold MustMake. apply after_bind.
    eapply after_mono; [apply make_adds, this_careful| |done]. simpl.
    intros [serv [e|]] s1 H1; [by apply after_panic|by apply after_ret].
  - apply make_adds, this_careful.
Qed.

(** X3. A provider whose [Boot] binds another provider can only be instantiated
    by [Bind] itself. [MakeNew], and [Make] and [MustMake] when no instance
    is cached, run [Boot] under the read lock of [make], where the [Lock] of
    the nested [Bind] blocks for ever. When the lock is not held, as in the
    eager path of [Bind], the nested [Bind] of a deferred provider goes
    through and [Boot] carries on with a nil error. *)
Theorem Bind_in_Boot_blocks_Make (n : nat) (key : string) (sp q : P)
    (k : option error -> Prog (option error)) (s : State) :
  providers (container s) !! key = Some sp ->
  Boot sp = DoBind q k ->
  (forall params, MakeNew (this (S n)) key params s = Deadlock) /\
  (instances (container s) !! key = None ->
   Make (this (S n)) key s = Deadlock /\ MustMake (this (S n)) key s = Deadlock) /\
  (forall s0, idle s0 -> IsDefer q = true ->
     run (this (S n)) (Boot sp) s0 = run (this (S n)) (k None) (installed q s0)).
Proof.
  intros Hsp Hb.
  assert (forall params s0, newInstance (this (S n)) sp params (rlocked s0) = Deadlock) as Hni.
  { intros params s0. unfold newInstance. unfold bind at 1, modify at 1. unfold bind at 1.
    by rewrite Hb. }
  assert (forall params forceNew,
            (forceNew = false -> instances (container s) !! key = None) ->
            make (this (S n)) key params forceNew s = Deadlock) as Hmk.
  { intros params forceNew Hc.
    destruct (writer (lock (container s))) eqn:Hw; [by rewrite make_locked|].
    rewrite make_eq, Hsp by done. destruct forceNew.
    - by rewrite Hni.
    - rewrite Hc by done. unfold make_fresh, bind at 1. by rewrite Hni. }
  split; [|split].
  - intros params. by apply Hmk.
  - intros Hc. split; [by apply Hmk|]. rewrite MustMake_make. by rewrite Hmk.
  - intros s0 Hu Hd. rewrite Hb. simpl. unfold bind at 1. by rewrite Bind_deferred.
Qed.

(** ** The providers and their listings *)

(** X4. In every state that calls reach from a new container, whatever the
    hooks do, a provider is filed under its own name, since [Bind] files it
    under [provider.Name()]: the provider that [findServiceProvider] finds
    for a key has that key as its name. *)
Theorem providers_are_filed_by_name (s : State) (key : string) (sp : P) :
  reachable s ->
  providers (container s) !! key = Some sp ->
  Name sp = key /\ findServiceProvider key s = Returned (Some sp) s.
Proof.
  intros Hr Hsp. split.
  - apply (named_lookup s key sp); [by apply reachable_named|done].
  - rewrite findServiceProvider_eq, Hsp; [done|].
    by apply idle_writer, reachable_wf_idle.
Qed.

Lemma NameList_loop_fmap (entries : list (string * P)) :
  NameList_loop entries = (fun entry => Name (snd entry)) <$> entries.
Proof.
  unfold NameList_loop.
  assert (forall acc : list string,
            foldl (fun ret entry => let name := Name (snd entry) in ret ++ [name]) acc entries
            = acc ++ ((fun entry => Name (snd entry)) <$> entries)) as Hgen.
  { induction entries as [|entry entries IH]; intros acc; simpl.
    - by rewrite app_nil_r.
    - by rewrite IH, <-app_assoc. }
  apply Hgen.
Qed.

Lemma PrintProviders_loop_NameList_loop (entries : list (string * P)) :
  PrintProviders_loop entries = NameList_loop entries.
Proof. done. Qed.

(** The names in the order [range] visits the entries are the keys, when
    the providers are filed under their names. *)
Lemma NameList_loop_keys (s : State) (entries : list (string * P)) :
  named s -> ranges (providers (container s)) entries ->
  NameList_loop entries ≡ₚ (map_to_list (providers (container s))).*1.
Proof.
  intros Hn Hr. rewrite NameList_loop_fmap, Hr.
  assert ((fun entry => Name (snd entry)) <$> map_to_list (providers (container s))
          = (map_to_list (providers (container s))).*1) as ->; [|done].
  apply Forall_fmap_ext, Forall_forall.
  intros [k p] Hin%elem_of_map_to_list. simpl. by apply (named_lookup s).
Qed.

(** X5. [NameList] and [PrintProviders] return, on a container that calls
    reached from a new one, the keys that have a provider: each key for
    which [IsBind] is true occurs in the list, exactly once, and nothing
    else does. The order is that of the iteration over the map. *)
Theorem listings_are_the_bound_keys (s : State) (ret : list string) :
  reachable s ->
  NameList s ret \/ PrintProviders s ret ->
  NoDup ret /\
  length ret = size (providers (container s)) /\
  forall key, key ∈ ret <-> IsBind key s = Returned true s.
Proof.
  intros Hr Hl.
  assert (ret ≡ₚ (map_to_list (providers (container s))).*1) as Hret.
  { destruct Hl as [(entries & He & ->)|(entries & He & ->)];
      rewrite ?PrintProviders_loop_NameList_loop;
      by apply NameList_loop_keys; [apply reachable_named|]. }
  split; [|split].
  - rewrite Hret. apply NoDup_fst_map_to_list.
  - by rewrite Hret, length_fmap, length_map_to_list.
  - intros key. rewrite Hret, IsBind_eq by by apply idle_writer, reachable_wf_idle.
    rewrite list_elem_of_fmap. split.
    + intros ([k p] & -> & Hin%elem_of_map_to_list). simpl.
      f_equal. apply bool_decide_eq_true. eauto.
    + intros [= [p Hp]%bool_decide_eq_true]. exists (key, p). split; [done|].
      by apply elem_of_map_to_list.
Qed.

(** ** Singletons *)

(** The attempt without caller parameters that returns an instance: the
    instance is the one the factory returned on the output of [Params]. *)
Lemma attempt_of_default_nil (c : Container) (sp : P) (s s' : State) (ins : iface)
    (evs : list Event) :
  attempt_of c sp s None (ins, None) evs s' ->
  exists (ps : slice) (method : slice -> Prog result) (s1 s2 s3 : State),
    run c (Boot sp) (log (Booted sp) s) = Returned None s1 /\
    run c (Params sp) (log (AskedParams sp) s1) = Returned ps s2 /\
    run c (Register sp) (log (Registered sp) s2) = Returned method s3 /\
    run c (method ps) (log (Invoked sp ps) s3) = Returned (ins, None) s'.
Proof.
  intros Ha. remember None as params eqn:Hp. remember (ins, None) as r eqn:Hr.
  destruct Ha as [params e s1 Hb|l s1 s2 s3 method ins0 err Hb Hreg Hm
                 |ps s1 s2 s3 s4 method ins0 err Hb Hps Hreg Hm]; [done|done|].
  destruct err as [e|]; simpl in Hr; [done|]. injection Hr as <-.
  by exists ps, method, s1, s2, s3.
Qed.

(** X6. Once [Bind] of a provider that is not deferred has returned nil, the
    instance its factory returned is cached under the name of the provider:
    [Bind] ran [Boot], [Params], [Register] and the factory on the output of
    [Params], each from the state the one before left, and the state it
    leaves is the one the factory left with the instance of the factory in
    the cache. Every [Make] and [MustMake] for that name returns that
    instance and changes nothing, so that no hook runs again. The factory
    has then run once, when no hook resolved or bound the name itself
    during [Bind]. *)
Theorem eager_Bind_caches (n : nat) (provider : P) (s s' : State) :
  IsDefer provider = false ->
  Bind (this n) provider s = Returned None s' ->
  exists (ins : iface) (ps : slice) (method : slice -> Prog result) (s1 s2 s3 s4 : State),
    run (this n) (Boot provider) (log (Booted provider) (installed provider s))
      = Returned None s1 /\
    run (this n) (Params provider) (log (AskedParams provider) s1) = Returned ps s2 /\
    run (this n) (Register provider) (log (Registered provider) s2) = Returned method s3 /\
    run (this n) (method ps) (log (Invoked provider ps) s3) = Returned (ins, None) s4 /\
    s' = cache (Name provider) ins s4 /\
    (forall m,
       Make (this m) (Name provider) s' = Returned (ins, None) s' /\
       MustMake (this m) (Name provider) s' = Returned ins s') /\
    (named s ->
     Bind (guarded (Name provider) n) provider s = Returned None s' ->
     factory_runs provider (trace s') = factory_runs provider (trace s) + 1).
Proof.
  intros Hd Hb.
  assert (idle s) as Hu.
  { destruct (decide (lock (container s) = unlocked)); [done|].
    by rewrite Bind_locked in Hb. }
  pose proof Hb as Hb'.
  rewrite Bind_eq, Hd, Bind_eager_newInstance in Hb' by done.
  apply bind_Returned in Hb' as ([inst [e|]] & s4 & Hni & Hb'); [done|].
  injection Hb' as <-.
  pose proof (newInstance_growing (this n) provider None (this_sound n) (installed provider s))
    as Hg.
  unfold after in Hg. rewrite Hni in Hg.
  assert (is_Some (providers (container s4) !! Name provider)) as [sp Hsp].
  { apply (grows_providers _ _ Hg). simpl. rewrite lookup_insert_eq. eauto. }
  assert (writer (lock (container s4)) = false) as Hw.
  { rewrite (grows_lock _ _ Hg). simpl. by rewrite Hu. }
  apply newInstance_inv in Hni as [evs Ha].
  apply attempt_of_default_nil in Ha as (ps & method & s1 & s2 & s3 & Hboot & Hps & Hreg & Hm).
  exists inst, ps, method, s1, s2, s3, s4.
  split; [done|]. split; [done|]. split; [done|]. split; [done|]. split; [done|]. split.
  - intros m.
    assert (Make (this m) (Name provider) (cache (Name provider) inst s4)
            = Returned (inst, None) (cache (Name provider) inst s4)) as HM.
    { apply (Make_cached _ _ sp); [done|done|]. simpl. by rewrite lookup_insert_eq. }
    unfold cache in HM. split; [exact HM|]. rewrite MustMake_make.
    change (make (this m) (Name provider) None false) with (Make (this m) (Name provider)).
    by rewrite HM.
  - intros Hn Hgd.
    destruct (Bind_guarded n provider s _ None Hu Hn Hd Hgd)
      as (_ & ins & evs' & s5 & Ha & Hmv & Hs).
    destruct (moved_counts provider evs' _ _ Hmv) as [_ Hf].
    destruct (attempt_of_counts _ _ _ _ _ _ _ Ha) as (_ & _ & Hone).
    rewrite Hs. simpl. simpl in Hf. rewrite Hf, Hone; done.
Qed.

Lemma attempt_of_given_nil (c : Container) (sp : P) (l : list V) (s s' : State)
    (ins : iface) (evs : list Event) :
  attempt_of c sp s (Some l) (ins, None) evs s' ->
  evs = [Booted sp; Registered sp; Invoked sp (Some l)].
Proof.
  intros Ha. remember (Some l) as params eqn:Hp. remember (ins, None) as r eqn:Hr.
  destruct Ha as [params e s1 Hb|l0 s1 s2 s3 method ins0 err Hb Hreg Hm
                 |ps s1 s2 s3 s4 method ins0 err Hb Hps Hreg Hm]; by simplify_eq.
Qed.

(** X7. Two [MakeNew] with the same parameters that both return an instance
    run [Boot], [Register] and the factory twice, the factory on the
    parameters given both times and [Params] never; the cached instance of
    the key is after them what it was before. This is so when no hook
    resolves or binds the key itself during the calls. *)
Theorem MakeNew_twice (n m : nat) (key : string) (sp : P) (l : list V)
    (s s1 s2 : State) (i1 i2 : iface) :
  idle s ->
  named s ->
  providers (container s) !! key = Some sp ->
  MakeNew (guarded key n) key (Some l) s = Returned (i1, None) s1 ->
  MakeNew (guarded key m) key (Some l) s1 = Returned (i2, None) s2 ->
  MakeNew (this n) key (Some l) s = Returned (i1, None) s1 /\
  MakeNew (this m) key (Some l) s1 = Returned (i2, None) s2 /\
  (exists t,
     trace s2 = trace s ++ t /\
     own key t = [Booted sp; Registered sp; Invoked sp (Some l);
                  Booted sp; Registered sp; Invoked sp (Some l)]) /\
  factory_runs sp (trace s2) = factory_runs sp (trace s) + 2 /\
  instances (container s2) !! key = instances (container s) !! key.
Proof.
  intros Hu Hn Hsp H1 H2.
  destruct (MakeNew_guarded n key sp _ s s1 _ (idle_writer s Hu) Hn Hsp H1)
    as (HM1 & evs1 & s1' & Ha1 & _ & Hmv1).
  apply attempt_of_given_nil in Ha1 as ->.
  assert (providers (container s1) !! key = Some sp) as Hsp1.
  { by rewrite (moved_providers _ _ _ _ Hmv1). }
  destruct (MakeNew_guarded m key sp _ s1 s2 _
              (idle_writer s1 (moved_idle _ _ _ _ Hmv1 Hu)) (moved_named _ _ _ _ Hmv1 Hn)
              Hsp1 H2)
    as (HM2 & evs2 & s2' & Ha2 & _ & Hmv2).
  apply attempt_of_given_nil in Ha2 as ->.
  pose proof (moved_trans _ _ _ _ _ _ Hmv1 Hmv2) as Hmv.
  split; [done|]. split; [done|]. split; [apply (moved_trace _ _ _ _ Hmv)|]. split.
  - pose proof (named_lookup s key sp Hn Hsp) as <-.
    destruct (moved_counts sp _ _ _ Hmv) as [_ ->].
    unfold factory_runs. simpl. by rewrite !bool_decide_eq_true_2.
  - apply (moved_instances _ _ _ _ Hmv).
Qed.

(** ** Errors *)

(** X8. [Make] and [MakeNew] never return an instance together with an error:
    with an error comes the nil instance, also when the factory returned
    both. *)
Theorem an_error_carries_no_instance (self : Container) (key : string) (params : slice)
    (forceNew : bool) (s s' : State) (ins : iface) (e : error) :
  make self key params forceNew s = Returned (ins, Some e) s' -> ins = None.
Proof.
  intros Hm.
  destruct (writer (lock (container s))) eqn:Hw; [by rewrite make_locked in Hm|].
  rewrite make_eq in Hm by done.
  destruct (providers (container s) !! key) as [sp|]; [|by simplify_eq].
  destruct forceNew.
  - apply released_Returned in Hm as (s1 & (evs & Ha)%newInstance_inv & _).
    by eapply attempt_of_error.
  - destruct (instances (container s) !! key) as [i|]; [done|].
    apply released_Returned in Hm as (s1 & Hm & _).
    unfold make_fresh in Hm.
    apply bind_Returned in Hm as ([inst [e0|]] & s2 & _ & Hm);
      cbv [bind modify ret] in Hm; by simplify_eq.
Qed.

(** X9. [MustMake] panics on every error of [make], and always with the message
    "container not contain key <key>": also for a key that has a provider,
    whose [Boot] or factory failed. The error itself is dropped. The panic
    leaves the lock released. *)
Theorem MustMake_panics_on_any_error (n : nat) (key : string) (sp : P) (s s' : State)
    (ins : iface) (e : error) :
  idle s ->
  providers (container s) !! key = Some sp ->
  Make (this n) key s = Returned (ins, Some e) s' ->
  MustMake (this n) key s = Panicked ("container not contain key " +:+ key) s' /\
  IsBind key s' = Returned true s' /\
  idle s'.
Proof.
  intros Hu Hsp Hm.
  pose proof (make_growing (this n) key None false (this_sound n) s) as Hg.
  unfold after in Hg. unfold Make in Hm. rewrite Hm in Hg.
  pose proof (grows_idle _ _ Hg Hu) as Hu'.
  split; [|split; [|done]].
  - by rewrite MustMake_make, Hm.
  - rewrite IsBind_eq by by apply idle_writer. f_equal.
    apply bool_decide_eq_true, (grows_providers _ _ Hg). eauto.
Qed.

(** ** Binding deferred providers *)

(** X10. [Bind] of deferred providers only files them: binding the same provider
    twice is binding it once, and providers of different names can be bound
    in either order. *)
Theorem deferred_Binds_commute (n : nat) (p q : P) (s : State) :
  idle s ->
  IsDefer p = true ->
  IsDefer q = true ->
  (Bind (this n) p ;; Bind (this n) p) s = Bind (this n) p s /\
  (Name p <> Name q ->
   (Bind (this n) p ;; Bind (this n) q) s = (Bind (this n) q ;; Bind (this n) p) s).
Proof.
  intros Hu Hp Hq. unfold bind. rewrite !Bind_deferred by done. split.
  - f_equal. unfold installed, set_providers. simpl. by rewrite insert_insert_eq.
  - intros Hne. f_equal. unfold installed, set_providers. simpl.
    by rewrite insert_insert_ne.
Qed.

(** ** The older copy of the container *)

Lemma aloof_sound : sound (@aloof V W P).
Proof. by split. Qed.

(** A hook that returns without calling the container returns the same with
    any receiver. *)
Lemma run_aloof (c : Container) {R} (m : Prog R) (s s' : State) (r : R) :
  run aloof m s = Returned r s' -> run c m s = Returned r s'.
Proof.
  revert s. induction m as [r0|k IH|w k IH|p k IH|key k IH|key k IH|key k IH|key ps k IH];
    simpl; intros s Hr; try done.
  - by apply IH.
  - by apply IH.
Qed.

Lemma attempt_of_aloof (c : Container) (sp : P) (params : slice) (s s' : State)
    (r : result) (evs : list Event) :
  attempt_of aloof sp s params r evs s' -> attempt_of c sp s params r evs s'.
Proof.
  destruct 1; [eapply attempt_Boot_fails|eapply attempt_given|eapply attempt_default];
    eauto using run_aloof.
Qed.

Lemma Bind_aloof (c : Container) (provider : P) (s s' : State) (r : option error) :
  Bind aloof provider s = Returned r s' -> Bind c provider s = Returned r s'.
Proof.
  intros Hb. destruct (decide (lock (container s) = unlocked)) as [Hu|Hu];
    [|by rewrite Bind_locked in Hb].
  rewrite Bind_eq in Hb |- * by done. destruct (IsDefer provider); [done|].
  rewrite Bind_eager_newInstance in Hb |- *.
  apply bind_Returned in Hb as ([inst err] & s1 & (evs & Ha)%newInstance_inv & Hb).
  unfold bind at 1.
  by rewrite (attempt_of_newInstance _ _ _ _ _ _ _ (attempt_of_aloof c _ _ _ _ _ _ Ha)).
Qed.

Lemma stalls_ret {A} (a : A) : stalls (ret a) (ret (St:=State) a).
Proof. done. Qed.

Lemma stalls_bind {A B} (mo m : M State A) (fo f : A -> M State B) :
  stalls mo m -> (forall a, stalls (fo a) (f a)) -> stalls (bind mo fo) (bind m f).
Proof. intros Hm Hf s. unfold bind. rewrite Hm. destruct (m s); [apply Hf|done..]. Qed.

Lemma stalls_log (ev : Event) :
  stalls (modify (St:=State) (log ev)) (modify (log ev)).
Proof. done. Qed.

Lemma stalls_set_providers (f : gmap string P -> gmap string P) :
  stalls (modify (St:=State) (set_providers f)) (modify (set_providers f)).
Proof. done. Qed.

Lemma stalls_set_instances (f : gmap string iface -> gmap string iface) :
  stalls (modify (St:=State) (set_instances f)) (modify (set_instances f)).
Proof. done. Qed.

(** Under the write lock every call of a hook blocks. *)
Lemma stalls_run (n : nat) {R} (m : Prog R) :
  stalls (run (Older.this (S n)) m) (run aloof m).
Proof.
  induction m as [r0|k IH|w k IH|p k IH|key k IH|key k IH|key k IH|key ps k IH];
    intros s; simpl.
  - done.
  - apply (IH (world s)).
  - apply (IH (set_world w s)).
  - done.
  - unfold bind, IsBind, bind. by rewrite findServiceProvider_locked.
  - unfold bind, Make. by rewrite make_locked.
  - unfold bind, Older.MustMake, bind. by rewrite make_locked.
  - unfold bind, MakeNew. by rewrite make_locked.
Qed.

(** The eager pipeline of the older [Bind], under the write lock. *)
Lemma stalls_Bind_eager (n : nat) (provider : P) :
  stalls
    (modify (log (Booted provider)) ;;
     let* err := run (Older.this (S n)) (Boot provider) in
     match err with
     | Some e => ret (Some e)
     | None =>
         modify (log (AskedParams provider)) ;;
         let* params := run (Older.this (S n)) (Params provider) in
         modify (log (Registered provider)) ;;
         let* method := run (Older.this (S n)) (Register provider) in
         modify (log (Invoked provider params)) ;;
         let* '(instance, err) := run (Older.this (S n)) (method params) in
         match err with
         | Some e => ret (Some (errors_New (Error e)))
         | None =>
             modify (set_instances (fun m => <[Name provider := instance]> m)) ;;
             ret None
         end
     end)
    (Bind_eager aloof provider).
Proof.
  unfold Bind_eager.
  apply stalls_bind; [apply stalls_log|]. intros _.
  apply stalls_bind; [apply stalls_run|]. intros [e|]; [apply stalls_ret|].
  apply stalls_bind; [apply stalls_log|]. intros _.
  apply stalls_bind; [apply stalls_run|]. intros params.
  apply stalls_bind; [apply stalls_log|]. intros _.
  apply stalls_bind; [apply stalls_run|]. intros method.
  apply stalls_bind; [apply stalls_log|]. intros _.
  apply stalls_bind; [apply stalls_run|]. intros [instance [e|]]; [apply stalls_ret|].
  apply stalls_bind; [apply stalls_set_instances|]. intros _. apply stalls_ret.
Qed.

(** Under its write lock the older [Bind] does what the present one does
    with the receiver that turns every call down. *)
Lemma older_Bind_aloof (n : nat) (provider : P) (s : State) :
  idle s ->
  Older.Bind (Older.this (S n)) provider s =
    match Bind aloof provider s with
    | Returned r s' => Returned r s'
    | _ => Deadlock
    end.
Proof.
  intros Hu.
  pose proof (Bind_growing aloof provider aloof_sound s) as Hg. unfold after in Hg.
  rewrite Bind_eq in Hg |- * by done.
  unfold Older.Bind. unfold bind at 1. unfold lock_Lock. rewrite Hu. simpl.
  change (set_lock (fun _ => {| readers := 0; writer := true |}) s) with (wlocked s).
  unfold defer.
  match goal with
  | |- context [match ?body (wlocked s) with _ => _ end] =>
      assert (stalls body
                (modify (installed provider) ;;
                 if IsDefer provider then ret None else Bind_eager aloof provider)) as Hst
  end.
  { apply stalls_bind; [apply stalls_set_providers|]. intros _.
    destruct (IsDefer provider); simpl; [apply stalls_ret|apply stalls_Bind_eager]. }
  rewrite (Hst s). unfold bind at 1, modify at 1.
  assert (forall s' : State, lock (container s') = unlocked ->
            set_lock (fun l => {| readers := readers l; writer := false |}) (wlocked s') = s')
    as Hunlock.
  { intros [[ps ins lk] w t] Hl. simpl in Hl. subst lk. done. }
  destruct (IsDefer provider).
  - unfold ret, lock_Unlock, modify. by rewrite Hunlock.
  - destruct (Bind_eager aloof provider (installed provider s)) as [r s'| | |]; try done.
    unfold lock_Unlock, modify. rewrite Hunlock; [done|].
    rewrite (grows_lock _ _ Hg). apply Hu.
Qed.

(** X11. The [Bind] of the older copy keeps the write lock while the hooks of a
    provider that is not deferred run, and every call of a hook into the
    container needs the lock: the older [Bind] does what the present [Bind]
    does as long as no hook calls the container, and blocks for ever at the
    first call a hook makes. Where it returns, the present [Bind] returns
    the same in the same state. *)
Theorem older_Bind_blocks_on_a_call (n : nat) (provider : P) (s : State) :
  idle s ->
  Older.Bind (Older.this (S n)) provider s =
    match Bind aloof provider s with
    | Returned r s' => Returned r s'
    | _ => Deadlock
    end /\
  forall (m : nat) (r : option error) (s' : State),
    Older.Bind (Older.this (S n)) provider s = Returned r s' ->
    Bind (this m) provider s = Returned r s'.
Proof.
  intros Hu. pose proof (older_Bind_aloof n provider s Hu) as Heq.
  split; [done|]. intros m r s' Hb. rewrite Heq in Hb. apply Bind_aloof.
  destruct (Bind aloof provider s); by simplify_eq.
Qed.

(** X12. [MustMake] of the older copy panics with the error [make] returned, so
    with its message: for a key without a provider that is
    "contract <key> have not register". It returns what [Make] returns with
    a nil error. *)
Theorem older_MustMake_panics_with_the_error (self : Container) (key : string) (s : State) :
  (forall (ins : iface) (e : error) (s' : State),
     Make self key s = Returned (ins, Some e) s' ->
     Older.MustMake self key s = Panicked (Error e) s') /\
  (forall (ins : iface) (s' : State),
     Make self key s = Returned (ins, None) s' ->
     Older.MustMake self key s = Returned ins s') /\
  (idle s ->
   providers (container s) !! key = None ->
   Older.MustMake self key s = Panicked ("contract " +:+ key +:+ " have not register") s).
Proof.
  unfold Make, Older.MustMake, bind. split; [|split].
  - by intros ins e s' ->.
  - by intros ins s' ->.
  - intros Hu Hk. by rewrite make_eq, Hk by by apply idle_writer.
Qed.

(** ** What makes a call block *)

Lemma cut_refl {A} (o : Outcome State A) : cut o o.
Proof. by left. Qed.

Lemma cut_bind {A B} (mo m : M State A) (fo f : A -> M State B) (s : State) :
  cut (mo s) (m s) ->
  (forall a s1, m s = Returned a s1 -> cut (fo a s1) (f a s1)) ->
  cut (bind mo fo s) (bind m f s).
Proof.
  unfold bind. intros [Heq|Hoof] Hf.
  - rewrite Heq. destruct (m s) as [a s1|msg s1| |]; [by apply Hf|by left..].
  - rewrite Hoof. by right.
Qed.

Lemma cut_released {A} (o o' : Outcome State A) : cut o o' -> cut (released o) (released o').
Proof. intros [-> | ->]; [by left|by right]. Qed.

Lemma run_cut (co c : Container) {R} (m : Prog R) (s : State) :
  shortened co c -> cut (run co m s) (run c m s).
Proof.
  intros Hc. revert s.
  induction m as [r|k IH|w k IH|p k IH|key k IH|key k IH|key k IH|key ps k IH];
    intros s; simpl.
  - apply cut_refl.
  - apply IH.
  - apply IH.
  - apply cut_bind; [apply (shortened_Bind _ _ Hc)|by intros].
  - apply cut_bind; [apply (shortened_IsBind _ _ Hc)|by intros].
  - apply cut_bind; [apply (shortened_Make _ _ Hc)|by intros].
  - apply cut_bind; [apply (shortened_MustMake _ _ Hc)|by intros].
  - apply cut_bind; [apply (shortened_MakeNew _ _ Hc)|by intros].
Qed.

Lemma newInstance_cut (co c : Container) (sp : P) (params : slice) (s : State) :
  shortened co c -> cut (newInstance co sp params s) (newInstance c sp params s).
Proof.
  intros Hc. unfold newInstance.
  apply cut_bind; [apply cut_refl|]. intros [] s0 _.
  apply cut_bind; [by apply run_cut|]. intros [e|] s1 _; [apply cut_refl|].
  apply cut_bind.
  { destruct params; [apply cut_refl|].
    apply cut_bind; [apply cut_refl|]. intros [] s2 _. by apply run_cut. }
  intros ps s2 _.
  apply cut_bind; [apply cut_refl|]. intros [] s3 _.
  apply cut_bind; [by apply run_cut|]. intros method s4 _.
  apply cut_bind; [apply cut_refl|]. intros [] s5 _.
  apply cut_bind; [by apply run_cut|]. intros [ins [e|]] s6 _; apply cut_refl.
Qed.

Lemma make_cut (co c : Container) (key : string) (params : slice) (forceNew : bool)
    (s : State) :
  shortened co c -> cut (make co key params forceNew s) (make c key params forceNew s).
Proof.
  intros Hc.
  destruct (writer (lock (container s))) eqn:Hw; [rewrite !make_locked by done; by left|].
  rewrite !make_eq by done.
  destruct (providers (container s) !! key) as [sp|]; [|apply cut_refl].
  destruct forceNew; [by apply cut_released, newInstance_cut|].
  destruct (instances (container s) !! key) as [ins|]; [apply cut_refl|].
  apply cut_released. unfold make_fresh.
  apply cut_bind; [by apply newInstance_cut|]. intros r s1 _. apply cut_refl.
Qed.

Lemma MustMake_cut (co c : Container) (key : string) (s : State) :
  shortened co c -> cut (MustMake co key s) (MustMake c key s).
Proof.
  intros Hc. unfold MustMake. apply cut_bind; [by apply make_cut|].
  intros r s1 _. apply cut_refl.
Qed.

Lemma Bind_cut (co c : Container) (provider : P) (s : State) :
  shortened co c -> cut (Bind co provider s) (Bind c provider s).
Proof.
  intros Hc.
  destruct (decide (lock (container s) = unlocked)) as [Hl|Hl];
    [|rewrite !Bind_locked by done; by left].
  rewrite !Bind_eq by done. destruct (IsDefer provider); [apply cut_refl|].
  rewrite !Bind_eager_newInstance.
  apply cut_bind; [by apply newInstance_cut|]. intros r s1 _. apply cut_refl.
Qed.

Lemma reading_shortened (n : nat) : shortened (reading n) (this n).
Proof.
  induction n as [|n IH]; split; intros;
    cbn [call_Bind call_IsBind call_Make call_MustMake call_MakeNew reading this];
    try apply cut_refl; try (by right).
  - by apply make_cut.
  - by apply MustMake_cut.
  - by apply make_cut.
Qed.

Lemma reading_careful (n : nat) : careful (reading n).
Proof.
  induction n as [|n IH]; split; simpl; intros; try done.
  - apply IsBind_keeping.
  - apply IsBind_keeping.
  - by apply make_keeping.
  - by apply MustMake_keeping.
  - by apply make_keeping.
Qed.

Lemma bind_unblocked {A B} (m : M State A) (f : A -> M State B) (s : State) :
  m s <> Deadlock ->
  (forall a s1, m s = Returned a s1 -> f a s1 <> Deadlock) ->
  bind m f s <> Deadlock.
Proof. unfold bind. intros Hm Hf. destruct (m s) as [a s1|msg s1| |]; [by apply Hf|done..]. Qed.

Lemma writer_after {A} (m : M State A) (s s' : State) (a : A) :
  keeping m -> m s = Returned a s' ->
  writer (lock (container s)) = false -> writer (lock (container s')) = false.
Proof.
  intros Hm Hr. specialize (Hm s). unfold after in Hm. rewrite Hr in Hm.
  by rewrite (kept_lock _ _ Hm).
Qed.

Lemma run_unblocked (c : Container) {R} (m : Prog R) :
  fluent c -> careful c -> unblocked (run c m).
Proof.
  intros Hf Hc.
  induction m as [r|k IH|w k IH|p k IH|key k IH|key k IH|key k IH|key ps k IH];
    intros s Hw; simpl.
  - done.
  - by apply IH.
  - by apply IH.
  - apply bind_unblocked; [by apply (fluent_Bind _ Hf)|]. intros a s1 Hr. apply IH.
    by apply (writer_after _ _ _ _ (careful_Bind _ Hc p) Hr).
  - apply bind_unblocked; [by apply (fluent_IsBind _ Hf)|]. intros a s1 Hr. apply IH.
    by apply (writer_after _ _ _ _ (careful_IsBind _ Hc key) Hr).
  - apply bind_unblocked; [by apply (fluent_Make _ Hf)|]. intros a s1 Hr. apply IH.
    by apply (writer_after _ _ _ _ (careful_Make _ Hc key) Hr).
  - apply bind_unblocked; [by apply (fluent_MustMake _ Hf)|]. intros a s1 Hr. apply IH.
    by apply (writer_after _ _ _ _ (careful_MustMake _ Hc key) Hr).
  - apply bind_unblocked; [by apply (fluent_MakeNew _ Hf)|]. intros a s1 Hr. apply IH.
    by apply (writer_after _ _ _ _ (careful_MakeNew _ Hc key ps) Hr).
Qed.

(** A hook the container runs after logging its invocation. *)
Lemma hook_unblocked (c : Container) {R B} (ev : Event) (m : Prog R) (f : R -> M State B)
    (s : State) :
  fluent c -> careful c -> writer (lock (container s)) = false ->
  (forall r s1, writer (lock (container s1)) = false -> f r s1 <> Deadlock) ->
  (modify (log ev) ;; let* r := run c m in f r) s <> Deadlock.
Proof.
  intros Hf Hc Hw Hk. apply bind_unblocked; [done|].
  intros [] s0 Hm. unfold modify in Hm. simplify_eq.
  apply bind_unblocked; [by apply run_unblocked|]. intros r s1 Hr. apply Hk.
  exact (writer_after _ _ _ _ (run_keeping c m Hc) Hr Hw).
Qed.

Lemma newInstance_unblocked (self : Container) (sp : P) (params : slice) :
  fluent self -> careful self -> unblocked (newInstance self sp params).
Proof.
  intros Hf Hc s Hw. unfold newInstance.
  apply hook_unblocked; [done..|]. intros [e|] s1 H1; [done|].
  apply bind_unblocked.
  { destruct params; [done|]. apply bind_unblocked; [done|].
    intros [] s2 Hm. unfold modify in Hm. simplify_eq. by apply run_unblocked. }
  intros ps s2 Hps.
  assert (writer (lock (container s2)) = false) as H2.
  { destruct params.
    - by injection Hps as _ <-.
    - apply bind_modify_Returned in Hps.
      exact (writer_after _ _ _ _ (run_keeping self (Params sp) Hc) Hps H1). }
  apply hook_unblocked; [done..|]. intros method s3 H3.
  apply hook_unblocked; [done..|]. by intros [ins [e|]] s4 H4.
Qed.

Lemma released_unblocked {A} (o : Outcome State A) : o <> Deadlock -> released o <> Deadlock.
Proof. by destruct o. Qed.

Lemma make_unblocked (self : Container) (key : string) (params : slice) (forceNew : bool) :
  fluent self -> careful self -> unblocked (make self key params forceNew).
Proof.
  intros Hf Hc s Hw. rewrite make_eq by done.
  destruct (providers (container s) !! key) as [sp|]; [|done].
  destruct forceNew; [by apply released_unblocked, newInstance_unblocked|].
  destruct (instances (container s) !! key) as [ins|]; [done|].
  apply released_unblocked. unfold make_fresh.
  apply bind_unblocked; [by apply newInstance_unblocked|]. by intros [inst [e|]] s1 _.
Qed.

Lemma MustMake_unblocked (self : Container) (key : string) :
  fluent self -> careful self -> unblocked (MustMake self key).
Proof.
  intros Hf Hc s Hw. unfold MustMake.
  apply bind_unblocked; [by apply make_unblocked|]. by intros [serv [e|]] s1 _.
Qed.

Lemma reading_fluent (n : nat) : fluent (reading n).
Proof.
  pose proof reading_careful as Hc.
  induction n as [|n IH]; split; intros;
    cbn [call_Bind call_IsBind call_Make call_MustMake call_MakeNew reading];
    try (by intros s Hw); try (intros s Hw; by rewrite IsBind_eq).
  - by apply make_unblocked.
  - by apply MustMake_unblocked.
  - by apply make_unblocked.
Qed.

(** X13. A call blocks only when a hook calls [Bind] (or the write lock is
    held to begin with). With the receiver that turns down every [Bind] of
    a hook, [Make], [MustMake] and [MakeNew] never block on a lock that is
    not held for writing, and [Bind] never blocks on a lock that is not
    held, however deep the hooks resolve other services: the read lock that
    [make] holds while the hooks run does not stop [IsBind], [Make],
    [MustMake] or [MakeNew] from inside a hook. And a call made with that
    receiver is the call made with the real one, or was turned down at a
    [Bind]: when the real call blocks, a hook has called [Bind]. *)
Theorem only_a_Bind_of_a_hook_blocks (n : nat) (key : string) (params : slice)
    (provider : P) (s : State) :
  writer (lock (container s)) = false ->
  (Make (reading n) key s <> Deadlock /\
   cut (Make (reading n) key s) (Make (this n) key s)) /\
  (MustMake (reading n) key s <> Deadlock /\
   cut (MustMake (reading n) key s) (MustMake (this n) key s)) /\
  (MakeNew (reading n) key params s <> Deadlock /\
   cut (MakeNew (reading n) key params s) (MakeNew (this n) key params s)) /\
  (idle s ->
   Bind (reading n) provider s <> Deadlock /\
   cut (Bind (reading n) provider s) (Bind (this n) provider s)) /\
  (Make (this n) key s = Deadlock -> Make (reading n) key s = OutOfFuel) /\
  (MakeNew (this n) key params s = Deadlock -> MakeNew (reading n) key params s = OutOfFuel).
Proof.
  intros Hw.
  pose proof (reading_fluent n) as Hf. pose proof (reading_careful n) as Hc.
  pose proof (reading_shortened n) as Hs.
  assert (forall A (o o' : Outcome State A),
            o <> Deadlock -> cut o o' -> o' = Deadlock -> o = OutOfFuel) as Hblock.
  { intros A o o' Hn [-> | ->] Ho; [done|done]. }
  split; [|split; [|split; [|split; [|split]]]].
  - split; [by apply make_unblocked|by apply make_cut].
  - split; [by apply MustMake_unblocked|by apply MustMake_cut].
  - split; [by apply make_unblocked|by apply make_cut].
  - intros Hu. split; [|by apply Bind_cut].
    rewrite Bind_eq by done. destruct (IsDefer provider); [done|].
    rewrite Bind_eager_newInstance.
    apply bind_unblocked; [by apply newInstance_unblocked|]. by intros [inst [e|]] s1 _.
  - apply Hblock; [by apply make_unblocked|by apply make_cut].
  - apply Hblock; [by apply make_unblocked|by apply make_cut].
Qed.

(** ** The two ways of resolving a key *)

(** X14. For a key without a cached instance, [Make] is [MakeNew] without
    parameters followed by the caching of the instance, with any receiver
    and whatever the hooks do: both run the same attempt under the same
    lock, and an error of the attempt is returned as it is. *)
Theorem Make_is_MakeNew_then_cache (self : Container) (key : string) (s : State) :
  instances (container s) !! key = None ->
  Make self key s =
    match MakeNew self key None s with
    | Returned (ins, None) s' => Returned (ins, None) (cache key ins s')
    | o => o
    end.
Proof.
  intros Hc. unfold Make, MakeNew.
  destruct (writer (lock (container s))) eqn:Hw; [by rewrite !make_locked|].
  rewrite !make_eq, Hc by done.
  destruct (providers (container s) !! key) as [sp|]; [|done].
  unfold make_fresh, bind at 1.
  destruct (newInstance self sp None (rlocked s)) as [[ins [e|]] s1|msg s1| |] eqn:Hni;
    simpl; try done.
  apply newInstance_inv in Hni as [evs Ha].
  by rewrite (attempt_of_error _ _ _ _ _ _ _ _ Ha).
Qed.

(** ** The order of the hooks *)

Lemma in_order_mono (booted booted' registered registered' : list P) (t : list Event) :
  booted ⊆ booted' -> registered ⊆ registered' ->
  in_order booted registered t -> in_order booted' registered' t.
Proof.
  revert booted booted' registered registered'.
  induction t as [|[sp|sp|sp|sp args] t IH]; simpl; intros B B' R R' HB HR Ht; [done|..].
  - apply (IH (sp :: B) _ R); [by apply list_subseteq_skip|done|done].
  - destruct Ht as [Hsp Ht]. split; [by apply HB|by apply (IH B _ R)].
  - destruct Ht as [Hsp Ht]. split; [by apply HB|].
    apply (IH B _ (sp :: R)); [done|by apply list_subseteq_skip|done].
  - destruct Ht as [Hsp Ht]. split; [by apply HR|by apply (IH B _ R)].
Qed.

Lemma in_order_app (booted registered : list P) (t t' : list Event) :
  in_order booted registered t -> in_order booted registered t' ->
  in_order booted registered (t ++ t').
Proof.
  revert booted registered.
  induction t as [|[sp|sp|sp|sp args] t IH]; simpl; intros B R Ht Ht'; [done|..].
  - apply IH; [done|]. apply (in_order_mono B _ R R); [by apply list_subseteq_cons|done|done].
  - destruct Ht as [Hsp Ht]. split; [done|by apply IH].
  - destruct Ht as [Hsp Ht]. split; [done|]. apply IH; [done|].
    apply (in_order_mono B B R); [done|by apply list_subseteq_cons|done].
  - destruct Ht as [Hsp Ht]. split; [done|by apply IH].
Qed.

(** Before a call of the factory of [sp] comes a [Register] of [sp], and
    before a [Register] a [Boot]. *)
Lemma in_order_Invoked (booted registered : list P) (t1 t2 : list Event) (sp : P)
    (args : slice) :
  in_order booted registered (t1 ++ Invoked sp args :: t2) ->
  sp ∈ registered \/ Registered sp ∈ t1.
Proof.
  revert booted registered.
  induction t1 as [|[sp'|sp'|sp'|sp' args'] t1 IH]; simpl; intros B R Ht.
  - left. apply Ht.
  - destruct (IH _ _ Ht) as [?|?]; [by left|right; by constructor].
  - destruct (IH _ _ (proj2 Ht)) as [?|?]; [by left|right; by constructor].
  - destruct (IH _ _ (proj2 Ht)) as [[->|?]%elem_of_cons|?];
      [right; constructor|by left|right; by constructor].
  - destruct (IH _ _ (proj2 Ht)) as [?|?]; [by left|right; by constructor].
Qed.

Lemma in_order_Registered (booted registered : list P) (t1 t2 : list Event) (sp : P) :
  in_order booted registered (t1 ++ Registered sp :: t2) ->
  sp ∈ booted \/ Booted sp ∈ t1.
Proof.
  revert booted registered.
  induction t1 as [|[sp'|sp'|sp'|sp' args'] t1 IH]; simpl; intros B R Ht.
  - left. apply Ht.
  - destruct (IH _ _ Ht) as [[->|?]%elem_of_cons|?];
      [right; constructor|by left|right; by constructor].
  - destruct (IH _ _ (proj2 Ht)) as [?|?]; [by left|right; by constructor].
  - destruct (IH _ _ (proj2 Ht)) as [?|?]; [by left|right; by constructor].
  - destruct (IH _ _ (proj2 Ht)) as [?|?]; [by left|right; by constructor].
Qed.

Lemma follows_refl (booted registered : list P) (s : State) : follows booted registered s s.
Proof. exists []. by rewrite app_nil_r. Qed.

Lemma follows_trans (booted registered : list P) (s1 s2 s3 : State) :
  follows booted registered s1 s2 -> follows [] [] s2 s3 -> follows booted registered s1 s3.
Proof.
  intros (t & Ht & Ho) (t' & Ht' & Ho'). exists (t ++ t'). split.
  - by rewrite Ht', Ht, app_assoc.
  - apply in_order_app; [done|].
    apply (in_order_mono [] _ []); [apply list_subseteq_nil|apply list_subseteq_nil|done].
Qed.

(** The lock is no part of the log. *)
Lemma follows_rlocked_l (booted registered : list P) (s s' : State) :
  follows booted registered (rlocked s) s' -> follows booted registered s (runlocked s').
Proof. done. Qed.

Lemma follows_log (booted registered : list P) (ev : Event) (s0 s : State) :
  follows booted registered s0 s -> in_order booted registered [ev] ->
  follows booted registered s0 (log ev s).
Proof.
  intros (t & Ht & Ho) Hev. exists (t ++ [ev]). split.
  - simpl. by rewrite Ht, app_assoc.
  - by apply in_order_app.
Qed.

Lemma follows_Booted (booted registered : list P) (sp : P) (s s' : State) :
  follows (sp :: booted) registered (log (Booted sp) s) s' -> follows booted registered s s'.
Proof.
  intros (t & Ht & Ho). exists (Booted sp :: t). split; [|done].
  rewrite Ht. simpl. by rewrite <-app_assoc.
Qed.

Lemma follows_Registered (booted registered : list P) (sp : P) (s0 s s' : State) :
  follows booted registered s0 s -> sp ∈ booted ->
  follows booted (sp :: registered) (log (Registered sp) s) s' ->
  follows booted registered s0 s'.
Proof.
  intros (t & Ht & Ho) Hsp (t' & Ht' & Ho'). exists (t ++ Registered sp :: t'). split.
  - rewrite Ht'. simpl. rewrite Ht. by rewrite <-!app_assoc.
  - by apply in_order_app.
Qed.

Lemma after_orderly {A} (booted registered : list P) (m : M State A) (s0 s : State)
    (Q : A -> State -> Prop) E :
  orderly m -> follows booted registered s0 s ->
  (forall a s', follows booted registered s0 s' -> Q a s') ->
  (forall msg s', follows booted registered s0 s' -> E msg s') ->
  after m s Q E.
Proof.
  intros Hm Hf HQ HE. eapply after_mono; [apply Hm| |]; simpl; intros.
  - apply HQ. by eapply follows_trans.
  - apply HE. by eapply follows_trans.
Qed.

Lemma run_orderly (c : Container) {R} (m : Prog R) : disciplined c -> orderly (run c m).
Proof.
  intros Hc. induction m as [r|k IH|w k IH|p k IH|key k IH|key k IH|key k IH|key ps k IH];
    intros s; simpl.
  - apply after_ret, follows_refl.
  - exact (IH (world s) s).
  - exact (IH (set_world w s)).
  - apply after_bind.
    apply (after_orderly [] [] _ s); [apply (disciplined_Bind _ Hc)|apply follows_refl| |done].
    intros r s' Hk. by apply (after_orderly [] [] _ s).
  - apply after_bind.
    apply (after_orderly [] [] _ s); [apply (disciplined_IsBind _ Hc)|apply follows_refl| |done].
    intros r s' Hk. by apply (after_orderly [] [] _ s).
  - apply after_bind.
    apply (after_orderly [] [] _ s); [apply (disciplined_Make _ Hc)|apply follows_refl| |done].
    intros r s' Hk. by apply (after_orderly [] [] _ s).
  - apply after_bind.
    apply (after_orderly [] [] _ s);
      [apply (disciplined_MustMake _ Hc)|apply follows_refl| |done].
    intros r s' Hk. by apply (after_orderly [] [] _ s).
  - apply after_bind.
    apply (after_orderly [] [] _ s);
      [apply (disciplined_MakeNew _ Hc)|apply follows_refl| |done].
    intros r s' Hk. by apply (after_orderly [] [] _ s).
Qed.

(** [Register] of [sp] and the call of its factory, [Boot] of [sp] having
    run. *)
Lemma factory_orderly (c : Container) {B} (sp : P) (params : slice)
    (f : result -> M State B) (s0 s : State) (Q : B -> State -> Prop) E :
  disciplined c -> follows [sp] [] s0 s ->
  (forall r s', follows [sp] [] s0 s' -> after (f r) s' Q E) ->
  (forall msg s', follows [sp] [] s0 s' -> E msg s') ->
  after
    (modify (log (Registered sp)) ;;
     let* method := run c (Register sp) in
     modify (log (Invoked sp params)) ;;
     let* r := run c (method params) in
     f r) s Q E.
Proof.
  intros Hc Hs Hf HE. apply after_bind, after_modify.
  assert (sp ∈ [sp]) as Hsp by by constructor.
  assert (forall s', follows [sp] [sp] (log (Registered sp) s) s' -> follows [sp] [] s0 s')
    as Hback.
  { intros s'. by apply follows_Registered. }
  apply after_bind.
  apply (after_orderly [sp] [sp] _ (log (Registered sp) s));
    [by apply run_orderly|apply follows_refl| |by intros; apply HE, Hback].
  intros method s1 H1. apply after_bind, after_modify, after_bind.
  apply (after_orderly [sp] [sp] _ (log (Registered sp) s));
    [by apply run_orderly|by apply follows_log| |by intros; apply HE, Hback].
  intros r s2 H2. by apply Hf, Hback.
Qed.

Lemma newInstance_orderly (self : Container) (sp : P) (params : slice) :
  disciplined self -> orderly (newInstance self sp params).
Proof.
  intros Hc s. unfold newInstance. apply after_bind, after_modify.
  assert (sp ∈ [sp]) as Hsp by by constructor.
  assert (forall s', follows [sp] [] (log (Booted sp) s) s' -> follows [] [] s s') as Hback.
  { intros s'. apply follows_Booted. }
  apply after_bind.
  apply (after_orderly [sp] [] _ (log (Booted sp) s));
    [by apply run_orderly|apply follows_refl| |by intros; apply Hback].
  intros [e|] s1 H1; [by apply after_ret, Hback|].
  apply after_bind.
  assert (after
    match params with
    | Some _ => ret params
    | None => modify (log (AskedParams sp));; run self (Params sp)
    end s1 (fun _ s' => follows [sp] [] (log (Booted sp) s) s')
           (fun _ s' => follows [sp] [] (log (Booted sp) s) s')) as Hps.
  { destruct params.
    - by apply after_ret.
    - apply after_bind, after_modify.
      apply (after_orderly [sp] [] _ (log (Booted sp) s));
        [by apply run_orderly|by apply follows_log|done|done]. }
  eapply after_mono; [apply Hps| |by intros; apply Hback]. simpl. intros ps s2 H2.
  apply (factory_orderly self sp ps _ (log (Booted sp) s)); [done|done| |by intros; apply Hback].
  intros [ins [e|]] s3 H3; by apply after_ret, Hback.
Qed.

Lemma make_orderly (self : Container) (key : string) (params : slice) (forceNew : bool) :
  disciplined self -> orderly (make self key params forceNew).
Proof.
  intros Hc s. unfold after.
  destruct (writer (lock (container s))) eqn:Hw; [by rewrite make_locked|].
  rewrite make_eq by done.
  destruct (providers (container s) !! key) as [sp|] eqn:Hsp; [|apply follows_refl].
  destruct forceNew.
  - apply (after_released (newInstance self sp params) s
             (fun _ s' => follows [] [] s s') (fun _ s' => follows [] [] s s')).
    eapply after_mono; [by apply newInstance_orderly| |]; simpl; intros ? s' Hf;
      by apply follows_rlocked_l.
  - destruct (instances (container s) !! key) as [ins|] eqn:Hi; [apply follows_refl|].
    apply (after_released (make_fresh self key sp) s
             (fun _ s' => follows [] [] s s') (fun _ s' => follows [] [] s s')).
    unfold make_fresh. apply after_bind.
    eapply after_mono; [by apply newInstance_orderly| |]; simpl.
    + intros [inst [e|]] s1 Hf; [by apply after_ret|].
      by apply after_bind, after_modify, after_ret.
    + by intros.
Qed.

Lemma MustMake_orderly (self : Container) (key : string) :
  disciplined self -> orderly (MustMake self key).
Proof.
  intros Hc s. unfold MustMake. apply after_bind.
  eapply after_mono; [by apply make_orderly| |done]. simpl.
  intros [serv [e|]] s1 H1; [by apply after_panic|by apply after_ret].
Qed.

Lemma IsBind_orderly (key : string) : orderly (@IsBind V W P key).
Proof.
  intros s. unfold after.
  destruct (writer (lock (container s))) eqn:Hw.
  - unfold IsBind, bind. by rewrite findServiceProvider_locked.
  - rewrite IsBind_eq by done. apply follows_refl.
Qed.

Lemma Bind_orderly (self : Container) (provider : P) :
  disciplined self -> orderly (Bind self provider).
Proof.
  intros Hc s. unfold after.
  destruct (decide (lock (container s) = unlocked)) as [Hl|Hl];
    [|by rewrite Bind_locked].
  rewrite Bind_eq by done.
  destruct (IsDefer provider); [exact (follows_refl [] [] s)|].
  rewrite Bind_eager_newInstance.
  change (after
    (let* '(instance, err) := newInstance self provider None in
     match err with
     | Some e => ret (Some e)
     | None =>
         modify (set_instances (fun m => <[Name provider := instance]> m)) ;;
         ret None
     end) (installed provider s)
    (fun _ s' => follows [] [] s s') (fun _ s' => follows [] [] s s')).
  apply after_bind.
  eapply after_mono; [by apply newInstance_orderly| |]; simpl.
  - intros [inst [e|]] s1 Hf; [by apply after_ret|].
    by apply after_bind, after_modify, after_ret.
  - by intros.
Qed.

Lemma this_disciplined (n : nat) : disciplined (this n).
Proof.
  induction n as [|n IH]; split; simpl; intros; try done.
  - apply IsBind_orderly.
  - by apply Bind_orderly.
  - apply IsBind_orderly.
  - by apply make_orderly.
  - by apply MustMake_orderly.
  - by apply make_orderly.
Qed.

Lemma reachable_in_order (s : State) : reachable s -> in_order [] [] (trace s).
Proof.
  induction 1 as [w|n c s s' Hr Ho Hp]; [done|].
  assert (follows [] [] s s') as (t & -> & Ht).
  { revert Hp. destruct c; simpl; apply (after_state_after _ s s' (follows [] [] s)).
    - apply Bind_orderly, this_disciplined.
    - apply IsBind_orderly.
    - apply make_orderly, this_disciplined.
    - apply MustMake_orderly, this_disciplined.
    - apply make_orderly, this_disciplined. }
  by apply in_order_app.
Qed.

(** X15. In the log of every state that calls reach from a new container,
    whatever the hooks do, the invocations are in order: the container
    calls the factory of a provider only after it has run [Register] of
    that provider, and [Register] only after [Boot]. *)
Theorem hooks_run_in_order (s : State) (t1 t2 : list Event) (sp : P) (args : slice) :
  reachable s ->
  trace s = t1 ++ Invoked sp args :: t2 ->
  in_order [] [] (trace s) /\
  exists ta tb tc, t1 = ta ++ Booted sp :: tb ++ Registered sp :: tc.
Proof.
  intros Hr Ht. pose proof (reachable_in_order s Hr) as Ho. split; [done|].
  rewrite Ht in Ho.
  destruct (in_order_Invoked _ _ _ _ _ _ Ho) as [Hin|Hin]; [by apply elem_of_nil in Hin|].
  apply list_elem_of_split in Hin as (tab & tc & ->).
  rewrite <-app_assoc in Ho. simpl in Ho.
  destruct (in_order_Registered _ _ _ _ _ Ho) as [Hin|Hin]; [by apply elem_of_nil in Hin|].
  apply list_elem_of_split in Hin as (ta & tb & ->).
  exists ta, tb, tc. by rewrite <-app_assoc.
Qed.

(** ** Resolving with the older copy *)

Lemma alike_refl {A} (o : Outcome State A) : alike o o.
Proof. by destruct o. Qed.

Lemma alike_bind {A B} (mo m : M State A) (fo f : A -> M State B) (s : State) :
  alike (mo s) (m s) ->
  (forall a s1, m s = Returned a s1 -> alike (fo a s1) (f a s1)) ->
  alike (bind mo fo s) (bind m f s).
Proof.
  unfold bind. intros Hm Hf.
  destruct (mo s) as [a s1|msg s1| |], (m s) as [a' s1'|msg' s1'| |]; simpl in Hm; try done.
  destruct Hm as [-> ->]. by apply Hf.
Qed.

Lemma alike_released {A} (o o' : Outcome State A) : alike o o' -> alike (released o) (released o').
Proof.
  destruct o as [a s|msg s| |], o' as [a' s'|msg' s'| |]; simpl; try done.
  - by intros [-> ->].
  - by intros ->.
Qed.

Lemma held_after {A} (m : M State A) (s s' : State) (a : A) :
  keeping m -> m s = Returned a s' -> held s -> held s'.
Proof.
  intros Hm Hr. specialize (Hm s). unfold after in Hm. rewrite Hr in Hm.
  unfold held. by rewrite (kept_lock _ _ Hm).
Qed.

Lemma run_alike (co c : Container) {R} (m : Prog R) (s : State) :
  twins co c -> careful c -> held s -> alike (run co m s) (run c m s).
Proof.
  intros Ht Hc. revert s.
  induction m as [r|k IH|w k IH|p k IH|key k IH|key k IH|key k IH|key ps k IH];
    intros s Hs; simpl.
  - done.
  - by apply IH.
  - by apply IH.
  - apply alike_bind; [by apply (twins_Bind _ _ Ht)|]. intros a s1 Hr. apply IH.
    by apply (held_after _ _ _ _ (careful_Bind _ Hc p) Hr).
  - apply alike_bind; [by apply (twins_IsBind _ _ Ht)|]. intros a s1 Hr. apply IH.
    by apply (held_after _ _ _ _ (careful_IsBind _ Hc key) Hr).
  - apply alike_bind; [by apply (twins_Make _ _ Ht)|]. intros a s1 Hr. apply IH.
    by apply (held_after _ _ _ _ (careful_Make _ Hc key) Hr).
  - apply alike_bind; [by apply (twins_MustMake _ _ Ht)|]. intros a s1 Hr. apply IH.
    by apply (held_after _ _ _ _ (careful_MustMake _ Hc key) Hr).
  - apply alike_bind; [by apply (twins_MakeNew _ _ Ht)|]. intros a s1 Hr. apply IH.
    by apply (held_after _ _ _ _ (careful_MakeNew _ Hc key ps) Hr).
Qed.

(** A hook the container runs after logging its invocation. *)
Lemma hook_alike (co c : Container) {R B} (ev : Event) (m : Prog R)
    (fo f : R -> M State B) (s : State) :
  twins co c -> careful c -> held s ->
  (forall r s1, held s1 -> alike (fo r s1) (f r s1)) ->
  alike ((modify (log ev) ;; let* r := run co m in fo r) s)
        ((modify (log ev) ;; let* r := run c m in f r) s).
Proof.
  intros Ht Hc Hs Hf. apply alike_bind; [apply alike_refl|].
  intros [] s1 Hm. unfold modify in Hm. simplify_eq.
  apply alike_bind; [apply run_alike; [done|done|exact Hs]|]. intros r s2 Hr. apply Hf.
  exact (held_after _ _ _ _ (run_keeping c m Hc) Hr Hs).
Qed.

Lemma newInstance_alike (co c : Container) (sp : P) (params : slice) (s : State) :
  twins co c -> careful c -> held s ->
  alike (newInstance co sp params s) (newInstance c sp params s).
Proof.
  intros Ht Hc Hs. unfold newInstance.
  apply hook_alike; [done..|]. intros [e|] s1 H1; [apply alike_refl|].
  apply alike_bind.
  { destruct params; [apply alike_refl|]. apply alike_bind; [apply alike_refl|].
    intros [] s2 Hm. unfold modify in Hm. simplify_eq.
    apply run_alike; [done|done|exact H1]. }
  intros ps s2 Hps.
  assert (held s2) as H2.
  { destruct params.
    - by injection Hps as _ <-.
    - apply bind_modify_Returned in Hps.
      exact (held_after _ _ _ _ (run_keeping c (Params sp) Hc) Hps H1). }
  apply hook_alike; [done..|]. intros method s3 H3.
  apply hook_alike; [done..|]. intros [ins [e|]] s4 H4; apply alike_refl.
Qed.

Lemma make_alike (co c : Container) (key : string) (params : slice) (forceNew : bool)
    (s : State) :
  twins co c -> careful c ->
  alike (make co key params forceNew s) (make c key params forceNew s).
Proof.
  intros Ht Hc.
  destruct (writer (lock (container s))) eqn:Hw; [by rewrite !make_locked|].
  rewrite !make_eq by done.
  destruct (providers (container s) !! key) as [sp|]; [|apply alike_refl].
  assert (held (rlocked s)) as Hs by (unfold held; simpl; lia).
  destruct forceNew; [by apply alike_released, newInstance_alike|].
  destruct (instances (container s) !! key) as [ins|]; [apply alike_refl|].
  apply alike_released. unfold make_fresh.
  apply alike_bind; [by apply newInstance_alike|]. intros r s1 _. apply alike_refl.
Qed.

Lemma older_Bind_locked (self : Container) (provider : P) (s : State) :
  lock (container s) <> unlocked -> Older.Bind self provider s = Deadlock.
Proof.
  intros Hl. unfold Older.Bind, bind, lock_Lock.
  destruct (lock (container s)) as [[|r] [|]]; try done.
Qed.

Lemma older_this_twins (n : nat) : twins (Older.this n) (this n).
Proof.
  induction n as [|n IH]; split; intros;
    cbn [call_Bind call_IsBind call_Make call_MustMake call_MakeNew Older.this this];
    try apply alike_refl.
  - assert (lock (container s) <> unlocked) as Hl.
    { intros Hu. unfold held in *. rewrite Hu in *. simpl in *. lia. }
    by rewrite older_Bind_locked, Bind_locked.
  - apply make_alike; [done|apply this_careful].
  - unfold Older.MustMake, MustMake.
    apply alike_bind; [apply make_alike; [done|apply this_careful]|].
    by intros [serv [e|]] s1 _.
  - apply make_alike; [done|apply this_careful].
Qed.

(** X16. [Make], [MustMake] and [MakeNew] of the older copy do what those of the
    present copy do, on every state and whatever the hooks do: they return
    the same in the same state, block together, and panic together in the
    same state, [MustMake] with another message. The copies differ in
    [Bind], and every [Bind] a hook tries under the read lock of [make]
    blocks in both. *)
Theorem older_copy_resolves_alike (n : nat) (key : string) (params : slice) (s : State) :
  alike (Make (Older.this n) key s) (Make (this n) key s) /\
  alike (MakeNew (Older.this n) key params s) (MakeNew (this n) key params s) /\
  alike (Older.MustMake (Older.this n) key s) (MustMake (this n) key s).
Proof.
  pose proof (older_this_twins n) as Ht. pose proof (this_careful n) as Hc.
  split; [by apply make_alike|]. split; [by apply make_alike|].
  unfold Older.MustMake, MustMake. apply alike_bind; [by apply make_alike|].
  by intros [serv [e|]] s1 _.
Qed.

End further.

(** ** The further properties on the example providers *)

Section further_examples.

Import Demo.

(** X1: [Make("app")], whose [Params] hook resolves "conn", leaves the lock
    released; after [Bind(nil)] the write lock is held and [Make("app")]
    blocks. *)
Lemma calls_release_the_lock_witness :
  perform 1 (CallMake "app") paired = Some wired /\
  lock (container wired) = lock (container paired) /\
  idle paired /\
  Bind_nil paired = Panicked nil_dereference (wlocked paired) /\
  Make (this 1) "app" (wlocked paired) = Deadlock.
Proof.
  assert (perform 1 (CallMake "app") paired = Some wired) as Hp by (vm_compute; reflexivity).
  assert (idle paired) as Hi by reflexivity.
  destruct (calls_release_the_lock 1 (CallMake "app") paired) as [Hcall Hnil].
  destruct (Hcall wired Hp) as (Hl & _).
  destruct (Hnil Hi) as (Hb & _).
  split; [exact Hp|]. split; [exact Hl|]. split; [exact Hi|]. split; [exact Hb|].
  reflexivity.
Defined.

(** X2: [Make("app")] caches "app" and "conn" and leaves the providers as they
    were. *)
Lemma resolution_only_adds_witness :
  perform 1 (CallMake "app") paired = Some wired /\
  providers (container wired) = providers (container paired).
Proof.
  assert (perform 1 (CallMake "app") paired = Some wired) as Hp by (vm_compute; reflexivity).
  split; [exact Hp|].
  destruct (resolution_only_adds 1 (CallMake "app") paired wired Hp) as [_ Hr].
  exact (proj1 (Hr eq_refl)).
Defined.

(** X4 on the example providers. *)
Lemma providers_are_filed_by_name_witness :
  reachable wired /\
  providers (container wired) !! "app" = Some app /\
  findServiceProvider "app" wired = Returned (Some app) wired.
Proof.
  assert (providers (container wired) !! "app" = Some app) as Hsp by reflexivity.
  split; [exact wired_reachable|]. split; [exact Hsp|].
  exact (proj2 (providers_are_filed_by_name wired "app" app wired_reachable Hsp)).
Defined.

(** X5: a listing of the container after [Bind(conn)], [Bind(app)] and
    [Make("app")]. *)
Lemma listings_are_the_bound_keys_witness :
  reachable wired /\
  NameList wired ["conn"; "app"] /\
  NoDup ["conn"; "app"] /\
  IsBind "app" wired = Returned true wired.
Proof.
  assert (NameList wired ["conn"; "app"]) as Hl.
  { exists [("conn", conn); ("app", app)]. split; [|reflexivity].
    unfold ranges. vm_compute. reflexivity. }
  split; [exact wired_reachable|]. split; [exact Hl|].
  destruct (listings_are_the_bound_keys wired ["conn"; "app"] wired_reachable (or_introl Hl))
    as (Hnd & _ & Hin).
  split; [exact Hnd|]. apply Hin. repeat constructor.
Defined.

(** X6: the scenario of the specification: [logger] is not deferred, so that
    [Bind] instantiates it; its factory returns the object 0, and
    [Make("logger")] returns that instance. *)
Lemma eager_Bind_caches_witness :
  IsDefer logger = false /\
  exists (s' s3 s4 : @State nat nat provider) (method : @slice nat -> hook (@result nat)),
    Bind (this 0) logger start = Returned None s' /\
    run (this 0) (method (Some [7])) (log (Invoked logger (Some [7])) s3)
      = Returned (Some 0, None) s4 /\
    s' = cache "logger" (Some 0) s4 /\
    Make (this 0) "logger" s' = Returned (Some 0, None) s'.
Proof.
  assert (IsDefer logger = false) as Hd by reflexivity.
  assert (Bind (this 0) logger start =
            Returned None
              (cache "logger" (Some 0)
                 (advance 1 [Booted logger; AskedParams logger; Registered logger;
                             Invoked logger (Some [7])] (installed logger start))))
    as Hb by reflexivity.
  split; [exact Hd|].
  destruct (eager_Bind_caches 0 logger start _ Hd Hb)
    as (ins & ps & method & s1 & s2 & s3 & s4 & Hboot & Hps & Hreg & Hm & Hs & HM & _).
  assert (ps = Some [7] /\ s2 = log (AskedParams logger) s1) as [-> ->].
  { simpl in Hps. unfold ret in Hps. by injection Hps as <- <-. }
  assert (ins = Some 0) as ->.
  { apply (f_equal (fun st => instances (container st) !! "logger")) in Hs.
    simpl in Hs. rewrite !lookup_insert_eq in Hs. congruence. }
  eexists _, s3, s4, method. split; [exact Hb|]. split; [exact Hm|]. split; [exact Hs|].
  apply (HM 0).
Defined.

(** X7: the scenario of the specification: two [MakeNew("conn", [5])]. *)
Lemma MakeNew_twice_witness :
  idle (bound conn) /\
  named (bound conn) /\
  providers (container (bound conn)) !! "conn" = Some conn /\
  exists s1 s2,
    MakeNew (this 0) "conn" (Some [5]) (bound conn) = Returned (Some 0, None) s1 /\
    MakeNew (this 0) "conn" (Some [5]) s1 = Returned (Some 1, None) s2 /\
    factory_runs conn (trace s2) = factory_runs conn (trace (bound conn)) + 2 /\
    instances (container s2) !! "conn" = instances (container (bound conn)) !! "conn".
Proof.
  assert (idle (bound conn)) as Hi by reflexivity.
  assert (named (bound conn)) as Hn by (apply (bool_decide_unpack _); vm_compute; exact I).
  assert (providers (container (bound conn)) !! "conn" = Some conn) as Hsp by reflexivity.
  assert (MakeNew (guarded "conn" 0) "conn" (Some [5]) (bound conn) =
            Returned (Some 0, None)
              (advance 1 [Booted conn; Registered conn; Invoked conn (Some [5])] (bound conn)))
    as H1 by (vm_compute; reflexivity).
  assert (MakeNew (guarded "conn" 0) "conn" (Some [5])
            (advance 1 [Booted conn; Registered conn; Invoked conn (Some [5])] (bound conn)) =
            Returned (Some 1, None)
              (advance 2 [Booted conn; Registered conn; Invoked conn (Some [5])]
                 (advance 1 [Booted conn; Registered conn; Invoked conn (Some [5])]
                    (bound conn))))
    as H2 by (vm_compute; reflexivity).
  split; [exact Hi|]. split; [exact Hn|]. split; [exact Hsp|].
  destruct (MakeNew_twice 0 0 "conn" conn [5] (bound conn) _ _ _ _ Hi Hn Hsp H1 H2)
    as (HM1 & HM2 & _ & Hf & Hc).
  eexists _, _. split; [exact HM1|]. split; [exact HM2|]. split; [exact Hf|exact Hc].
Defined.

(** X8: the factory of [faulty] fails: [Make] returns the error and no
    instance. *)
Lemma an_error_carries_no_instance_witness :
  exists ins s',
    make (this 0) "faulty" None false (bound faulty) =
      Returned (ins, Some (errors_New "boom")) s' /\
    ins = None.
Proof.
  assert (make (this 0) "faulty" None false (bound faulty) =
            Returned (None, Some (errors_New "boom"))
              (advance 0 [Booted faulty; AskedParams faulty; Registered faulty;
                          Invoked faulty (Some [7])] (bound faulty)))
    as Hm by (vm_compute; reflexivity).
  eexists _, _. split; [exact Hm|].
  exact (an_error_carries_no_instance (this 0) "faulty" None false (bound faulty) _ _ _ Hm).
Defined.

(** X9: "faulty" has a provider, and [MustMake] says that the container does
    not contain the key. *)
Lemma MustMake_panics_on_any_error_witness :
  idle (bound faulty) /\
  providers (container (bound faulty)) !! "faulty" = Some faulty /\
  exists s',
    Make (this 0) "faulty" (bound faulty) = Returned (None, Some (errors_New "boom")) s' /\
    MustMake (this 0) "faulty" (bound faulty) =
      Panicked "container not contain key faulty" s' /\
    IsBind "faulty" s' = Returned true s'.
Proof.
  assert (idle (bound faulty)) as Hi by reflexivity.
  assert (providers (container (bound faulty)) !! "faulty" = Some faulty) as Hsp by reflexivity.
  assert (Make (this 0) "faulty" (bound faulty) =
            Returned (None, Some (errors_New "boom"))
              (advance 0 [Booted faulty; AskedParams faulty; Registered faulty;
                          Invoked faulty (Some [7])] (bound faulty)))
    as Hm by (vm_compute; reflexivity).
  split; [exact Hi|]. split; [exact Hsp|]. eexists. split; [exact Hm|].
  destruct (MustMake_panics_on_any_error 0 "faulty" faulty (bound faulty) _ _ _ Hi Hsp Hm)
    as (HP & HB & _).
  split; [exact HP|exact HB].
Defined.

(** X10 on the example providers. *)
Lemma deferred_Binds_commute_witness :
  idle start /\
  IsDefer conn = true /\
  IsDefer app = true /\
  (Bind (this 0) conn ;; Bind (this 0) app) start =
  (Bind (this 0) app ;; Bind (this 0) conn) start.
Proof.
  assert (idle start) as Hi by reflexivity.
  assert (IsDefer conn = true) as Hc by reflexivity.
  assert (IsDefer app = true) as Ha by reflexivity.
  split; [exact Hi|]. split; [exact Hc|]. split; [exact Ha|].
  destruct (deferred_Binds_commute 0 conn app start Hi Hc Ha) as [_ Hcomm].
  apply Hcomm. discriminate.
Defined.

(** X12: on a key without a provider the older [MustMake] panics with the
    message of [make]. *)
Lemma older_MustMake_panics_with_the_error_witness :
  Older.MustMake (this 0) "missing" start =
    Panicked "contract missing have not register" start.
Proof.
  destruct (older_MustMake_panics_with_the_error (this 0) "missing" start) as (_ & _ & Hk).
  apply Hk; reflexivity.
Defined.

(** X14 on the example providers. *)
Lemma Make_is_MakeNew_then_cache_witness :
  instances (container (bound conn)) !! "conn" = None /\
  MakeNew (this 0) "conn" None (bound conn) =
    Returned (Some 0, None)
      (advance 1 [Booted conn; AskedParams conn; Registered conn; Invoked conn (Some [7])]
         (bound conn)) /\
  Make (this 0) "conn" (bound conn) = Returned (Some 0, None) connected.
Proof.
  assert (instances (container (bound conn)) !! "conn" = None) as Hc by reflexivity.
  split; [exact Hc|]. split; [reflexivity|].
  rewrite (Make_is_MakeNew_then_cache (this 0) "conn" (bound conn) Hc). reflexivity.
Defined.

(** X15: the log after [Bind(conn)], [Bind(app)] and [Make("app")]: before the
    factory of [app] come its [Boot] and its [Register], with the attempt
    for "conn" in between. *)
Lemma hooks_run_in_order_witness :
  reachable wired /\
  trace wired =
    [Booted app; AskedParams app; Booted conn; AskedParams conn; Registered conn;
     Invoked conn (Some [7]); Registered app] ++ Invoked app (Some [0]) :: [] /\
  in_order [] [] (trace wired).
Proof.
  assert (trace wired =
            [Booted app; AskedParams app; Booted conn; AskedParams conn; Registered conn;
             Invoked conn (Some [7]); Registered app] ++ Invoked app (Some [0]) :: [])
    as Ht by reflexivity.
  split; [exact wired_reachable|]. split; [exact Ht|].
  exact (proj1 (hooks_run_in_order wired _ _ _ _ wired_reachable Ht)).
Defined.

(** X16: [Make("app")] with the older copy, whose [Params] hook resolves
    "conn" through the older copy. *)
Lemma older_copy_resolves_alike_witness :
  Make (Older.this 1) "app" paired = Returned (Some 1, None) wired.
Proof.
  pose proof (proj1 (older_copy_resolves_alike 1 "app" None paired)) as Ha.
  assert (Make (this 1) "app" paired = Returned (Some 1, None) wired) as HM
    by (vm_compute; reflexivity).
  rewrite HM in Ha.
  destruct (Make (Older.this 1) "app" paired) as [a s'|msg s'| |]; simpl in Ha; try done.
  destruct Ha as [-> ->]. reflexivity.
Defined.

End further_examples.

Section plugin_examples.

Import Plugins.

(** X3: [Boot] of [loader] binds [store]: [Make("loader")] blocks. [installer]
    has the same [Boot] and is not deferred: [Bind(installer)] binds both. *)
Lemma Bind_in_Boot_blocks_Make_witness :
  providers (container (installed loader start)) !! "loader" = Some loader /\
  Boot loader = DoBind store (fun err => Ret err) /\
  Make (this 1) "loader" (installed loader start) = Deadlock /\
  Bind (this 1) installer start = Returned None stocked.
Proof.
  assert (providers (container (installed loader start)) !! "loader" = Some loader) as Hsp
    by reflexivity.
  assert (Boot loader = DoBind store (fun err => Ret err)) as Hb by reflexivity.
  split; [exact Hsp|]. split; [exact Hb|]. split; [|vm_compute; reflexivity].
  destruct (Bind_in_Boot_blocks_Make 0 "loader" loader store (fun err => Ret err)
              (installed loader start) Hsp Hb) as (_ & HM & _).
  apply HM. reflexivity.
Defined.

(** X11: [Boot] of [probe] asks the container whether "probe" is bound: the
    present [Bind] returns, the older one blocks. *)
Lemma older_Bind_blocks_on_a_call_witness :
  idle start /\
  Bind (this 0) probe start = Returned None probing /\
  Older.Bind (Older.this 1) probe start = Deadlock.
Proof.
  assert (idle start) as Hi by reflexivity.
  split; [exact Hi|]. split; [vm_compute; reflexivity|].
  rewrite (proj1 (older_Bind_blocks_on_a_call 0 probe start Hi)). reflexivity.
Defined.

(** X13: [Make("loader")] blocks, and [Boot] of [loader] calls [Bind]: with
    the receiver that turns down the [Bind] of a hook the call is turned
    down. *)
Lemma only_a_Bind_of_a_hook_blocks_witness :
  writer (lock (container (installed loader start))) = false /\
  Make (this 1) "loader" (installed loader start) = Deadlock /\
  Make (reading 1) "loader" (installed loader start) = OutOfFuel.
Proof.
  assert (writer (lock (container (installed loader start))) = false) as Hw by reflexivity.
  assert (Make (this 1) "loader" (installed loader start) = Deadlock) as Hd
    by (vm_compute; reflexivity).
  split; [exact Hw|]. split; [exact Hd|].
  destruct (only_a_Bind_of_a_hook_blocks 1 "loader" None loader (installed loader start) Hw)
    as (_ & _ & _ & _ & Hblock & _).
  exact (Hblock Hd).
Defined.

End plugin_examples.

